(** * VegSeg: tiling, reconstruction and task lifecycle of [backend/main.py]

    A shallow embedding of the patch pipeline ([extract_patches],
    [reconstruct_from_patches], [segment_image_with_patches]) and of the
    background jobs ([process_image_file], [process_image_from_url]) that
    drive the in-memory task table. *)

From Stdlib Require Import ZArith QArith Qround Lia Lqa Ascii.
From Stdlib Require String.
From stdpp Require Import gmap strings list sorting.

Local Close Scope Q_scope.
Local Open Scope nat_scope.

(** ** Arrays

    A two-dimensional numpy array is a list of rows; the pixel type [A]
    carries the channel axis of an image ([image[y, x, :]]). *)

Definition height {A} (a : list (list A)) : nat := length a.

Definition width {A} (a : list (list A)) : nat :=
  match a with
  | [] => 0
  | row :: _ => length row
  end.

(** Every row has the same length: the array is rectangular. *)
Definition rect {A} (w : nat) (a : list (list A)) : Prop :=
  Forall (λ row, length row = w) a.

(** [a[i, j]] *)
Definition px {A} (a : list (list A)) (i j : nat) : option A :=
  a !! i ≫= λ row, row !! j.

(** [a[y:y + n, x:x + n]]: numpy clips a slice to the array bounds. *)
Definition crop {A} (a : list (list A)) (y x n : nat) : list (list A) :=
  map (λ row, take n (drop x row)) (take n (drop y a)).

(** ** [range(0, stop, step)] for a positive step *)

Definition py_range (stop step : nat) : list nat :=
  map (λ k, k * step) (seq 0 ((stop + step - 1) / step)).

(** ** [np.pad(..., mode='reflect')], padding after the data only

    numpy mirrors the axis around its last element without repeating it and
    keeps mirroring until the pad area is full, so position [i] of the padded
    axis reads position [reflect_index n i] of the original one.  An axis of
    length one is extended with its only element. *)

Definition reflect_index (n i : nat) : nat :=
  if n <=? 1 then 0
  else
    let p := 2 * n - 2 in
    let k := i mod p in
    if k <? n then k else p - k.

Definition pad_axis {A} (l : list A) (pad : nat) : list A :=
  match l with
  | [] => []
  | d :: _ =>
      l ++ map (λ i, nth (reflect_index (length l) i) l d) (seq (length l) pad)
  end.

(** [np.pad(image, ((0, pad_h), (0, pad_w), (0, 0)), mode='reflect')];
    numpy raises [ValueError] when an empty axis is to be extended. *)
Definition np_pad_reflect {A} (image : list (list A)) (pad_h pad_w : nat)
  : option (list (list A)) :=
  if ((height image =? 0) && (0 <? pad_h)) || ((width image =? 0) && (0 <? pad_w))
  then None
  else Some (pad_axis (map (λ row, pad_axis row pad_w) image) pad_h).

(** ** [extract_patches] *)

(** The pair of lists [patches], [positions] that the loops append to. *)
Definition tiles (A : Type) : Type := list (list (list A)) * list (nat * nat).

Definition append_tile {A} (image : list (list A)) (patch_size : nat)
    (acc : tiles A) (pos : nat * nat) : tiles A :=
  (acc.1 ++ [crop image pos.1 pos.2 patch_size], acc.2 ++ [pos]).

(** [if (y, x) not in positions: patches.append(...); positions.append(...)] *)
Definition append_if_new {A} (image : list (list A)) (patch_size : nat)
    (acc : tiles A) (pos : nat * nat) : tiles A :=
  if decide (pos ∈ acc.2) then acc else append_tile image patch_size acc pos.

(** One iteration of an edge loop, whose loop variable [x] fixes the origin
    [f x] that is tried. *)
Definition edge_step {A X} (image : list (list A)) (patch_size : nat)
    (f : X → nat * nat) (acc : tiles A) (x : X) : tiles A :=
  append_if_new image patch_size acc (f x).

(** The padding block at the head of [extract_patches]:
    [if h < patch_size or w < patch_size: image = np.pad(...)]. *)
Definition pad_small {A} (image : list (list A)) (patch_size : nat)
  : option (list (list A)) :=
  let h := height image in
  let w := width image in
  if (h <? patch_size) || (w <? patch_size)
  then
    let pad_h := Nat.max 0 (patch_size - h) in
    let pad_w := Nat.max 0 (patch_size - w) in
    np_pad_reflect image pad_h pad_w
  else Some image.

(** The loops of [extract_patches], run on the (padded) image.  After the
    padding block [h] and [w] are at least [patch_size], so the subtractions
    below are exact on natural numbers. *)
Definition sweep_tiles {A} (image : list (list A)) (patch_size : nat) : tiles A :=
  let h := height image in
  let w := width image in
  let stride := patch_size in
  let ys := py_range (h - patch_size + 1) stride in
  let xs := py_range (w - patch_size + 1) stride in
  (* Extract patches *)
  let acc :=
    fold_left (λ acc y,
      fold_left (λ acc x, append_tile image patch_size acc (y, x)) xs acc)
      ys ([], []) in
  (* Handle edges *)
  let acc :=
    if negb (h mod patch_size =? 0)
    then let y := h - patch_size in
         fold_left (edge_step image patch_size (λ x, (y, x))) xs acc
    else acc in
  let acc :=
    if negb (w mod patch_size =? 0)
    then let x := w - patch_size in
         fold_left (edge_step image patch_size (λ y, (y, x))) ys acc
    else acc in
  (* Bottom-right corner *)
  if negb (h mod patch_size =? 0) && negb (w mod patch_size =? 0)
  then append_if_new image patch_size acc (h - patch_size, w - patch_size)
  else acc.

(** [extract_patches(image, patch_size)] returns the patches, their positions
    and the shape [(h, w)] of the padded image; the channel count [c] of the
    source's [(h, w, c)] lives in the pixel type.  [None] stands for the
    [ValueError] of [np.pad] on an empty axis and of [range] with step zero. *)
Definition extract_patches {A} (image : list (list A)) (patch_size : nat)
  : option (tiles A * (nat * nat)) :=
  image ← pad_small image patch_size;
  let h := height image in
  let w := width image in
  if patch_size =? 0 then None
  else Some (sweep_tiles image patch_size, (h, w)).

(** The primary sweep visits the grid [ys × xs] row by row. *)
Definition grid (ys xs : list nat) : list (nat * nat) :=
  ys ≫= λ y, map (λ x, (y, x)) xs.

(** [patches] and [positions] stay in step: tile [k] is the crop at origin [k]. *)
Definition tiles_ok {A} (image : list (list A)) (patch_size : nat)
    (acc : tiles A) : Prop :=
  acc.1 = map (λ pos, crop image pos.1 pos.2 patch_size) acc.2.

(** The region of the padded image that the tile at [pos] is cut from. *)
Definition covers (patch_size : nat) (pos : nat * nat) (i j : nat) : Prop :=
  pos.1 ≤ i < pos.1 + patch_size ∧ pos.2 ≤ j < pos.2 + patch_size.


(** ** [reconstruct_from_patches]

    The accumulators are float32 arrays that only ever hold sums of class
    indices and overlap counts: small non-negative integers, which float32
    represents exactly, and for which the float32 quotient truncates to the
    same integer as the exact quotient.  They are modelled as arrays of [Z];
    [astype(np.uint8)] drops the fraction and keeps the low eight bits. *)

(** Length of the slice [start:start + n] of an axis of length [len]. *)
Definition slice_len (len start n : nat) : nat :=
  Nat.min len (start + n) - Nat.min len start.

(** numpy's rule for [view += pred]: each axis of [pred] has the length of the
    view's axis, or length one. *)
Definition broadcastable (pred : list (list Z)) (sh sw : nat) : bool :=
  ((height pred =? sh) || (height pred =? 1))
  && ((width pred =? sw) || (width pred =? 1)).

(** The element of [pred] that is added at offset [(i, j)] of the view. *)
Definition pred_at (pred : list (list Z)) (i j : nat) : Z :=
  default 0%Z (px pred (if height pred =? 1 then 0 else i)
                       (if width pred =? 1 then 0 else j)).

(** [a[y:y + n, x:x + n] += f], [f] indexed from the corner of the slice. *)
Definition slice_add (a : list (list Z)) (y x n : nat) (f : nat → nat → Z)
  : list (list Z) :=
  imap (λ i row,
    imap (λ j v,
      if bool_decide (y ≤ i < y + n ∧ x ≤ j < x + n)
      then (v + f (i - y)%nat (j - x)%nat)%Z else v) row) a.

(** One iteration of the loop over [zip(predictions, positions)]; [None] is
    the [ValueError] of a prediction that does not broadcast into its slice. *)
Definition accumulate (h w patch_size : nat)
    (acc : option (list (list Z) * list (list Z)))
    (item : list (list Z) * (nat * nat)) : option (list (list Z) * list (list Z)) :=
  '(output_mask, count_mask) ← acc;
  let '(pred, (y, x)) := item in
  if broadcastable pred (slice_len h y patch_size) (slice_len w x patch_size)
  then Some (slice_add output_mask y x patch_size (pred_at pred),
             slice_add count_mask y x patch_size (λ _ _, 1%Z))
  else None.

(** The prediction of [item] broadcasts into its slice of the accumulators. *)
Definition fits (h w n : nat) (item : list (list Z) * (nat * nat)) : Prop :=
  broadcastable item.1 (slice_len h item.2.1 n) (slice_len w item.2.2 n) = true.

(** Every value of the array is a class index that a [uint8] can hold. *)
Definition uint8_valued (pred : list (list Z)) : Prop :=
  Forall (Forall (λ v, (0 ≤ v ≤ 255)%Z)) pred.

(** The [n × n] prediction that is [c] everywhere. *)
Definition constant_pred (n : nat) (c : Z) : list (list Z) :=
  replicate n (replicate n c).



Definition astype_uint8 (v : Z) : Z := (v mod 256)%Z.

Definition reconstruct_from_patches (predictions : list (list (list Z)))
    (positions : list (nat * nat)) (original_shape : nat * nat)
    (patch_size : nat) : option (list (list Z)) :=
  let '(h, w) := original_shape in
  let output_mask := replicate h (replicate w 0%Z) in
  let count_mask := replicate h (replicate w 0%Z) in
  '(output_mask, count_mask) ←
    fold_left (accumulate h w patch_size) (zip predictions positions)
      (Some (output_mask, count_mask));
  Some (zip_with (zip_with (λ s c, astype_uint8 (Z.quot s (Z.max c 1))))
          output_mask count_mask).

(** The reconstruction read pixel by pixel, as the specification words it:
    the sum of the class values predicted for the pixel, the number of tiles
    that overlap it, and the rounded average. *)
Definition sum_at (items : list (list (list Z) * (nat * nat))) (patch_size : nat)
    (i j : nat) : Z :=
  foldr (λ item s,
    (if bool_decide (covers patch_size item.2 i j)
     then pred_at item.1 (i - item.2.1)%nat (j - item.2.2)%nat else 0) + s)%Z
    0%Z items.

Definition count_at (items : list (list (list Z) * (nat * nat))) (patch_size : nat)
    (i j : nat) : Z :=
  foldr (λ item s,
    (if bool_decide (covers patch_size item.2 i j) then 1 else 0) + s)%Z
    0%Z items.

(** Rounding to the nearest integer, ties to the even one, as Python's and
    numpy's [round] do. *)
Definition round_half_even (q : Q) : Z :=
  let f := Qfloor q in
  match Qcompare (q - inject_Z f) (1 # 2) with
  | Lt => f
  | Gt => (f + 1)%Z
  | Eq => if Z.even f then f else (f + 1)%Z
  end.


(** ** [segment_image_with_patches]

    The model is opaque: [predict] stands for [model.predict] followed by
    [np.argmax(..., axis=-1)] and may raise.  A preprocessed pixel is a list of
    normalised channel values. *)

(** A Python [Exception]; [msg] is [str(e)].  The [ValueError]s that numpy
    and [range] raise in the tiler and the reconstructor carry their class
    name in place of their message text. *)
Inductive exn : Type := Exception (msg : string).

(** [str(e)] *)
Definition str (e : exn) : string := match e with Exception msg => msg end.

(** What the jobs rely on from outside the program. *)
Record env : Type := {
  (** [model is not None] *)
  model_loaded : bool;
  (** [sm.get_preprocessing(backbone)], a channel-wise map on each pixel *)
  preprocess_input : list Z → list Q;
  (** [np.argmax(model.predict(patches, batch_size=...), axis=-1)] *)
  predict : list (list (list (list Q))) → nat → exn + list (list (list Z));
  (** [requests.get(url, timeout=30)] with [raise_for_status()]: the content *)
  requests_get : string → exn + list Z;
  (** [open(path, "wb")] and [f.write(content)] *)
  write_file : string → list Z → exn + unit;
  (** [rasterio.open(path).read()], band-first *)
  rasterio_read : string → exn + list (list (list Z));
  (** [np.array(Image.open(path).convert('RGB'))] *)
  pil_open_rgb : string → exn + list (list (list Z));
  (** [cv2.imwrite(path, ...)], together with the rendering of the array
      that is written (scaled mask, blended overlay), which may raise too *)
  imwrite : string → exn + unit;
  (** [(datetime.now() - start_time).total_seconds()] *)
  elapsed_seconds : Q;
}.

(** [full_mask[:h, :w]] *)
Definition crop_to {B} (a : list (list B)) (h w : nat) : list (list B) :=
  map (take w) (take h a).

Definition segment_image_with_patches (E : env)
    (image_array : list (list (list Z))) (patch_size batch_size : nat)
  : exn + list (list Z) :=
  let original_shape := (height image_array, width image_array) in
  (* Preprocess image *)
  let preprocessed_image := map (map (preprocess_input E)) image_array in
  (* Extract patches *)
  match extract_patches preprocessed_image patch_size with
  | None => inl (Exception "ValueError")
  | Some ((patches, positions), padded_shape) =>
      (* Run prediction *)
      match predict E patches batch_size with
      | inl e => inl e
      | inr predicted_masks =>
          (* Reconstruct full mask *)
          match reconstruct_from_patches predicted_masks positions padded_shape
                  patch_size with
          | None => inl (Exception "ValueError")
          | Some full_mask =>
              inr (crop_to full_mask original_shape.1 original_shape.2)
          end
      end
  end.

(** ** Vegetation statistics *)

Definition PATCH_SIZE : nat := 512.
Definition N_CLASSES : Z := 7.
(** All non-background classes as vegetation *)
Definition VEGETATION_CLASSES : list Z := [1; 2; 3; 4; 5; 6]%Z.

(** [np.isin(v, classes)] on one element *)
Definition isin (v : Z) (classes : list Z) : bool := bool_decide (v ∈ classes).

(** [np.isin(segmentation_mask, VEGETATION_CLASSES).astype(np.float32)] *)
Definition binary_mask_of (segmentation_mask : list (list Z)) : list (list Z) :=
  map (map (λ v, if isin v VEGETATION_CLASSES then 1%Z else 0%Z))
    segmentation_mask.

(** [a.sum()] and [a.size] *)
Definition array_sum (a : list (list Z)) : Z := foldr Z.add 0%Z (concat a).
Definition array_size {B} (a : list (list B)) : nat := length (concat a).

(** [(binary_mask.sum() / binary_mask.size) * 100], in exact arithmetic;
    [None] is the [nan] that numpy yields for an empty mask. *)
Definition vegetation_percentage (binary_mask : list (list Z)) : option Q :=
  if array_size binary_mask =? 0 then None
  else Some ((inject_Z (array_sum binary_mask)
              / inject_Z (Z.of_nat (array_size binary_mask))) * 100)%Q.

(** [round(x, 2)] *)
Definition round2 (x : Q) : Q :=
  (inject_Z (round_half_even (x * 100)) / 100)%Q.

(** [[int(c) for c in np.unique(segmentation_mask)]] of a [uint8] mask: the
    values that occur, in increasing order. *)
Definition unique_classes_of (segmentation_mask : list (list Z)) : list Z :=
  filter (λ v, v ∈ concat segmentation_mask) (map Z.of_nat (seq 0 256)).

(** ** Paths *)

Definition UPLOAD_DIR : string := "uploads".
Definition RESULTS_DIR : string := "results".

(** [str(directory / name)] for a relative [name] without separators *)
Definition path_join (directory name : string) : string :=
  directory +:+ "/" +:+ name.

Definition ascii_lower (c : ascii) : ascii :=
  let n := nat_of_ascii c in
  if (65 <=? n) && (n <=? 90) then ascii_of_nat (n + 32) else c.

(** [s.lower()], on the ASCII letters; other characters stay as they are. *)
Fixpoint lower (s : string) : string :=
  match s with
  | EmptyString => EmptyString
  | String c s => String (ascii_lower c) (lower s)
  end.

(** [s.endswith(suffix)]: some tail of [s] is [suffix]. *)
Fixpoint endswith (s suffix : string) : bool :=
  String.eqb s suffix
  || match s with
     | EmptyString => false
     | String _ s => endswith s suffix
     end.

(** [str(file_path).lower().endswith(('.tif', '.tiff'))] *)
Definition is_geotiff (file_path : string) : bool :=
  endswith (lower file_path) ".tif" || endswith (lower file_path) ".tiff".

(** [UPLOAD_DIR / f"{task_id}_input"] *)
Definition url_input_path (task_id : string) : string :=
  path_join UPLOAD_DIR (task_id +:+ "_input").

Fixpoint last_char (s : string) : option ascii :=
  match s with
  | EmptyString => None
  | String c EmptyString => Some c
  | String _ s => last_char s
  end.

(** ** Image loading *)

(** The environment [E] with another geospatial reader. *)
Definition with_rasterio (E : env)
    (r : string → exn + list (list (list Z))) : env :=
  {| model_loaded := model_loaded E;
     preprocess_input := preprocess_input E;
     predict := predict E;
     requests_get := requests_get E;
     write_file := write_file E;
     rasterio_read := r;
     pil_open_rgb := pil_open_rgb E;
     imwrite := imwrite E;
     elapsed_seconds := elapsed_seconds E |}.

(** [np.transpose(a, (1, 2, 0))] of a band-first array. *)
Definition transpose_120 (a : list (list (list Z))) : list (list (list Z)) :=
  let h := match a with [] => 0 | band :: _ => height band end in
  let w := match a with [] => 0 | band :: _ => width band end in
  map (λ i, map (λ j, omap (λ band, px band i j) a) (seq 0 w)) (seq 0 h).

(** The two branches of the loader in [process_image_file]. *)
Definition load_image (E : env) (file_path : string)
  : exn + list (list (list Z)) :=
  if is_geotiff file_path
  then
    match rasterio_read E file_path with
    | inl e => inl e
    | inr image_array =>
        let image_array :=
          if length image_array <=? 4 then transpose_120 image_array
          else image_array in
        let image_array :=
          if 3 <? (match image_array with
                   | (pixel :: _) :: _ => length pixel
                   | _ => 0
                   end)
          then map (map (take 3)) image_array
          else image_array in
        inr image_array
    end
  else pil_open_rgb E file_path.

(** ** The task table *)

(** The ["result"] entry of a completed task; [vegetation_percentage] is
    [None] for [nan]. *)
Record result_payload : Type := {
  vegetation_percentage_r : option Q;
  processing_time : Q;
  method : string;
  result_mask_url : string;
  overlay_url : string;
  segmentation_url : string;
  image_dimensions : nat * nat;
  unique_classes : list Z;
}.

(** One entry of [tasks]; [result] is [None] while the key is absent. *)
Record task : Type := {
  task_id : string;
  status : string;
  progress : Z;
  message : string;
  created_at : Z;
  result : option result_payload;
}.

(** [tasks[task_id] = {...}] in [segment_uploaded_image] *)
Definition new_upload_task (id : string) (now : Z) : task :=
  {| task_id := id; status := "uploading"; progress := 0;
     message := "Uploading file..."; created_at := now; result := None |}.

(** [tasks[task_id] = {...}] in [segment_image_from_url] *)
Definition new_url_task (id : string) (now : Z) : task :=
  {| task_id := id; status := "queued"; progress := 0;
     message := "Task queued for processing..."; created_at := now;
     result := None |}.

(** [t["status"] = s; t["progress"] = p; t["message"] = m] *)
Definition set_stage (s : string) (p : Z) (m : string) (t : task) : task :=
  {| task_id := task_id t; status := s; progress := p; message := m;
     created_at := created_at t; result := result t |}.

(** [t["progress"] = p; t["message"] = m] *)
Definition set_progress (p : Z) (m : string) (t : task) : task :=
  {| task_id := task_id t; status := status t; progress := p; message := m;
     created_at := created_at t; result := result t |}.

(** [t["status"] = "error"; t["message"] = m] *)
Definition set_error (m : string) (t : task) : task :=
  {| task_id := task_id t; status := "error"; progress := progress t;
     message := m; created_at := created_at t; result := result t |}.

(** [t.update({"status": "completed", "progress": 100, "message": ...,
    "result": r})] *)
Definition set_completed (r : result_payload) (t : task) : task :=
  {| task_id := task_id t; status := "completed"; progress := 100;
     message := "Segmentation completed"; created_at := created_at t;
     result := Some r |}.

Definition terminal (s : string) : Prop := s = "error" ∨ s = "completed".

(** ** Jobs: state and exceptions

    A job runs against the task table and records the table after each of
    its update blocks (the consecutive assignments to one task's fields,
    between which the job does nothing else). *)

Record world : Type := {
  tasks : gmap string task;
  trace : list (gmap string task);
}.

Definition job (B : Type) : Type := world → (exn + B) * world.

Global Instance job_ret : MRet job := λ B x w, (inr x, w).

Global Instance job_bind : MBind job := λ B C f m w,
  match m w with
  | (inl e, w') => (inl e, w')
  | (inr x, w') => f x w'
  end.

(** [raise e] *)
Definition raise {B} (e : exn) : job B := λ w, (inl e, w).

(** A call that leaves the task table alone and may raise. *)
Definition call {B} (r : exn + B) : job B := λ w, (r, w).

(** [try: body  except Exception as e: handler(e)] *)
Definition try_except (body : job unit) (handler : exn → job unit) : job unit :=
  λ w,
    match body w with
    | (inl e, w') => handler e w'
    | (inr x, w') => (inr x, w')
    end.

(** An update block on [tasks[id]]; the subscript raises [KeyError] when the
    task is not in the table. *)
Definition update_task (id : string) (f : task → task) : job unit := λ w,
  match tasks w !! id with
  | None => (inl (Exception ("'" +:+ id +:+ "'")), w)
  | Some t =>
      let ts := <[id := f t]> (tasks w) in
      (inr (), {| tasks := ts; trace := trace w ++ [ts] |})
  end.

(** The successive records of task [id] along a trace. *)
Definition records_of (id : string) (tr : list (gmap string task)) : list task :=
  omap (λ ts, ts !! id) tr.

(** ** [process_image_file] *)

Definition completed_result (E : env) (id : string)
    (vegetation_percentage : option Q) (original_shape : nat * nat)
    (segmentation_mask : list (list Z)) : result_payload :=
  {| vegetation_percentage_r := round2 <$> vegetation_percentage;
     processing_time := round2 (elapsed_seconds E);
     method := "AI Model (7 classes)";
     result_mask_url := "/results/" +:+ id +:+ "_result.png";
     overlay_url := "/results/" +:+ id +:+ "_overlay.png";
     segmentation_url := "/results/" +:+ id +:+ "_segmentation.png";
     image_dimensions := original_shape;
     unique_classes := unique_classes_of segmentation_mask |}.

(** The [try] block of [process_image_file]. *)
Definition process_image_file_body (E : env) (file_path id : string)
    (threshold : Q) : job unit :=
  (if model_loaded E then mret () else raise (Exception "Model not loaded"));;
  (* Update task status *)
  update_task id (set_stage "processing" 30 "Loading image...");;
  (* Load image *)
  image_array ← call (load_image E file_path);
  let original_shape := (height image_array, width image_array) in
  (* Update progress *)
  update_task id (set_progress 50 "Running segmentation...");;
  (* Run segmentation *)
  segmentation_mask ←
    call (segment_image_with_patches E image_array PATCH_SIZE 8);
  (* Create binary vegetation mask *)
  let binary_mask := binary_mask_of segmentation_mask in
  (* Update progress *)
  update_task id (set_progress 80 "Generating results...");;
  (* Calculate vegetation percentage *)
  let vegetation_percentage := vegetation_percentage binary_mask in
  (* Save results *)
  call (imwrite E (path_join RESULTS_DIR (id +:+ "_result.png")));;
  call (imwrite E (path_join RESULTS_DIR (id +:+ "_segmentation.png")));;
  (* Create overlay *)
  call (imwrite E (path_join RESULTS_DIR (id +:+ "_overlay.png")));;
  (* Update task with results *)
  update_task id
    (set_completed
       (completed_result E id vegetation_percentage original_shape
          segmentation_mask)).

(** The [except Exception as e] block of [process_image_file]. *)
Definition process_image_file_handler (id : string) (e : exn) : job unit :=
  update_task id (set_error ("Processing error: " +:+ str e)).

Definition process_image_file (E : env) (file_path id : string)
    (threshold : Q) : job unit :=
  try_except (process_image_file_body E file_path id threshold)
    (process_image_file_handler id).


(** ** [process_image_from_url] *)

(** The head of the [try] block of [process_image_from_url]: download the
    image and save it; the result is [input_path]. *)
Definition download_image (E : env) (url id : string) : job string :=
  (if model_loaded E then mret () else raise (Exception "Model not loaded"));;
  update_task id (set_stage "downloading" 10 "Downloading image...");;
  (* Download image *)
  content ← call (requests_get E url);
  (* Save downloaded image *)
  let input_path := url_input_path id in
  call (write_file E input_path content);;
  mret input_path.

(** The [try] block of [process_image_from_url]. *)
Definition process_image_from_url_body (E : env) (url id : string)
    (threshold : Q) : job unit :=
  input_path ← download_image E url id;
  (* Process the image *)
  process_image_file E input_path id threshold.

(** The [except Exception as e] block of [process_image_from_url]. *)
Definition process_image_from_url_handler (id : string) (e : exn) : job unit :=
  update_task id (set_error ("Error processing URL: " +:+ str e)).

Definition process_image_from_url (E : env) (url id : string)
    (threshold : Q) : job unit :=
  try_except (process_image_from_url_body E url id threshold)
    (process_image_from_url_handler id).

(** Starting a job on a table, with an empty trace. *)
Definition start (ts : gmap string task) : world := {| tasks := ts; trace := [] |}.

(** ** Submissions

    [background_tasks.add_task(process_image_file, file_path, task_id, ...)]
    for an upload, [add_task(process_image_from_url, url, task_id, ...)] for
    a URL. *)

Inductive submission : Type :=
  | Upload (file_path : string)
  | Url (url : string).

Definition background_job (E : env) (s : submission) (id : string)
    (threshold : Q) : job unit :=
  match s with
  | Upload file_path => process_image_file E file_path id threshold
  | Url url => process_image_from_url E url id threshold
  end.

(** The [try] block of the job, and the text its handler puts before
    [str(e)]. *)
Definition job_body (E : env) (s : submission) (id : string) (threshold : Q)
  : job unit :=
  match s with
  | Upload file_path => process_image_file_body E file_path id threshold
  | Url url => process_image_from_url_body E url id threshold
  end.

Definition job_prefix (s : submission) : string :=
  match s with
  | Upload _ => "Processing error: "
  | Url _ => "Error processing URL: "
  end.

(** ** Lifecycle of one task

    The successive records of a task: [recs !! 0] is the record the job
    starts from, [recs !! S k] the record after its [k]-th update block. *)

Definition monotone_progress (recs : list task) : Prop :=
  ∀ k a b, recs !! k = Some a → recs !! S k = Some b →
    (progress a ≤ progress b)%Z.

Definition terminal_is_final (recs : list task) : Prop :=
  ∀ k a, recs !! k = Some a → terminal (status a) → recs !! S k = None.

Definition error_keeps_progress (recs : list task) : Prop :=
  ∀ k a b, recs !! k = Some a → recs !! S k = Some b →
    status b = "error" → progress b = progress a.

(** One update block takes record [a] to record [b]. *)
Definition lifecycle_step (a b : task) : Prop :=
  ¬ terminal (status a)
  ∧ (progress a ≤ progress b)%Z
  ∧ (status b = "error" → progress b = progress a).

Inductive chain : task → list task → Prop :=
  | chain_nil t : chain t []
  | chain_cons t t' l : lifecycle_step t t' → chain t' l → chain t (t' :: l).

(** The record that has not reached a terminal state and has no result. *)
Definition live (t : task) : Prop := ¬ terminal (status t) ∧ result t = None.

(** The record is at stage [s] with progress [p] and has no result yet. *)
Definition at_stage (s : string) (p : Z) (t : task) : Prop :=
  status t = s ∧ progress t = p ∧ result t = None.

(** The record of a task that completed. *)
Definition completed_ok (t : task) : Prop :=
  status t = "completed" ∧ progress t = 100%Z ∧ is_Some (result t).

(** The record of a task that failed with exception [e], reported by the
    handler that writes [prefix] before [str(e)]. *)
Definition failed_with (prefix : string) (e : exn) (t : task) : Prop :=
  status t = "error" ∧ message t = prefix +:+ str e ∧ result t = None.

(** A specification of a job with respect to task [id]: started on a table
    that holds a record [t] satisfying [P], the job returns, the records it
    appends form a chain from [t], the table holds the last of them, other
    tasks are untouched, and the outcome satisfies [Qn] (normal return) or
    [Qe] (exception). *)
Definition job_ok (id : string) {B} (m : job B) (P : task → Prop)
    (Qn : B → task → Prop) (Qe : exn → task → Prop) : Prop :=
  ∀ w t, tasks w !! id = Some t → P t →
    ∃ r w' recs,
      m w = (r, w')
      ∧ records_of id (trace w') = records_of id (trace w) ++ recs
      ∧ chain t recs
      ∧ tasks w' !! id = Some (default t (last recs))
      ∧ (∀ o, o ≠ id → tasks w' !! o = tasks w !! o)
      ∧ match r with
        | inl e => Qe e (default t (last recs))
        | inr x => Qn x (default t (last recs))
        end.

(** Record [b] is record [a] with, at most, its status, progress, message
    and result changed. *)
Definition same_identity (a b : task) : Prop :=
  task_id b = task_id a ∧ created_at b = created_at a.

(** Started on a table that holds task [id], the job returns or raises with
    the task still in the table, its identity kept, and the same set of task
    ids in the table. *)
Definition job_keeps (id : string) {B} (m : job B) : Prop :=
  ∀ w t, tasks w !! id = Some t →
    ∃ r w' t',
      m w = (r, w')
      ∧ tasks w' !! id = Some t'
      ∧ same_identity t t'
      ∧ dom (tasks w') = dom (tasks w).

(** An environment in which the model was never loaded, and a table with one
    queued URL task. *)
Definition no_model : env :=
  {| model_loaded := false;
     preprocess_input := map inject_Z;
     predict := λ _ _, inl (Exception "Model not loaded");
     requests_get := λ _, inl (Exception "404 Client Error");
     write_file := λ _ _, inr ();
     rasterio_read := λ _, inl (Exception "RasterioIOError");
     pil_open_rgb := λ _, inl (Exception "UnidentifiedImageError");
     imwrite := λ _, inr ();
     elapsed_seconds := 0 |}.

(** An environment whose model answers class [c] on every [n × n] tile, and
    whose image reader yields a 2 × 3 RGB image. *)
Definition stub_model (n : nat) (c : Z) : env :=
  {| model_loaded := true;
     preprocess_input := map inject_Z;
     predict := λ patches _, inr (map (λ _, constant_pred n c) patches);
     requests_get := λ _, inr [137; 80; 78; 71]%Z;
     write_file := λ _ _, inr ();
     rasterio_read := λ _, inl (Exception "RasterioIOError");
     pil_open_rgb := λ _,
       inr [[[10; 20; 30]; [11; 21; 31]; [12; 22; 32]];
            [[13; 23; 33]; [14; 24; 34]; [15; 25; 35]]]%Z;
     imwrite := λ _, inr ();
     elapsed_seconds := 3 # 2 |}.

(** The same environment with a model whose [predict] raises. *)
Definition failing_model : env :=
  {| model_loaded := true;
     preprocess_input := map inject_Z;
     predict := λ _ _, inl (Exception "ResourceExhaustedError");
     requests_get := requests_get (stub_model 1 0);
     write_file := λ _ _, inr ();
     rasterio_read := rasterio_read (stub_model 1 0);
     pil_open_rgb := pil_open_rgb (stub_model 1 0);
     imwrite := λ _, inr ();
     elapsed_seconds := 3 # 2 |}.

(** A model that looks at one pixel at a time: class 1 where the first
    channel is at least 128, class 0 elsewhere. *)
Definition bright_class (p : list Q) : Z :=
  match p with
  | q :: _ => if Qle_bool 128 q then 1%Z else 0%Z
  | [] => 0%Z
  end.

Definition pixelwise_model : env :=
  {| model_loaded := true;
     preprocess_input := map inject_Z;
     predict := λ patches _, inr (map (map (map bright_class)) patches);
     requests_get := λ _, inr [137; 80; 78; 71]%Z;
     write_file := λ _ _, inr ();
     rasterio_read := λ _, inl (Exception "RasterioIOError");
     pil_open_rgb := λ _, inl (Exception "UnidentifiedImageError");
     imwrite := λ _, inr ();
     elapsed_seconds := 3 # 2 |}.

(** A server with its model loaded that reaches no URL. *)
Definition offline : env :=
  {| model_loaded := true;
     preprocess_input := map inject_Z;
     predict := λ _ _, inl (Exception "ResourceExhaustedError");
     requests_get := λ _, inl (Exception "404 Client Error");
     write_file := λ _ _, inr ();
     rasterio_read := λ _, inl (Exception "RasterioIOError");
     pil_open_rgb := λ _, inl (Exception "UnidentifiedImageError");
     imwrite := λ _, inr ();
     elapsed_seconds := 0 |}.

(** A server whose geospatial reader yields four bands of a 1 × 2 raster. *)
Definition rgba_raster : env :=
  {| model_loaded := true;
     preprocess_input := map inject_Z;
     predict := λ _ _, inl (Exception "ResourceExhaustedError");
     requests_get := λ _, inl (Exception "404 Client Error");
     write_file := λ _ _, inr ();
     rasterio_read := λ _,
       inr [[[10; 11]]; [[20; 21]]; [[30; 31]]; [[255; 255]]]%Z;
     pil_open_rgb := λ _, inl (Exception "UnidentifiedImageError");
     imwrite := λ _, inr ();
     elapsed_seconds := 0 |}.

(** A server with its model loaded whose disk takes no more files. *)
Definition disk_full : env :=
  {| model_loaded := true;
     preprocess_input := map inject_Z;
     predict := λ _ _, inl (Exception "ResourceExhaustedError");
     requests_get := λ _, inl (Exception "404 Client Error");
     write_file := λ _ _, inl (Exception "[Errno 28] No space left on device");
     rasterio_read := λ _, inl (Exception "RasterioIOError");
     pil_open_rgb := λ _, inl (Exception "UnidentifiedImageError");
     imwrite := λ _, inl (Exception "[Errno 28] No space left on device");
     elapsed_seconds := 0 |}.

Definition one_queued : gmap string task := {[ "t1" := new_url_task "t1" 0 ]}.

(** ** The task endpoints

    An endpoint returns its response or raises an [HTTPException]. *)

Inductive http_error : Type := HTTPException (status_code : nat) (detail : string).

(** The body that [get_task_status] returns. *)
Record status_response : Type := {
  r_task_id : string;
  r_status : string;
  r_progress : option Z;
  r_message : string;
  r_result : option result_payload;
}.

(** [GET /tasks/{task_id}] *)
Definition get_task_status (ts : gmap string task) (id : string)
  : http_error + status_response :=
  match ts !! id with
  | None => inl (HTTPException 404 "Task not found")
  | Some task_data =>
      inr {| r_task_id := id;
             r_status := status task_data;
             r_progress := Some (progress task_data);
             r_message := message task_data;
             r_result := result task_data |}
  end.

(** [status is None or task["status"] == status] *)
Definition status_matches (st : option string) (t : task) : bool :=
  match st with
  | None => true
  | Some s => bool_decide (status t = s)
  end.

(** Insertion of [t], which came before the tasks of [l] in the table, into
    [l] sorted newest first: [t] goes before the first task that is not newer
    than it, so tasks created at the same time keep their table order, as the
    stable [sort(key=..., reverse=True)] has it. *)
Fixpoint insert_newest (t : task) (l : list task) : list task :=
  match l with
  | [] => [t]
  | u :: l' =>
      if (created_at u <=? created_at t)%Z then t :: u :: l'
      else u :: insert_newest t l'
  end.

(** [l.sort(key=lambda x: x["created_at"], reverse=True)] *)
Definition sort_newest (l : list task) : list task := foldr insert_newest [] l.

(** [l[:limit]]: a negative [limit] counts from the end. *)
Definition py_slice_to {B} (limit : Z) (l : list B) : list B :=
  if (0 <=? limit)%Z then take (Z.to_nat limit) l
  else take (length l - Z.to_nat (- limit)) l.

(** [GET /tasks]; [values] is [tasks.values()], in the order of the table. *)
Definition list_tasks (values : list task) (limit : Z) (st : option string)
  : list task :=
  let filtered_tasks := filter (λ t, status_matches st t = true) values in
  py_slice_to limit (sort_newest filtered_tasks).

(** [name.startswith(prefix)] *)
Fixpoint startswith (name prefix : string) : bool :=
  match prefix with
  | EmptyString => true
  | String c prefix' =>
      match name with
      | EmptyString => false
      | String d name' =>
          if decide (c = d) then startswith name' prefix' else false
      end
  end.

(** The entries of the two directories, by name. *)
Record files : Type := {
  uploads : list string;
  results : list string;
}.

(** [for file_path in directory.glob(f"{task_id}_*"):
    file_path.unlink(missing_ok=True)] over the entries [names] of
    [directory], for a task id without glob metacharacters (the ids are
    uuids).  [unlink] tells which paths cannot be removed and why.  The
    result is the exception that stopped the loop, if any, and the entries
    that remain. *)
Fixpoint unlink_matching (unlink : string → option exn)
    (directory id : string) (names : list string) : option exn * list string :=
  match names with
  | [] => (None, [])
  | name :: names' =>
      if startswith name (id +:+ "_")
      then
        match unlink (path_join directory name) with
        | Some e => (Some e, name :: names')
        | None => unlink_matching unlink directory id names'
        end
      else
        let '(r, kept) := unlink_matching unlink directory id names' in
        (r, name :: kept)
  end.

(** [DELETE /tasks/{task_id}] *)
Definition delete_task (unlink : string → option exn)
    (ts : gmap string task) (fs : files) (id : string)
  : (http_error + string) * (gmap string task * files) :=
  match ts !! id with
  | None => (inl (HTTPException 404 "Task not found"), (ts, fs))
  | Some _ =>
      match unlink_matching unlink UPLOAD_DIR id (uploads fs) with
      | (Some e, kept) =>
          (inl (HTTPException 500 ("Error deleting task: " +:+ str e)),
           (ts, {| uploads := kept; results := results fs |}))
      | (None, kept_uploads) =>
          match unlink_matching unlink RESULTS_DIR id (results fs) with
          | (Some e, kept) =>
              (inl (HTTPException 500 ("Error deleting task: " +:+ str e)),
               (ts, {| uploads := kept_uploads; results := kept |}))
          | (None, kept_results) =>
              (inr "Task deleted successfully",
               (delete id ts,
                {| uploads := kept_uploads; results := kept_results |}))
          end
      end
  end.

(** [POST /segment/url]: the table with the new record, and the job that is
    handed to [background_tasks.add_task].  [id] is the [uuid4] drawn, [now]
    the clock. *)
Definition segment_image_from_url (ts : gmap string task) (id : string)
    (now : Z) (url : string) (threshold : Q)
  : gmap string task * (submission * string * Q) :=
  (<[id := new_url_task id now]> ts, (Url url, id, threshold)).

(** ** Paths as [pathlib] reads them (POSIX flavour) *)

(** [s.split(sep)] *)
Fixpoint split_on (sep : ascii) (s : string) : list string :=
  match s with
  | EmptyString => [EmptyString]
  | String c s' =>
      if decide (c = sep) then EmptyString :: split_on sep s'
      else
        match split_on sep s' with
        | first :: others => String c first :: others
        | [] => [String c EmptyString]
        end
  end.

(** The components that [PurePosixPath(s)] keeps after its root: empty ones
    and [.] are dropped. *)
Definition path_parts (s : string) : list string :=
  filter (λ x, x ≠ EmptyString ∧ x ≠ ".") (split_on "/" s).

(** The root of [PurePosixPath(s)]: exactly two leading slashes are kept. *)
Definition path_root (s : string) : string :=
  match s with
  | String "/" (String "/" (String "/" _)) => "/"
  | String "/" (String "/" _) => "//"
  | String "/" _ => "/"
  | _ => ""
  end.

(** ["/".join(parts)] *)
Fixpoint join_parts (parts : list string) : string :=
  match parts with
  | [] => ""
  | [x] => x
  | x :: rest => x +:+ "/" +:+ join_parts rest
  end.

(** [str(path)] of a path with this root and these parts. *)
Definition path_str (root : string) (parts : list string) : string :=
  match root, parts with
  | EmptyString, [] => "."
  | _, _ => root +:+ join_parts parts
  end.

(** [str(PurePosixPath(directory) / x)]: an absolute [x] replaces the
    directory. *)
Definition path_div (directory x : string) : string :=
  match path_root x with
  | EmptyString =>
      path_str (path_root directory) (path_parts directory ++ path_parts x)
  | root => path_str root (path_parts x)
  end.

(** [Path(s).name] *)
Definition path_name (s : string) : string := default "" (last (path_parts s)).

(** [name.rfind('.')], [None] for -1 *)
Fixpoint rfind_dot (name : string) : option nat :=
  match name with
  | EmptyString => None
  | String c name' =>
      match rfind_dot name' with
      | Some i => Some (S i)
      | None => if decide (c = "."%char) then Some 0 else None
      end
  end.

(** [s[i:]] *)
Fixpoint string_drop (i : nat) (s : string) : string :=
  match i, s with
  | 0, _ => s
  | S i', String _ s' => string_drop i' s'
  | S _, EmptyString => EmptyString
  end.

(** [Path(s).suffix]: the name from its last dot on, unless that dot is the
    first or the last character of the name. *)
Definition path_suffix (s : string) : string :=
  let name := path_name s in
  match rfind_dot name with
  | Some i =>
      if (0 <? i) && (i <? String.length name - 1) then string_drop i name
      else ""
  | None => ""
  end.

(** ** [POST /segment/upload] *)

Definition allowed_extensions : list string :=
  [".jpg"; ".jpeg"; ".png"; ".tif"; ".tiff"].

Definition MAX_FILE_SIZE : Z := (50 * 1024 * 1024)%Z.

(** The [SegmentationResponse] of an accepted upload. *)
Record upload_response : Type := {
  u_task_id : string;
  u_status : string;
  u_message : string;
  u_created_at : Z;
}.

(** [segment_uploaded_image]: the response or the [HTTPException], with the
    job handed to [background_tasks.add_task] when the upload is accepted,
    and the table afterwards.  [id] is the [uuid4] drawn, [now] and
    [responded] are the two readings of the clock, and [listing] is
    [', '.join(allowed_extensions)], whose order is the set's. *)
Definition segment_uploaded_image (E : env) (ts : gmap string task)
    (id : string) (now responded : Z) (listing : string)
    (filename : string) (content : list Z) (threshold : Q)
  : (http_error + (upload_response * (submission * string * Q)))
    * gmap string task :=
  (* Validate file type *)
  let file_extension := lower (path_suffix filename) in
  if negb (bool_decide (file_extension ∈ allowed_extensions))
  then (inl (HTTPException 400
               ("Unsupported file type. Allowed: " +:+ listing)), ts)
  (* Validate file size (max 50MB) *)
  else if (MAX_FILE_SIZE <? Z.of_nat (length content))%Z
  then (inl (HTTPException 400 "File too large. Maximum size is 50MB"), ts)
  (* Validate threshold *)
  else if negb (Qle_bool 0 threshold && Qle_bool threshold 1)
  then (inl (HTTPException 400 "Threshold must be between 0.0 and 1.0"), ts)
  else
    (* Initialize task *)
    let ts := <[id := new_upload_task id now]> ts in
    (* Save uploaded file *)
    let file_path := path_div UPLOAD_DIR (id +:+ "_" +:+ filename) in
    match write_file E file_path content with
    | inr _ =>
        (* Start background processing *)
        (inr ({| u_task_id := id; u_status := "processing";
                 u_message := "Image uploaded successfully. Processing started.";
                 u_created_at := responded |},
              (Upload file_path, id, threshold)), ts)
    | inl e =>
        (inl (HTTPException 500 ("Upload failed: " +:+ str e)),
         <[id := set_error ("Upload error: " +:+ str e)
                   (new_upload_task id now)]> ts)
    end.

(** * Properties of the tiler *)

Section Tiler.
Context {A : Type}.
Implicit Types (image : list (list A)) (acc : tiles A) (pos : nat * nat).

(** *** [range] *)

Lemma elem_of_py_range stop step y :
  0 < step →
  y ∈ py_range stop step ↔ ∃ k, y = k * step ∧ y < stop.
Proof.
  intros Hstep. unfold py_range. rewrite list_elem_of_fmap.
  split.
  - intros (k & -> & Hk). exists k. split; [done|].
    apply elem_of_seq in Hk as [_ Hk]. simpl in Hk.
    assert (k * step ≤ ((stop + step - 1) / step - 1) * step) by nia.
    pose proof (Nat.Div0.mul_div_le (stop + step - 1) step). nia.
  - intros (k & -> & Hk). exists k. split; [done|].
    apply elem_of_seq. split; [lia|]. simpl.
    apply Nat.div_le_lower_bound; [lia|]. nia.
Qed.

Lemma length_py_range stop step :
  length (py_range stop step) = (stop + step - 1) / step.
Proof. unfold py_range. by rewrite length_map, length_seq. Qed.

Lemma sweep_count n step :
  0 < step → step ≤ n → (n - step + 1 + step - 1) / step = n / step.
Proof. intros. f_equal. lia. Qed.

Lemma NoDup_py_range stop step : 0 < step → NoDup (py_range stop step).
Proof.
  intros Hstep. unfold py_range. apply NoDup_fmap_2; [|apply NoDup_seq].
  intros a b Hab. nia.
Qed.

(** *** The loops *)

Lemma fold_append_tile {X} image n (f : X → nat * nat) (l : list X) acc :
  fold_left (λ acc x, append_tile image n acc (f x)) l acc
  = (acc.1 ++ map (λ x, crop image (f x).1 (f x).2 n) l, acc.2 ++ map f l).
Proof.
  revert acc. induction l as [|x l IH]; intros [ps qs]; simpl.
  - by rewrite !app_nil_r.
  - rewrite IH. simpl. by rewrite <- !app_assoc.
Qed.

Lemma fold_primary image n ys xs acc :
  fold_left (λ acc y,
    fold_left (λ acc x, append_tile image n acc (y, x)) xs acc) ys acc
  = (acc.1 ++ map (λ pos, crop image pos.1 pos.2 n) (grid ys xs),
     acc.2 ++ grid ys xs).
Proof.
  revert acc. induction ys as [|y ys IH]; intros [ps qs]; simpl.
  - by rewrite !app_nil_r.
  - rewrite IH, fold_append_tile. simpl.
    unfold grid. simpl. rewrite map_app, map_map. simpl.
    by rewrite <- !app_assoc.
Qed.

Lemma tiles_ok_append_if_new image n acc pos :
  tiles_ok image n acc → tiles_ok image n (append_if_new image n acc pos).
Proof.
  unfold tiles_ok, append_if_new. intros Hok.
  case_decide; [done|]. simpl. by rewrite map_app, Hok.
Qed.

Lemma elem_of_append_if_new image n acc pos q :
  q ∈ (append_if_new image n acc pos).2 ↔ q ∈ acc.2 ∨ q = pos.
Proof.
  unfold append_if_new. case_decide; simpl.
  - split; [by left|]. intros [?| ->]; done.
  - rewrite elem_of_app, list_elem_of_singleton. done.
Qed.

Lemma NoDup_append_if_new image n acc pos :
  NoDup acc.2 → NoDup (append_if_new image n acc pos).2.
Proof.
  unfold append_if_new. intros Hnd. case_decide; simpl; [done|].
  apply NoDup_app. split_and!; [done| |apply NoDup_singleton].
  intros q Hq ->%list_elem_of_singleton. done.
Qed.

Lemma prefix_append_if_new image n acc pos :
  acc.2 `prefix_of` (append_if_new image n acc pos).2.
Proof.
  unfold append_if_new. case_decide; simpl; [done|]. by apply prefix_app_r.
Qed.

Section EdgeLoop.
Context {X : Type} (image : list (list A)) (n : nat) (f : X → nat * nat).

Local Abbreviation step := (edge_step image n f).

Lemma tiles_ok_edge_loop l acc :
  tiles_ok image n acc → tiles_ok image n (fold_left step l acc).
Proof.
  revert acc. induction l as [|x l IH]; intros acc Hok; simpl; [done|].
  apply IH. by apply tiles_ok_append_if_new.
Qed.


Lemma elem_of_edge_loop l acc q :
  q ∈ (fold_left step l acc).2 ↔ q ∈ acc.2 ∨ ∃ x, x ∈ l ∧ q = f x.
Proof.
  revert acc. induction l as [|x l IH]; intros acc; simpl.
  - split; [by left|]. intros [?|(x & Hx & _)]; [done|]. by inversion Hx.
  - rewrite IH. unfold edge_step. rewrite elem_of_append_if_new. split.
    + intros [[?| ->]|(x' & Hx' & ->)].
      * by left.
      * right. exists x. split; [left|done].
      * right. exists x'. split; [by right|done].
    + intros [?|(x' & Hx' & ->)]; [by left; left|].
      apply elem_of_cons in Hx' as [->|Hx'].
      * left. by right.
      * right. by exists x'.
Qed.

Lemma NoDup_edge_loop l acc : NoDup acc.2 → NoDup (fold_left step l acc).2.
Proof.
  revert acc. induction l as [|x l IH]; intros acc Hnd; simpl; [done|].
  apply IH. by apply NoDup_append_if_new.
Qed.

Lemma prefix_edge_loop l acc : acc.2 `prefix_of` (fold_left step l acc).2.
Proof.
  revert acc. induction l as [|x l IH]; intros acc; simpl; [done|].
  etrans; [apply (prefix_append_if_new image n acc (f x))|apply IH].
Qed.
End EdgeLoop.

Lemma elem_of_grid ys xs pos : pos ∈ grid ys xs ↔ pos.1 ∈ ys ∧ pos.2 ∈ xs.
Proof.
  unfold grid. rewrite list_elem_of_bind. destruct pos as [y x]. simpl. split.
  - intros (y' & Hx & Hy). apply list_elem_of_fmap in Hx as (x' & [= -> ->] & Hx).
    done.
  - intros [Hy Hx]. exists y. split; [|done].
    apply list_elem_of_fmap. by exists x.
Qed.

Lemma length_grid ys xs : length (grid ys xs) = length ys * length xs.
Proof.
  unfold grid. induction ys as [|y ys IH]; simpl; [done|].
  rewrite length_app, length_map. unfold mbind in IH. by rewrite IH.
Qed.

Lemma NoDup_grid ys xs : NoDup ys → NoDup xs → NoDup (grid ys xs).
Proof.
  intros Hys Hxs. unfold grid. induction Hys as [|y ys Hy Hys IH]; simpl.
  - constructor.
  - apply NoDup_app. split_and!.
    + apply NoDup_fmap_2; [|done]. by intros ?? [= ->].
    + intros pos (x & -> & Hx)%list_elem_of_fmap Hin.
      apply (elem_of_grid ys xs (y, x)) in Hin as [? _]. done.
    + apply IH.
Qed.

(** *** The positions that [sweep_tiles] emits *)

Lemma sweep_tiles_ok image n : tiles_ok image n (sweep_tiles image n).
Proof.
  unfold sweep_tiles. rewrite fold_primary. simpl.
  set (acc0 := (_, grid _ _)).
  assert (tiles_ok image n acc0) as H0 by done.
  repeat case_match; simpl;
    repeat first [apply tiles_ok_append_if_new | apply tiles_ok_edge_loop]; done.
Qed.

Lemma NoDup_sweep_tiles image n : 0 < n → NoDup (sweep_tiles image n).2.
Proof.
  intros Hn. unfold sweep_tiles. rewrite fold_primary. simpl.
  set (acc0 := (_, grid _ _)).
  assert (NoDup acc0.2) as H0.
  { simpl. apply NoDup_grid; by apply NoDup_py_range. }
  repeat case_match; simpl;
    repeat first [apply NoDup_append_if_new | apply NoDup_edge_loop]; done.
Qed.

Lemma elem_of_sweep_tiles image n pos :
  let h := height image in
  let w := width image in
  let ys := py_range (h - n + 1) n in
  let xs := py_range (w - n + 1) n in
  pos ∈ (sweep_tiles image n).2 ↔
    (pos.1 ∈ ys ∧ pos.2 ∈ xs)
    ∨ (h mod n ≠ 0 ∧ pos.1 = h - n ∧ pos.2 ∈ xs)
    ∨ (w mod n ≠ 0 ∧ pos.1 ∈ ys ∧ pos.2 = w - n)
    ∨ (h mod n ≠ 0 ∧ w mod n ≠ 0 ∧ pos = (h - n, w - n)).
Proof.
  intros h w ys xs. unfold sweep_tiles. rewrite fold_primary. simpl.
  fold h w ys xs. destruct pos as [y x]. simpl.
  destruct (Nat.eqb_spec (h mod n) 0) as [Hh|Hh];
    destruct (Nat.eqb_spec (w mod n) 0) as [Hw|Hw]; simpl;
    rewrite ?elem_of_append_if_new, ?elem_of_edge_loop; simpl;
    rewrite ?elem_of_edge_loop; simpl; rewrite ?elem_of_grid; simpl.
  - tauto.
  - split.
    + intros [?|(y' & ? & [= -> ->])]; [by left|]. right; right; left. done.
    + intros [?|[?|[(_ & ? & ->)|?]]]; [by left|tauto| |tauto].
      right. by exists y.
  - split.
    + intros [?|(x' & ? & [= -> ->])]; [by left|]. right; left. done.
    + intros [?|[(_ & -> & ?)|[?|?]]]; [by left| |tauto..].
      right. by exists x.
  - split.
    + intros [[[?|(x' & ? & [= -> ->])]|(y' & ? & [= -> ->])]|[= -> ->]].
      * by left.
      * right; left. done.
      * right; right; left. done.
      * right; right; right. done.
    + intros [?|[(_ & -> & ?)|[(_ & ? & ->)|(_ & _ & [= -> ->])]]].
      * by left; left; left.
      * left; left; right. by exists x.
      * left; right. by exists y.
      * by right.
Qed.

Lemma sweep_tiles_multiple image n :
  height image mod n = 0 → width image mod n = 0 →
  (sweep_tiles image n).2
  = grid (py_range (height image - n + 1) n) (py_range (width image - n + 1) n).
Proof.
  intros Hh Hw. unfold sweep_tiles. rewrite fold_primary. simpl.
  by rewrite Hh, Hw.
Qed.

(** *** Reflect padding *)

Lemma reflect_index_lt n i : 0 < n → reflect_index n i < n.
Proof.
  intros Hn. unfold reflect_index. destruct (Nat.leb_spec n 1); [lia|].
  pose proof (Nat.mod_upper_bound i (2 * n - 2)).
  destruct (Nat.ltb_spec (i mod (2 * n - 2)) n); lia.
Qed.

Lemma reflect_index_id n i : i < n → reflect_index n i = i.
Proof.
  intros Hi. unfold reflect_index. destruct (Nat.leb_spec n 1); [lia|].
  rewrite Nat.mod_small by lia. destruct (Nat.ltb_spec i n); lia.
Qed.

Lemma length_pad_axis {B} (l : list B) pad :
  l ≠ [] → length (pad_axis l pad) = length l + pad.
Proof.
  destruct l as [|d l]; [done|]. intros _. unfold pad_axis.
  by rewrite length_app, length_map, length_seq.
Qed.

Lemma lookup_pad_axis {B} (l : list B) pad i :
  i < length l + pad →
  pad_axis l pad !! i = l !! reflect_index (length l) i.
Proof.
  destruct l as [|d l]; [done|]. intros Hi. unfold pad_axis.
  set (l' := d :: l) in *.
  destruct (decide (i < length l')) as [Hlt|Hge].
  - rewrite lookup_app_l by done. by rewrite reflect_index_id.
  - rewrite lookup_app_r by lia. rewrite list_lookup_fmap.
    rewrite lookup_seq_lt by lia. cbv [fmap option_fmap option_map].
    replace (length l' + (i - length l')) with i by lia.
    rewrite nth_lookup.
    destruct (lookup_lt_is_Some_2 l' (reflect_index (length l') i)) as [v Hv].
    { apply reflect_index_lt. simpl. lia. }
    by rewrite Hv.
Qed.

Lemma np_pad_reflect_Some image pad_h pad_w :
  0 < height image → 0 < width image →
  np_pad_reflect image pad_h pad_w
  = Some (pad_axis (map (λ row, pad_axis row pad_w) image) pad_h).
Proof.
  intros Hh Hw. unfold np_pad_reflect.
  destruct (Nat.eqb_spec (height image) 0); [lia|].
  destruct (Nat.eqb_spec (width image) 0); [lia|]. done.
Qed.

Lemma np_pad_reflect_shape image pad_h pad_w image' :
  0 < height image → 0 < width image →
  np_pad_reflect image pad_h pad_w = Some image' →
  height image' = height image + pad_h ∧ width image' = width image + pad_w.
Proof.
  intros Hh Hw. rewrite np_pad_reflect_Some by done. intros [= <-].
  destruct image as [|row image]; [simpl in Hh; lia|].
  split.
  - unfold height. rewrite length_pad_axis by done. by rewrite length_map.
  - simpl. rewrite length_pad_axis; [done|].
    intros ->. simpl in Hw. lia.
Qed.

Lemma np_pad_reflect_rect image pad_h pad_w image' :
  0 < height image → 0 < width image → rect (width image) image →
  np_pad_reflect image pad_h pad_w = Some image' →
  rect (width image + pad_w) image'.
Proof.
  intros Hh Hw Hrect. rewrite np_pad_reflect_Some by done. intros [= <-].
  assert (rect (width image + pad_w) (map (λ row, pad_axis row pad_w) image))
    as Hrows.
  { unfold rect in *. apply Forall_fmap. eapply Forall_impl; [exact Hrect|].
    simpl. intros row Hrow. rewrite length_pad_axis, Hrow; [done|].
    intros ->. simpl in Hrow. lia. }
  unfold rect. apply Forall_lookup. intros i row Hi.
  assert (i < length (map (λ row, pad_axis row pad_w) image) + pad_h) as Hlt.
  { apply lookup_lt_Some in Hi. rewrite length_pad_axis in Hi; [done|].
    destruct image; [simpl in Hh; lia|done]. }
  rewrite lookup_pad_axis in Hi by done.
  unfold rect in Hrows. rewrite Forall_lookup in Hrows. by eapply Hrows.
Qed.

Lemma np_pad_reflect_px image pad_h pad_w image' i j :
  0 < height image → 0 < width image → rect (width image) image →
  np_pad_reflect image pad_h pad_w = Some image' →
  i < height image + pad_h → j < width image + pad_w →
  px image' i j
  = px image (reflect_index (height image) i) (reflect_index (width image) j).
Proof.
  intros Hh Hw Hrect. rewrite np_pad_reflect_Some by done. intros [= <-] Hi Hj.
  unfold px. rewrite lookup_pad_axis by (by rewrite length_map).
  rewrite length_map, list_lookup_fmap. fold (height image).
  destruct (image !! reflect_index (height image) i) as [row|] eqn:Hrow;
    simpl; [|done].
  unfold rect in Hrect. rewrite Forall_lookup in Hrect.
  pose proof (Hrect _ _ Hrow) as Hlen.
  rewrite lookup_pad_axis by lia. by rewrite Hlen.
Qed.

(** *** The padding block *)

Lemma pad_small_shape image n image' :
  0 < height image → 0 < width image →
  pad_small image n = Some image' →
  height image' = Nat.max (height image) n
  ∧ width image' = Nat.max (width image) n.
Proof.
  intros Hh Hw. unfold pad_small.
  destruct (Nat.ltb_spec (height image) n);
    destruct (Nat.ltb_spec (width image) n); simpl;
    try (intros [Hh' Hw']%np_pad_reflect_shape; [lia|done..]).
  intros [= <-]. lia.
Qed.

Lemma pad_small_Some image n :
  0 < height image → 0 < width image → is_Some (pad_small image n).
Proof.
  intros Hh Hw. unfold pad_small. case_match; [|done].
  by rewrite np_pad_reflect_Some.
Qed.

Lemma pad_small_px image n image' i j :
  0 < height image → 0 < width image → rect (width image) image →
  pad_small image n = Some image' →
  i < height image' → j < width image' →
  px image' i j
  = px image (reflect_index (height image) i) (reflect_index (width image) j).
Proof.
  intros Hh Hw Hrect Hpad Hi Hj.
  destruct (pad_small_shape _ _ _ Hh Hw Hpad) as [Hh' Hw'].
  revert Hpad. unfold pad_small. case_match eqn:Hc.
  - intros Hpad. eapply np_pad_reflect_px; [done..|lia|lia].
  - intros [= <-]. by rewrite !reflect_index_id.
Qed.

(** *** Coverage along one axis *)

Lemma axis_cover n h i :
  0 < n → n ≤ h → i < h →
  (∃ y, y ∈ py_range (h - n + 1) n ∧ y ≤ i < y + n)
  ∨ (h mod n ≠ 0 ∧ h - n ≤ i < h - n + n).
Proof.
  intros Hn Hh Hi.
  pose proof (Nat.div_mod_eq i n) as Hdiv.
  pose proof (Nat.mod_upper_bound i n ltac:(lia)) as Hmod.
  destruct (decide (i / n * n + n ≤ h)) as [Hfit|Hout].
  - left. exists (i / n * n). split; [|lia].
    apply elem_of_py_range; [done|]. exists (i / n). lia.
  - right. split; [|lia]. intros Hzero.
    pose proof (Nat.div_mod_eq h n) as Hdivh. rewrite Hzero in Hdivh.
    assert (i / n < h / n) by (apply Nat.Div0.div_lt_upper_bound; lia).
    nia.
Qed.

Lemma sweep_tiles_covers image n i j :
  0 < n → n ≤ height image → n ≤ width image →
  i < height image → j < width image →
  ∃ pos, pos ∈ (sweep_tiles image n).2 ∧ covers n pos i j.
Proof.
  intros Hn Hh Hw Hi Hj.
  destruct (axis_cover n _ i Hn Hh Hi) as [(y & Hy & Hyi)|[Hhm Hyi]];
    destruct (axis_cover n _ j Hn Hw Hj) as [(x & Hx & Hxj)|[Hwm Hxj]].
  - exists (y, x). split; [|done]. apply elem_of_sweep_tiles. by left.
  - exists (y, width image - n). split; [|done].
    apply elem_of_sweep_tiles. right; right; left. done.
  - exists (height image - n, x). split; [|done].
    apply elem_of_sweep_tiles. right; left. done.
  - exists (height image - n, width image - n). split; [|done].
    apply elem_of_sweep_tiles. right; right; right. done.
Qed.

Lemma sweep_tiles_in_bounds image n pos :
  0 < n → n ≤ height image → n ≤ width image →
  pos ∈ (sweep_tiles image n).2 →
  pos.1 + n ≤ height image ∧ pos.2 + n ≤ width image.
Proof.
  intros Hn Hh Hw Hpos. apply elem_of_sweep_tiles in Hpos.
  assert (∀ m y, n ≤ m → y ∈ py_range (m - n + 1) n → y + n ≤ m) as Hr.
  { intros m y Hm (k & -> & Hk)%elem_of_py_range; [lia|done]. }
  destruct Hpos as [[??]|[(_ & -> & ?)|[(_ & ? & ->)|(_ & _ & ->)]]];
    simpl; split; try lia; by apply Hr.
Qed.

Lemma tiles_ok_lookup image n acc k pos :
  tiles_ok image n acc → acc.2 !! k = Some pos →
  acc.1 !! k = Some (crop image pos.1 pos.2 n).
Proof.
  unfold tiles_ok. intros -> Hk. by rewrite list_lookup_fmap, Hk.
Qed.

(** *** [extract_patches] returns *)

Lemma extract_patches_returns image n :
  0 < n → 0 < height image → 0 < width image →
  ∃ image',
    pad_small image n = Some image'
    ∧ height image' = Nat.max (height image) n
    ∧ width image' = Nat.max (width image) n
    ∧ extract_patches image n
      = Some (sweep_tiles image' n, (height image', width image')).
Proof.
  intros Hn Hh Hw. destruct (pad_small_Some image n Hh Hw) as [image' Hpad].
  destruct (pad_small_shape _ _ _ Hh Hw Hpad) as [Hh' Hw'].
  exists image'. split_and!; [done..|].
  unfold extract_patches. rewrite Hpad. simpl.
  destruct (Nat.eqb_spec n 0); [lia|done].
Qed.
End Tiler.

(** * The tiler: claims *)

(** C2 (coverage completeness).  For a non-empty image and a positive tile
    size, [extract_patches] returns, and when the padded height or width is
    not an exact multiple of the tile size, every pixel [(i, j)] of the padded
    image lies inside the region of an emitted tile: some index [k] holds an
    origin whose [patch_size]-square contains the pixel and stays within the
    padded image, and [patches[k]] is the crop of the padded image there. *)
Theorem tiler_coverage_complete {A} (image : list (list A)) (patch_size : nat) :
  0 < patch_size → 0 < height image → 0 < width image →
  let h := Nat.max (height image) patch_size in
  let w := Nat.max (width image) patch_size in
  h mod patch_size ≠ 0 ∨ w mod patch_size ≠ 0 →
  ∃ padded patches positions,
    pad_small image patch_size = Some padded
    ∧ extract_patches image patch_size = Some ((patches, positions), (h, w))
    ∧ ∀ i j, i < h → j < w →
        ∃ k pos,
          positions !! k = Some pos
          ∧ patches !! k = Some (crop padded pos.1 pos.2 patch_size)
          ∧ covers patch_size pos i j
          ∧ pos.1 + patch_size ≤ h ∧ pos.2 + patch_size ≤ w.
Proof.
  intros Hn Hh Hw h w _.
  destruct (extract_patches_returns image patch_size Hn Hh Hw)
    as (padded & Hpad & Hh' & Hw' & Hex).
  exists padded, (sweep_tiles padded patch_size).1,
    (sweep_tiles padded patch_size).2.
  split_and!; [done|by rewrite Hex, Hh', Hw'; destruct (sweep_tiles _ _)|].
  intros i j Hi Hj. subst h w.
  destruct (sweep_tiles_covers padded patch_size i j) as (pos & Hpos & Hcov);
    [lia..|].
  apply list_elem_of_lookup in Hpos as [k Hk]. exists k, pos.
  split_and!; [done| |done|..].
  - eapply tiles_ok_lookup; [apply sweep_tiles_ok|done].
  - rewrite <- Hh'. eapply sweep_tiles_in_bounds; [| | |by eapply list_elem_of_lookup_2]; lia.
  - rewrite <- Hw'. eapply sweep_tiles_in_bounds; [| | |by eapply list_elem_of_lookup_2]; lia.
Qed.

Lemma tiler_coverage_complete_witness :
  ∃ padded patches positions,
    pad_small [[1; 2; 3]; [4; 5; 6]; [7; 8; 9]] 2 = Some padded
    ∧ extract_patches [[1; 2; 3]; [4; 5; 6]; [7; 8; 9]] 2
      = Some ((patches, positions), (3, 3))
    ∧ ∀ i j, i < 3 → j < 3 →
        ∃ k pos,
          positions !! k = Some pos
          ∧ patches !! k = Some (crop padded pos.1 pos.2 2)
          ∧ covers 2 pos i j
          ∧ pos.1 + 2 ≤ 3 ∧ pos.2 + 2 ≤ 3.
Proof.
  apply (tiler_coverage_complete [[1; 2; 3]; [4; 5; 6]; [7; 8; 9]] 2);
    [lia | simpl; lia | simpl; lia | left; simpl; lia].
Defined.

(** C3 (exact grid).  For an image whose height [h] and width [w] are both at
    least the tile size and exact multiples of it, [extract_patches] returns
    exactly [(h / patch_size) * (w / patch_size)] tiles, their origins are
    pairwise distinct, and no pixel lies in the regions of two different
    tiles. *)
Theorem tiler_exact_grid {A} (image : list (list A)) (patch_size : nat) :
  let h := height image in
  let w := width image in
  0 < patch_size → patch_size ≤ h → patch_size ≤ w →
  h mod patch_size = 0 → w mod patch_size = 0 →
  ∃ patches positions,
    extract_patches image patch_size = Some ((patches, positions), (h, w))
    ∧ length patches = (h / patch_size) * (w / patch_size)
    ∧ length positions = (h / patch_size) * (w / patch_size)
    ∧ NoDup positions
    ∧ ∀ k1 k2 p1 p2 i j,
        k1 ≠ k2 → positions !! k1 = Some p1 → positions !! k2 = Some p2 →
        ¬ (covers patch_size p1 i j ∧ covers patch_size p2 i j).
Proof.
  intros h w Hn Hh Hw Hhm Hwm.
  destruct (extract_patches_returns image patch_size Hn) as
    (padded & Hpad & _ & _ & Hex); [lia..|].
  assert (padded = image) as ->.
  { revert Hpad. unfold pad_small. fold h w.
    destruct (Nat.ltb_spec h patch_size); [lia|].
    destruct (Nat.ltb_spec w patch_size); [lia|]. by intros [= <-]. }
  exists (sweep_tiles image patch_size).1, (sweep_tiles image patch_size).2.
  pose proof (sweep_tiles_ok image patch_size) as Hok.
  pose proof (sweep_tiles_multiple image patch_size Hhm Hwm) as Hpos.
  fold h w in Hpos.
  assert (length (sweep_tiles image patch_size).2
          = h / patch_size * (w / patch_size)) as Hlen.
  { rewrite Hpos, length_grid, !length_py_range, !sweep_count by lia. done. }
  split_and!.
  - rewrite Hex. by destruct (sweep_tiles _ _).
  - rewrite Hok, length_map. done.
  - done.
  - by apply NoDup_sweep_tiles.
  - intros k1 k2 p1 p2 i j Hne H1 H2 [[Hy1 Hx1] [Hy2 Hx2]].
    apply Hne. eapply NoDup_lookup; [by apply (NoDup_sweep_tiles image)|done|].
    rewrite H2. f_equal.
    apply list_elem_of_lookup_2 in H1, H2. rewrite Hpos in H1, H2.
    apply elem_of_grid in H1 as [(a & Ha & _)%elem_of_py_range
                                 (b & Hb & _)%elem_of_py_range]; [|done..].
    apply elem_of_grid in H2 as [(c & Hc & _)%elem_of_py_range
                                 (d & Hd & _)%elem_of_py_range]; [|done..].
    destruct p1 as [y1 x1], p2 as [y2 x2]. simpl in *. subst.
    assert (a = c) as -> by nia. assert (b = d) as -> by nia. done.
Qed.

Lemma tiler_exact_grid_witness :
  ∃ patches positions,
    extract_patches [[1; 2; 3; 4]; [5; 6; 7; 8]] 2
    = Some ((patches, positions), (2, 4))
    ∧ length patches = (2 / 2) * (4 / 2)
    ∧ length positions = (2 / 2) * (4 / 2)
    ∧ NoDup positions
    ∧ ∀ k1 k2 p1 p2 i j,
        k1 ≠ k2 → positions !! k1 = Some p1 → positions !! k2 = Some p2 →
        ¬ (covers 2 p1 i j ∧ covers 2 p2 i j).
Proof.
  apply (tiler_exact_grid [[1; 2; 3; 4]; [5; 6; 7; 8]] 2);
    simpl; first [lia | reflexivity].
Defined.

Lemma px_is_Some {A} (a : list (list A)) w i j :
  rect w a → i < height a → j < w → is_Some (px a i j).
Proof.
  intros Hrect Hi Hj. unfold px.
  destruct (lookup_lt_is_Some_2 a i Hi) as [row Hrow]. rewrite Hrow. simpl.
  unfold rect in Hrect. rewrite Forall_lookup in Hrect.
  apply lookup_lt_is_Some_2. by rewrite (Hrect _ _ Hrow).
Qed.

Lemma reflect_index_mirror n i :
  n ≤ i → i < 2 * n - 1 → reflect_index n i = 2 * (n - 1) - i.
Proof.
  intros Hlo Hhi. unfold reflect_index.
  destruct (Nat.leb_spec n 1); [lia|].
  destruct (decide (i = 2 * n - 2)) as [->|Hne].
  - rewrite Nat.Div0.mod_same. destruct (Nat.ltb_spec 0 n); lia.
  - rewrite Nat.mod_small by lia. destruct (Nat.ltb_spec i n); lia.
Qed.

(** C8 (reflect padding of small images).  When a non-empty rectangular image
    is smaller than the tile size on some axis, the padding block extends each
    deficient axis to exactly the tile size (and leaves the other one as it
    is), so both reach at least the tile size; the original pixels stay in
    place; every pixel of the padded image is a copy of the original pixel at
    the mirrored index (so it is never a zero fill), the mirror being taken
    around the last row or column; and the tiles that [extract_patches]
    returns are cut from that padded image. *)
Theorem tiler_reflect_padding {A} (image : list (list A)) (patch_size : nat) :
  let h := height image in
  let w := width image in
  0 < h → 0 < w → rect w image →
  h < patch_size ∨ w < patch_size →
  ∃ padded acc,
    pad_small image patch_size = Some padded
    ∧ extract_patches image patch_size
      = Some (acc, (height padded, width padded))
    ∧ height padded = Nat.max h patch_size
    ∧ width padded = Nat.max w patch_size
    ∧ patch_size ≤ height padded ∧ patch_size ≤ width padded
    ∧ (∀ i j, i < h → j < w → px padded i j = px image i j)
    ∧ (∀ i j, i < height padded → j < width padded →
         ∃ v, px padded i j = Some v
              ∧ px image (reflect_index h i) (reflect_index w j) = Some v
              ∧ reflect_index h i < h ∧ reflect_index w j < w)
    ∧ (∀ i, h ≤ i → i < 2 * h - 1 → reflect_index h i = 2 * (h - 1) - i)
    ∧ (∀ j, w ≤ j → j < 2 * w - 1 → reflect_index w j = 2 * (w - 1) - j)
    ∧ tiles_ok padded patch_size acc.
Proof.
  intros h w Hh Hw Hrect Hsmall.
  assert (0 < patch_size) as Hn by lia.
  destruct (extract_patches_returns image patch_size Hn Hh Hw)
    as (padded & Hpad & Hh' & Hw' & Hex).
  fold h in Hh'. fold w in Hw'.
  assert (∀ i j, i < height padded → j < width padded →
            px padded i j = px image (reflect_index h i) (reflect_index w j))
    as Hpx by (intros; by eapply pad_small_px).
  exists padded, (sweep_tiles padded patch_size).
  split_and!; [done|done|done|done|lia|lia| | | | |].
  - intros i j Hi Hj. rewrite Hpx by lia. by rewrite !reflect_index_id.
  - intros i j Hi Hj. rewrite Hpx by done.
    pose proof (reflect_index_lt h i Hh). pose proof (reflect_index_lt w j Hw).
    destruct (px_is_Some image w (reflect_index h i) (reflect_index w j))
      as [v Hv]; [done..|].
    exists v. done.
  - apply reflect_index_mirror.
  - apply reflect_index_mirror.
  - apply sweep_tiles_ok.
Qed.

Lemma tiler_reflect_padding_witness :
  ∃ padded acc,
    pad_small [[1; 2; 3]; [4; 5; 6]] 4 = Some padded
    ∧ extract_patches [[1; 2; 3]; [4; 5; 6]] 4
      = Some (acc, (height padded, width padded))
    ∧ height padded = Nat.max 2 4
    ∧ width padded = Nat.max 3 4
    ∧ 4 ≤ height padded ∧ 4 ≤ width padded
    ∧ (∀ i j, i < 2 → j < 3 → px padded i j = px [[1; 2; 3]; [4; 5; 6]] i j)
    ∧ (∀ i j, i < height padded → j < width padded →
         ∃ v, px padded i j = Some v
              ∧ px [[1; 2; 3]; [4; 5; 6]] (reflect_index 2 i) (reflect_index 3 j)
                = Some v
              ∧ reflect_index 2 i < 2 ∧ reflect_index 3 j < 3)
    ∧ (∀ i, 2 ≤ i → i < 2 * 2 - 1 → reflect_index 2 i = 2 * (2 - 1) - i)
    ∧ (∀ j, 3 ≤ j → j < 2 * 3 - 1 → reflect_index 3 j = 2 * (3 - 1) - j)
    ∧ tiles_ok padded 4 acc.
Proof.
  apply (tiler_reflect_padding [[1; 2; 3]; [4; 5; 6]] 4);
    [simpl; lia | simpl; lia | repeat constructor | left; simpl; lia].
Defined.

Example pad_small_2x3 :
  pad_small [[1; 2; 3]; [4; 5; 6]] 4
  = Some [[1; 2; 3; 2]; [4; 5; 6; 5]; [1; 2; 3; 2]; [4; 5; 6; 5]].
Proof. reflexivity. Qed.

(** * The reconstructor *)

Section Reconstructor.
Implicit Types (a out cnt pred : list (list Z)) (f : nat → nat → Z).
Implicit Types (items : list (list (list Z) * (nat * nat))).

Lemma px_slice_add a y x n f i j :
  px (slice_add a y x n f) i j
  = (λ v, if bool_decide (y ≤ i < y + n ∧ x ≤ j < x + n)
          then (v + f (i - y)%nat (j - x)%nat)%Z else v) <$> px a i j.
Proof.
  unfold px, slice_add. rewrite list_lookup_imap.
  destruct (a !! i) as [row|]; simpl; [|done].
  by rewrite list_lookup_imap.
Qed.

Lemma px_replicate h w (v : Z) i j :
  i < h → j < w → px (replicate h (replicate w v)) i j = Some v.
Proof.
  intros Hi Hj. unfold px. rewrite lookup_replicate_2 by done. simpl.
  by rewrite lookup_replicate_2.
Qed.

Lemma px_zip_with (g : Z → Z → Z) out cnt i j s c :
  px out i j = Some s → px cnt i j = Some c →
  px (zip_with (zip_with g) out cnt) i j = Some (g s c).
Proof.
  unfold px. intros Hs Hc. rewrite lookup_zip_with.
  destruct (out !! i) as [r1|]; [|done].
  destruct (cnt !! i) as [r2|]; [|done]. simpl in *.
  rewrite lookup_zip_with, Hs. simpl. by rewrite Hc.
Qed.

Lemma fold_accumulate_None h w n items :
  fold_left (accumulate h w n) items None = None.
Proof. induction items as [|item items IH]; [done|]. simpl. exact IH. Qed.

Lemma fold_accumulate h w n items out cnt :
  Forall (fits h w n) items →
  ∃ out' cnt',
    fold_left (accumulate h w n) items (Some (out, cnt)) = Some (out', cnt')
    ∧ ∀ i j,
        px out' i j = (λ v, v + sum_at items n i j)%Z <$> px out i j
        ∧ px cnt' i j = (λ v, v + count_at items n i j)%Z <$> px cnt i j.
Proof.
  intros Hfits. revert out cnt.
  induction Hfits as [|[pred [y x]] items Hfit _ IH]; intros out cnt.
  - exists out, cnt. split; [done|]. intros i j. simpl.
    split; (destruct (px _ i j); simpl; [f_equal; lia|done]).
  - simpl. unfold fits in Hfit. simpl in Hfit. rewrite Hfit.
    destruct (IH (slice_add out y x n (pred_at pred))
                 (slice_add cnt y x n (λ _ _, 1%Z)))
      as (out' & cnt' & Hfold & Hpx).
    exists out', cnt'. split; [done|]. intros i j.
    destruct (Hpx i j) as [-> ->]. rewrite !px_slice_add.
    unfold covers. simpl.
    split; (destruct (px _ i j); simpl; [f_equal|done]);
      case_bool_decide; lia.
Qed.

Lemma fold_accumulate_misfit h w n items acc :
  ¬ Forall (fits h w n) items →
  fold_left (accumulate h w n) items acc = None.
Proof.
  revert acc. induction items as [|[pred [y x]] items IH]; intros acc Hnot.
  - destruct Hnot. constructor.
  - simpl. destruct acc as [[out cnt]|]; simpl; [|apply fold_accumulate_None].
    destruct (broadcastable pred _ _) eqn:Hb; [|apply fold_accumulate_None].
    apply IH. intros Hall. apply Hnot. by constructor.
Qed.

(** The mask that the fold and the final division produce, pixel by pixel. *)
Lemma reconstruct_px predictions positions h w n :
  Forall (fits h w n) (zip predictions positions) →
  ∃ mask,
    reconstruct_from_patches predictions positions (h, w) n = Some mask
    ∧ ∀ i j, i < h → j < w →
        px mask i j
        = Some (astype_uint8
                  (Z.quot (sum_at (zip predictions positions) n i j)
                     (Z.max (count_at (zip predictions positions) n i j) 1))).
Proof.
  intros Hfits. unfold reconstruct_from_patches.
  destruct (fold_accumulate h w n _ (replicate h (replicate w 0%Z))
              (replicate h (replicate w 0%Z)) Hfits)
    as (out & cnt & -> & Hpx).
  simpl. eexists. split; [done|]. intros i j Hi Hj.
  destruct (Hpx i j) as [Hout Hcnt].
  rewrite px_replicate in Hout, Hcnt by done. simpl in Hout, Hcnt.
  rewrite Z.add_0_l in Hout, Hcnt.
  exact (px_zip_with (λ s c, astype_uint8 (Z.quot s (Z.max c 1)))
           out cnt i j _ _ Hout Hcnt).
Qed.

Lemma count_at_nonneg items n i j : (0 ≤ count_at items n i j)%Z.
Proof.
  induction items as [|item items IH]; simpl; [done|].
  case_bool_decide; lia.
Qed.

Lemma count_at_covered items n i j item :
  item ∈ items → covers n item.2 i j → (1 ≤ count_at items n i j)%Z.
Proof.
  intros Hin Hcov. induction items as [|item' items IH]; [by inversion Hin|].
  simpl. pose proof (count_at_nonneg items n i j).
  apply elem_of_cons in Hin as [<-|Hin].
  - rewrite bool_decide_eq_true_2 by done. lia.
  - specialize (IH Hin). case_bool_decide; lia.
Qed.

Lemma fits_tile h w n pred y x :
  height pred = n → width pred = n → y + n ≤ h → x + n ≤ w →
  fits h w n (pred, (y, x)).
Proof.
  intros Hh Hw Hy Hx. unfold fits, broadcastable, slice_len. simpl.
  rewrite Hh, Hw.
  replace (Nat.min h (y + n) - Nat.min h y) with n by lia.
  replace (Nat.min w (x + n) - Nat.min w x) with n by lia.
  by rewrite Nat.eqb_refl.
Qed.

Lemma pred_at_bounds pred i j :
  uint8_valued pred → (0 ≤ pred_at pred i j ≤ 255)%Z.
Proof.
  intros Hpred. unfold pred_at, px.
  set (i' := if height pred =? 1 then 0 else i).
  set (j' := if width pred =? 1 then 0 else j).
  destruct (pred !! i') as [row|] eqn:Hrow; simpl; [|lia].
  destruct (row !! j') as [v|] eqn:Hv; simpl; [|lia].
  unfold uint8_valued in Hpred. rewrite Forall_lookup in Hpred.
  specialize (Hpred _ _ Hrow). rewrite Forall_lookup in Hpred.
  exact (Hpred _ _ Hv).
Qed.



Lemma pred_at_constant n c (r k : nat) :
  r < n → k < n → pred_at (constant_pred n c) r k = c.
Proof.
  intros Hr Hk. unfold pred_at, constant_pred.
  assert (width (replicate n (replicate n c)) = n) as ->.
  { destruct n; [lia|]. simpl. by rewrite length_replicate. }
  unfold height. rewrite length_replicate.
  destruct (Nat.eqb_spec n 1) as [->|_]; rewrite px_replicate; (done || lia).
Qed.

Lemma sum_at_constant items n c i j :
  Forall (λ item, item.1 = constant_pred n c) items →
  sum_at items n i j = (c * count_at items n i j)%Z.
Proof.
  induction 1 as [|[pred [y x]] items Hitem _ IH]; simpl; [lia|].
  simpl in Hitem. subst pred. rewrite IH. case_bool_decide as Hcov; [|lia].
  destruct Hcov as [? ?]. simpl in *.
  rewrite pred_at_constant by lia. lia.
Qed.
End Reconstructor.




Lemma constant_items_fit (predictions : list (list (list Z)))
    (positions : list (nat * nat)) (h w n : nat) (c : Z) :
  Forall (λ pred, pred = constant_pred n c) predictions →
  Forall (λ pos, pos.1 + n ≤ h ∧ pos.2 + n ≤ w) positions →
  Forall (λ item, item.1 = constant_pred n c) (zip predictions positions)
  ∧ Forall (fits h w n) (zip predictions positions).
Proof.
  intros Hconst Hin. rewrite Forall_forall in Hconst. rewrite Forall_forall in Hin.
  split; apply Forall_forall; intros [pred [y x]] Hitem;
    pose proof (elem_of_zip_l _ _ _ _ Hitem) as Hpred;
    pose proof (elem_of_zip_r _ _ _ _ Hitem) as Hpos.
  - by apply Hconst.
  - rewrite (Hconst _ Hpred). destruct (Hin _ Hpos) as [Hy Hx]. simpl in *.
    apply fits_tile; [| |done..].
    + unfold height, constant_pred. by rewrite length_replicate.
    + unfold constant_pred. destruct n; [done|].
      simpl. by rewrite length_replicate.
Qed.

Lemma covered_item (predictions : list (list (list Z)))
    (positions : list (nat * nat)) (pos : nat * nat) :
  length predictions = length positions → pos ∈ positions →
  ∃ pred, (pred, pos) ∈ zip predictions positions.
Proof.
  intros Hlen [k Hk]%list_elem_of_lookup.
  destruct (lookup_lt_is_Some_2 predictions k) as [pred Hpred].
  { rewrite Hlen. by eapply lookup_lt_Some. }
  exists pred. apply list_elem_of_lookup. exists k.
  rewrite lookup_zip_with, Hpred. simpl. by rewrite Hk.
Qed.

Lemma constant_average (c n : Z) :
  (0 ≤ c ≤ 255)%Z → (1 ≤ n)%Z →
  astype_uint8 (Z.quot (c * n) (Z.max n 1)) = c.
Proof.
  intros Hc Hn. rewrite Z.max_l by lia. unfold astype_uint8.
  rewrite Z.quot_div_nonneg by lia.
  rewrite Z.div_mul by lia. apply Z.mod_small. lia.
Qed.



(** The averaging identity on the tiles that [extract_patches] itself emits:
    a model that answers class [c] on every tile yields the mask that is [c]
    on the whole padded image. *)
Lemma reconstruct_constant_tiler {A} (image : list (list A)) (patch_size : nat)
    (c : Z) :
  0 < patch_size → 0 < height image → 0 < width image → (0 ≤ c ≤ 255)%Z →
  ∃ patches positions h w mask,
    extract_patches image patch_size = Some ((patches, positions), (h, w))
    ∧ reconstruct_from_patches
        (map (λ _, constant_pred patch_size c) patches) positions (h, w)
        patch_size = Some mask
    ∧ ∀ i j, i < h → j < w → px mask i j = Some c.
Proof.
  intros Hn Hh Hw Hc.
  destruct (extract_patches_returns image patch_size Hn Hh Hw)
    as (padded & Hpad & Hh' & Hw' & Hex).
  pose proof (sweep_tiles_ok padded patch_size) as Hok.
  destruct (sweep_tiles padded patch_size) as [patches positions] eqn:Hsw.
  unfold tiles_ok in Hok. simpl in Hok.
  set (predictions := map (λ _, constant_pred patch_size c) patches).
  assert (length predictions = length positions) as Hlen.
  { unfold predictions. by rewrite Hok, !length_map. }
  destruct (constant_items_fit predictions positions (height padded)
              (width padded) patch_size c) as [Hitems Hfits].
  { apply Forall_fmap. by apply Forall_true. }
  { apply Forall_forall. intros pos Hpos.
    apply (sweep_tiles_in_bounds padded patch_size); [lia..|by rewrite Hsw]. }
  destruct (reconstruct_px predictions positions (height padded) (width padded)
              patch_size Hfits) as (mask & Hrec & Hpx).
  exists patches, positions, (height padded), (width padded), mask.
  split_and!; [done|done|]. intros i j Hi Hj. rewrite Hpx by done.
  f_equal. rewrite (sum_at_constant _ _ c) by done.
  destruct (sweep_tiles_covers padded patch_size i j) as (pos & Hpos & Hcov);
    [lia..|].
  rewrite Hsw in Hpos.
  destruct (covered_item predictions positions pos Hlen Hpos) as [pred Hitem].
  apply constant_average; [done|].
  exact (count_at_covered _ patch_size i j _ Hitem Hcov).
Qed.

(** * Vegetation statistics *)

Lemma elem_of_VEGETATION_CLASSES (c : Z) :
  c ∈ VEGETATION_CLASSES ↔ (1 ≤ c < N_CLASSES)%Z.
Proof.
  unfold VEGETATION_CLASSES, N_CLASSES. rewrite !elem_of_cons, elem_of_nil. lia.
Qed.

Lemma px_binary_mask_of (mask : list (list Z)) i j :
  px (binary_mask_of mask) i j
  = (λ v, if isin v VEGETATION_CLASSES then 1%Z else 0%Z) <$> px mask i j.
Proof.
  unfold px, binary_mask_of. rewrite list_lookup_fmap.
  destruct (mask !! i) as [row|]; simpl; [|done].
  by rewrite list_lookup_fmap.
Qed.

(** C9 (binary vegetation mask).  The configured vegetation set is exactly the
    set of non-background classes [1 .. N_CLASSES - 1], so for a mask pixel
    whose class [v] lies in [0 .. 6] the binary mask holds 1 if and only if
    [v] is nonzero, and 0 if and only if [v] is zero. *)
Theorem binary_mask_nonzero (segmentation_mask : list (list Z)) (i j : nat)
    (v : Z) :
  px segmentation_mask i j = Some v → (0 ≤ v ≤ 6)%Z →
  (∀ c, c ∈ VEGETATION_CLASSES ↔ (1 ≤ c < N_CLASSES)%Z)
  ∧ (px (binary_mask_of segmentation_mask) i j = Some 1%Z ↔ v ≠ 0%Z)
  ∧ (px (binary_mask_of segmentation_mask) i j = Some 0%Z ↔ v = 0%Z).
Proof.
  intros Hv Hrange. split; [apply elem_of_VEGETATION_CLASSES|].
  rewrite px_binary_mask_of, Hv. simpl. unfold isin.
  case_bool_decide as Hin; rewrite elem_of_VEGETATION_CLASSES in Hin;
    unfold N_CLASSES in Hin; split; split; intros H; try done; try lia;
    inversion H.
Qed.

Lemma binary_mask_nonzero_witness :
  (∀ c, c ∈ VEGETATION_CLASSES ↔ (1 ≤ c < N_CLASSES)%Z)
  ∧ (px (binary_mask_of [[0; 3]; [6; 0]]%Z) 0 1 = Some 1%Z ↔ 3%Z ≠ 0%Z)
  ∧ (px (binary_mask_of [[0; 3]; [6; 0]]%Z) 0 1 = Some 0%Z ↔ 3%Z = 0%Z).
Proof.
  apply (binary_mask_nonzero [[0; 3]; [6; 0]]%Z 0 1 3); [reflexivity|lia].
Defined.

Example binary_mask_of_sample :
  binary_mask_of [[0; 3]; [6; 0]]%Z = [[0; 1]; [1; 0]]%Z.
Proof. reflexivity. Qed.









Example vegetation_percentage_third :
  round2 <$> vegetation_percentage (binary_mask_of [[0; 3; 0]; [6; 0; 0]]%Z)
  = Some (3333 # 100)%Q.
Proof. reflexivity. Qed.

(** * Paths of URL tasks *)

Lemma lower_app (a b : string) : lower (a +:+ b) = lower a +:+ lower b.
Proof.
  induction a as [|c a IH]; [done|].
  change (String c a +:+ b) with (String c (a +:+ b)). simpl.
  rewrite IH. done.
Qed.

Lemma last_char_app (a b : string) :
  b ≠ EmptyString → last_char (a +:+ b) = last_char b.
Proof.
  intros Hb. induction a as [|c a IH]; [done|].
  change (String c a +:+ b) with (String c (a +:+ b)).
  destruct (a +:+ b) as [|c' s] eqn:Hab; [|exact IH].
  destruct a; [|discriminate Hab].
  change (EmptyString +:+ b) with b in Hab. done.
Qed.

Lemma app_nonempty_r (a b : string) : b ≠ EmptyString → a +:+ b ≠ EmptyString.
Proof. intros Hb. destruct a; [done|discriminate]. Qed.

Lemma endswith_last_char (s suffix : string) :
  suffix ≠ EmptyString → endswith s suffix = true →
  last_char s = last_char suffix.
Proof.
  intros Hsuf.
  assert (endswith EmptyString suffix = false) as Hempty.
  { destruct suffix; [done|]. reflexivity. }
  induction s as [|c s IH]; [by rewrite Hempty|].
  cbn [endswith].
  intros [Heq%String.eqb_eq|Hrec]%orb_true_iff; [by rewrite <- Heq|].
  destruct s as [|c' s]; [by rewrite Hempty in Hrec|by apply IH].
Qed.

Lemma last_char_lower_url_input_path (id : string) :
  last_char (lower (url_input_path id)) = Some "t"%char.
Proof.
  unfold url_input_path, path_join. rewrite !lower_app.
  rewrite !last_char_app; [done|done|..]; repeat apply app_nonempty_r; done.
Qed.

Lemma is_geotiff_url_input_path (id : string) :
  is_geotiff (url_input_path id) = false.
Proof.
  unfold is_geotiff. pose proof (last_char_lower_url_input_path id) as Hlast.
  apply orb_false_iff. split.
  - destruct (endswith _ ".tif") eqn:Hend; [|done].
    apply endswith_last_char in Hend; [|done]. rewrite Hlast in Hend. done.
  - destruct (endswith _ ".tiff") eqn:Hend; [|done].
    apply endswith_last_char in Hend; [|done]. rewrite Hlast in Hend. done.
Qed.

Lemma segment_image_with_rasterio E r image_array patch_size batch_size :
  segment_image_with_patches (with_rasterio E r) image_array patch_size batch_size
  = segment_image_with_patches E image_array patch_size batch_size.
Proof. done. Qed.

Lemma process_image_file_with_rasterio E r file_path id threshold :
  is_geotiff file_path = false →
  process_image_file (with_rasterio E r) file_path id threshold
  = process_image_file E file_path id threshold.
Proof.
  intros Hpath. unfold process_image_file, process_image_file_body, load_image.
  rewrite Hpath. done.
Qed.

(** C10 (URL tasks never take the geospatial branch).  A URL task's download
    is saved at [uploads/{task_id}_input]; that path does not end in [.tif]
    or [.tiff], whatever the task id, so the loader decodes it through the
    PIL RGB branch, and the whole URL job runs the same whatever the
    geospatial reader would do. *)
Theorem url_task_never_geotiff (E : env) (url id : string) (threshold : Q) :
  url_input_path id = "uploads/" +:+ id +:+ "_input"
  ∧ is_geotiff (url_input_path id) = false
  ∧ load_image E (url_input_path id) = pil_open_rgb E (url_input_path id)
  ∧ ∀ r w, process_image_from_url (with_rasterio E r) url id threshold w
           = process_image_from_url E url id threshold w.
Proof.
  pose proof (is_geotiff_url_input_path id) as Hpath.
  split_and!; [done|done| |].
  - unfold load_image. by rewrite Hpath.
  - intros r w.
    unfold process_image_from_url, try_except, process_image_from_url_body,
      download_image, mbind, job_bind, mret, job_ret, raise, call, update_task.
    cbn [model_loaded requests_get write_file with_rasterio].
    destruct (model_loaded E); [|done].
    destruct (tasks w !! id); [|done].
    destruct (requests_get E url); [done|].
    destruct (write_file E _ _); [done|].
    rewrite process_image_file_with_rasterio by done. done.
Qed.

Example is_geotiff_upload :
  is_geotiff "uploads/1b4e28ba_Field.TIF" = true
  ∧ is_geotiff "uploads/1b4e28ba_field.tiff" = true
  ∧ is_geotiff "uploads/1b4e28ba_field.png" = false
  ∧ is_geotiff (url_input_path "1b4e28ba") = false.
Proof. repeat split. Qed.

(** * Background jobs *)

Section JobLogic.
Context (id : string).

Lemma chain_app t l1 l2 :
  chain t l1 → chain (default t (last l1)) l2 → chain t (l1 ++ l2).
Proof.
  intros H1. induction H1 as [t|t t' l Hstep Hchain IH]; [done|].
  intros H2. rewrite <- app_comm_cons. constructor; [done|]. apply IH.
  rewrite last_cons in H2. by destruct (last l).
Qed.

Lemma default_last_app (t : task) l1 l2 :
  default t (last (l1 ++ l2)) = default (default t (last l1)) (last l2).
Proof.
  destruct l2 as [|x l2 _] using rev_ind.
  - by rewrite app_nil_r.
  - by rewrite app_assoc, !last_snoc.
Qed.

Lemma job_ok_ret {B} (x : B) (P : task → Prop) Qe :
  job_ok id (mret x) P (λ y t, y = x ∧ P t) Qe.
Proof.
  intros w t Ht HP. exists (inr x), w, []. simpl.
  split_and!; try done; [by rewrite app_nil_r|constructor].
Qed.

Lemma job_ok_raise {B} (e : exn) (P : task → Prop) (Qn : B → task → Prop)
    (Qe : exn → task → Prop) :
  (∀ t, P t → Qe e t) → job_ok id (raise e) P Qn Qe.
Proof.
  intros HQ w t Ht HP. exists (inl e), w, []. simpl.
  split_and!; try done; [by rewrite app_nil_r|constructor|by apply HQ].
Qed.

Lemma job_ok_call {B} (r : exn + B) (P : task → Prop) (Qn : B → task → Prop)
    (Qe : exn → task → Prop) :
  (∀ t, P t → match r with inl e => Qe e t | inr x => Qn x t end) →
  job_ok id (call r) P Qn Qe.
Proof.
  intros HQ w t Ht HP. exists r, w, []. simpl.
  split_and!; try done; [by rewrite app_nil_r|constructor|by apply HQ].
Qed.

Lemma job_ok_update (f : task → task) (P : task → Prop)
    (Qn : unit → task → Prop) (Qe : exn → task → Prop) :
  (∀ t, P t → lifecycle_step t (f t) ∧ Qn () (f t)) →
  job_ok id (update_task id f) P Qn Qe.
Proof.
  intros HQ w t Ht HP. destruct (HQ t HP) as [Hstep Hpost].
  unfold update_task. rewrite Ht.
  eexists (inr ()), _, [f t]. simpl. split_and!; try done.
  - cbn [trace]. unfold records_of. rewrite omap_app. simpl.
    by rewrite lookup_insert_eq.
  - constructor; [done|constructor].
  - cbn [tasks]. by rewrite lookup_insert_eq.
  - intros o Ho. cbn [tasks]. by rewrite lookup_insert_ne.
Qed.

Lemma job_ok_bind {B C} (m : job B) (f : B → job C) (P : task → Prop)
    (Qn1 : B → task → Prop) (Qn2 : C → task → Prop) (Qe : exn → task → Prop) :
  job_ok id m P Qn1 Qe →
  (∀ x, job_ok id (f x) (Qn1 x) Qn2 Qe) →
  job_ok id (m ≫= f) P Qn2 Qe.
Proof.
  intros Hm Hf w t Ht HP.
  destruct (Hm w t Ht HP) as (r & w1 & recs1 & Hrun & Htr & Hch & Hlk & Hoth & HQ).
  unfold mbind, job_bind. rewrite Hrun. destruct r as [e|x].
  - exists (inl e), w1, recs1. done.
  - destruct (Hf x w1 _ Hlk HQ)
      as (r2 & w2 & recs2 & Hrun2 & Htr2 & Hch2 & Hlk2 & Hoth2 & HQ2).
    exists r2, w2, (recs1 ++ recs2). rewrite default_last_app.
    split_and!; try done.
    + by rewrite Htr2, Htr, app_assoc.
    + by apply chain_app.
    + intros o Ho. by rewrite Hoth2, Hoth.
Qed.

Lemma job_ok_try (m : job unit) (h : exn → job unit) (P : task → Prop)
    (Qn : unit → task → Prop) (Qe1 Qe2 : exn → task → Prop) :
  job_ok id m P Qn Qe1 →
  (∀ e, job_ok id (h e) (Qe1 e) Qn Qe2) →
  job_ok id (try_except m h) P Qn Qe2.
Proof.
  intros Hm Hh w t Ht HP.
  destruct (Hm w t Ht HP) as (r & w1 & recs1 & Hrun & Htr & Hch & Hlk & Hoth & HQ).
  unfold try_except. rewrite Hrun. destruct r as [e|[]].
  - destruct (Hh e w1 _ Hlk HQ)
      as (r2 & w2 & recs2 & Hrun2 & Htr2 & Hch2 & Hlk2 & Hoth2 & HQ2).
    exists r2, w2, (recs1 ++ recs2). rewrite default_last_app.
    split_and!; try done.
    + by rewrite Htr2, Htr, app_assoc.
    + by apply chain_app.
    + intros o Ho. by rewrite Hoth2, Hoth.
  - exists (inr ()), w1, recs1. done.
Qed.

Lemma job_ok_weaken {B} (m : job B) (P P' : task → Prop)
    (Qn Qn' : B → task → Prop) (Qe Qe' : exn → task → Prop) :
  job_ok id m P Qn Qe →
  (∀ t, P' t → P t) →
  (∀ x t, Qn x t → Qn' x t) →
  (∀ e t, Qe e t → Qe' e t) →
  job_ok id m P' Qn' Qe'.
Proof.
  intros Hm HP HQn HQe w t Ht HP'.
  destruct (Hm w t Ht (HP _ HP')) as (r & w1 & recs & Hrun & Htr & Hch & Hlk & Hoth & HQ).
  exists r, w1, recs. split_and!; try done.
  destruct r; [by apply HQe|by apply HQn].
Qed.

End JobLogic.

Section Jobs.
Context (E : env) (id : string) (threshold : Q).

Lemma at_stage_live s p t :
  s ≠ "error" → s ≠ "completed" → at_stage s p t → live t.
Proof.
  intros Hne1 Hne2 (Hs & _ & Hr). split; [|done].
  rewrite Hs. by intros [?|?].
Qed.

Lemma model_check_ok (P : task → Prop) (Qe : exn → task → Prop) :
  (∀ e t, P t → Qe e t) →
  job_ok id
    (if model_loaded E then mret () else raise (Exception "Model not loaded"))
    P (λ _ t, P t) Qe.
Proof.
  intros HQe. destruct (model_loaded E).
  - eapply job_ok_weaken; [apply job_ok_ret| |intros ?? [_ ?]|]; done.
  - apply job_ok_raise. intros t. apply HQe.
Qed.

Lemma call_at_stage {B} (r : exn + B) s p :
  s ≠ "error" → s ≠ "completed" →
  job_ok id (call r) (at_stage s p) (λ _ t, at_stage s p t) (λ _ t, live t).
Proof.
  intros Hne1 Hne2. apply job_ok_call. intros t Ht.
  destruct r; [by eapply at_stage_live|done].
Qed.

Lemma process_image_file_body_ok file_path :
  job_ok id (process_image_file_body E file_path id threshold)
    (λ t, live t ∧ (progress t ≤ 30)%Z)
    (λ _ t, completed_ok t) (λ _ t, live t).
Proof.
  unfold process_image_file_body.
  eapply job_ok_bind; [apply model_check_ok; by intros ?? [? _]|intros ?; cbv beta].
  eapply job_ok_bind with (Qn1 := λ _, at_stage "processing" 30).
  { apply job_ok_update. intros t [[Hlive Hres] Hp]. split; [|done].
    split_and!; [done|done|discriminate]. }
  intros ?; cbv beta. eapply job_ok_bind; [by apply call_at_stage|intros image_array].
  eapply job_ok_bind with (Qn1 := λ _, at_stage "processing" 50).
  { apply job_ok_update. intros t (Hs & Hp & Hr). split; [|done].
    split_and!; simpl; [rewrite Hs; by intros [?|?]|lia|rewrite Hs; discriminate]. }
  intros ?; cbv beta. eapply job_ok_bind; [by apply call_at_stage|intros mask].
  eapply job_ok_bind with (Qn1 := λ _, at_stage "processing" 80).
  { apply job_ok_update. intros t (Hs & Hp & Hr). split; [|done].
    split_and!; simpl; [rewrite Hs; by intros [?|?]|lia|rewrite Hs; discriminate]. }
  intros ?; cbv beta. eapply job_ok_bind; [by apply call_at_stage|intros ?; cbv beta].
  eapply job_ok_bind; [by apply call_at_stage|intros ?; cbv beta].
  eapply job_ok_bind; [by apply call_at_stage|intros ?; cbv beta].
  apply job_ok_update. intros t (Hs & Hp & Hr). split.
  - split_and!; simpl; [rewrite Hs; by intros [?|?]|lia|discriminate].
  - split_and!; simpl; [done|done|by eexists].
Qed.

Lemma error_handler_ok (prefix : string) (e : exn) :
  job_ok id (update_task id (set_error (prefix +:+ str e)))
    live (λ _ t, failed_with prefix e t) (λ _ _, False).
Proof.
  apply job_ok_update. intros t [Hterm Hres]. split.
  - split_and!; simpl; [done|lia|done].
  - split_and!; done.
Qed.

Lemma process_image_file_ok file_path :
  job_ok id (process_image_file E file_path id threshold)
    (λ t, live t ∧ (progress t ≤ 30)%Z)
    (λ _ t, completed_ok t ∨ ∃ e, failed_with "Processing error: " e t)
    (λ _ _, False).
Proof.
  unfold process_image_file.
  eapply job_ok_try with (Qe1 := λ _ t, live t).
  - eapply job_ok_weaken; [apply process_image_file_body_ok|..]; try done.
    intros ? t Ht. by left.
  - intros e. eapply job_ok_weaken; [apply error_handler_ok|..]; try done.
    intros ? t Ht. right. by exists e.
Qed.

Lemma download_image_ok url :
  job_ok id (download_image E url id)
    (λ t, live t ∧ (progress t ≤ 10)%Z)
    (λ _ t, at_stage "downloading" 10 t) (λ _ t, live t).
Proof.
  unfold download_image.
  eapply job_ok_bind; [apply model_check_ok; by intros ?? [? _]|intros ?; cbv beta].
  eapply job_ok_bind with (Qn1 := λ _, at_stage "downloading" 10).
  { apply job_ok_update. intros t [[Hlive Hres] Hp]. split; [|done].
    split_and!; simpl; [done|lia|discriminate]. }
  intros ?; cbv beta. eapply job_ok_bind; [by apply call_at_stage|intros content].
  eapply job_ok_bind; [by apply call_at_stage|intros ?; cbv beta].
  eapply job_ok_weaken;
    [apply (job_ok_ret id _ (at_stage "downloading" 10) (λ _ t, live t))|..];
    [done|by intros ?? [_ ?]|done].
Qed.

Lemma process_image_from_url_body_ok url :
  job_ok id (process_image_from_url_body E url id threshold)
    (λ t, live t ∧ (progress t ≤ 10)%Z)
    (λ _ t, completed_ok t ∨ ∃ e, failed_with "Processing error: " e t)
    (λ _ t, live t).
Proof.
  unfold process_image_from_url_body.
  eapply job_ok_bind; [apply download_image_ok|intros input_path].
  eapply job_ok_weaken; [apply process_image_file_ok|..]; try done.
  intros t Ht. split; [by apply (at_stage_live "downloading" 10)|].
  destruct Ht as (_ & -> & _). lia.
Qed.

Lemma process_image_from_url_ok url :
  job_ok id (process_image_from_url E url id threshold)
    (λ t, live t ∧ (progress t ≤ 10)%Z)
    (λ _ t, completed_ok t
            ∨ ∃ e, failed_with "Processing error: " e t
                   ∨ failed_with "Error processing URL: " e t)
    (λ _ _, False).
Proof.
  unfold process_image_from_url.
  eapply job_ok_try with (Qe1 := λ _ t, live t).
  - eapply job_ok_weaken; [apply process_image_from_url_body_ok|..]; try done.
    intros ? t [?|[e ?]]; [by left|]. right. exists e. by left.
  - intros e. eapply job_ok_weaken; [apply error_handler_ok|..]; try done.
    intros ? t Ht. right. exists e. by right.
Qed.

Lemma background_job_ok s :
  job_ok id (background_job E s id threshold)
    (λ t, live t ∧ (progress t ≤ 10)%Z)
    (λ _ t, completed_ok t
            ∨ ∃ e, failed_with "Processing error: " e t
                   ∨ failed_with "Error processing URL: " e t)
    (λ _ _, False).
Proof.
  destruct s as [file_path|url]; simpl.
  - eapply job_ok_weaken; [apply process_image_file_ok|..]; try done.
    + intros t [? ?]. split; [done|lia].
    + intros ? t [?|[e ?]]; [by left|]. right. exists e. by left.
  - apply process_image_from_url_ok.
Qed.

End Jobs.

Lemma chain_lookup t l k a b :
  chain t l → (t :: l) !! k = Some a → (t :: l) !! S k = Some b →
  lifecycle_step a b.
Proof.
  intros Hchain. revert k. induction Hchain as [t|t t' l Hstep Hchain IH].
  - intros [|k] Ha Hb; simpl in *; done.
  - intros [|k] Ha Hb.
    + simpl in Ha, Hb. by simplify_eq.
    + by apply (IH k).
Qed.

Lemma job_body_ok E id threshold s :
  job_ok id (job_body E s id threshold)
    (λ t, live t ∧ (progress t ≤ 10)%Z) (λ _ _, True) (λ _ t, live t).
Proof.
  destruct s as [file_path|url]; simpl.
  - eapply job_ok_weaken; [apply process_image_file_body_ok|..]; try done.
    intros t [? ?]. split; [done|lia].
  - eapply job_ok_weaken; [apply process_image_from_url_body_ok|..]; done.
Qed.

Lemma background_job_unfold E s id threshold :
  background_job E s id threshold
  = try_except (job_body E s id threshold)
      (λ e, update_task id (set_error (job_prefix s +:+ str e))).
Proof. by destruct s. Qed.

Lemma handler_run id prefix e wb tb :
  tasks wb !! id = Some tb →
  update_task id (set_error (prefix +:+ str e)) wb
  = (inr (),
     {| tasks := <[id := set_error (prefix +:+ str e) tb]> (tasks wb);
        trace := trace wb ++ [<[id := set_error (prefix +:+ str e) tb]> (tasks wb)] |}).
Proof. intros Htb. unfold update_task. by rewrite Htb. Qed.

(** C4 (task lifecycle).  Take a job (upload or URL path) scheduled for a task
    whose record is in the table, has not reached a terminal state, has no
    result and has progress at most 10 (the endpoints create it with progress
    0).  The job returns; along the task's successive records (the starting
    record, then the record after each update block of the job) progress never
    decreases, no update follows a record whose status is [error] or
    [completed], and an update that sets [error] leaves progress as it was.
    The job ends with the task in a terminal state. *)
Theorem task_lifecycle (E : env) (s : submission) (id : string) (threshold : Q)
    (ts : gmap string task) (t0 : task) :
  ts !! id = Some t0 → live t0 → (progress t0 ≤ 10)%Z →
  ∃ r w',
    background_job E s id threshold (start ts) = (r, w')
    ∧ monotone_progress (t0 :: records_of id (trace w'))
    ∧ terminal_is_final (t0 :: records_of id (trace w'))
    ∧ error_keeps_progress (t0 :: records_of id (trace w'))
    ∧ tasks w' !! id = last (t0 :: records_of id (trace w'))
    ∧ ∃ t, last (t0 :: records_of id (trace w')) = Some t ∧ terminal (status t).
Proof.
  intros Hid Hlive Hprog.
  destruct (background_job_ok E id threshold s (start ts) t0 Hid (conj Hlive Hprog))
    as (r & w' & recs & Hrun & Htr & Hchain & Hlk & _ & Hpost).
  simpl in Htr. exists r, w'. rewrite Htr. split; [done|].
  assert (last (t0 :: recs) = Some (default t0 (last recs))) as Hlast.
  { rewrite last_cons. by destruct (last recs). }
  split_and!.
  - intros k a b Ha Hb. by destruct (chain_lookup _ _ _ _ _ Hchain Ha Hb) as (_ & ? & _).
  - intros k a Ha Hterm. destruct ((t0 :: recs) !! S k) as [b|] eqn:Hb; [|done].
    by destruct (chain_lookup _ _ _ _ _ Hchain Ha Hb) as (? & _ & _).
  - intros k a b Ha Hb. by destruct (chain_lookup _ _ _ _ _ Hchain Ha Hb) as (_ & _ & ?).
  - by rewrite Hlast.
  - exists (default t0 (last recs)). split; [done|].
    destruct r as [e|[]]; [done|].
    destruct Hpost as [(Hs & _)|(e & [(Hs & _)|(Hs & _)])]; rewrite Hs;
      unfold terminal; auto.
Qed.

Lemma task_lifecycle_witness :
  ∃ r w',
    background_job no_model (Url "http://example.org/field.png") "t1" (1 # 2)
      (start one_queued) = (r, w')
    ∧ monotone_progress (new_url_task "t1" 0 :: records_of "t1" (trace w'))
    ∧ terminal_is_final (new_url_task "t1" 0 :: records_of "t1" (trace w'))
    ∧ error_keeps_progress (new_url_task "t1" 0 :: records_of "t1" (trace w'))
    ∧ tasks w' !! "t1" = last (new_url_task "t1" 0 :: records_of "t1" (trace w'))
    ∧ ∃ t, last (new_url_task "t1" 0 :: records_of "t1" (trace w')) = Some t
           ∧ terminal (status t).
Proof.
  apply (task_lifecycle no_model (Url "http://example.org/field.png") "t1"
           (1 # 2) one_queued (new_url_task "t1" 0)).
  - reflexivity.
  - split; [|reflexivity]. intros [H|H]; discriminate H.
  - simpl. lia.
Defined.

(** C5 (exceptions are contained).  Take a job (upload or URL path) scheduled
    for a task whose record is in the table, live and with progress at most
    10.  The job returns normally, so no exception leaves it, and it changes
    no other task.  It ends with the task either completed or in [error] with
    a message made of the handler's text and [str(e)] and with no result.
    Whenever the job's [try] block raises [e], the final record is the record
    at the raise with status [error], message [prefix + str(e)], no result and
    the same progress; the same holds, with the prefix of
    [process_image_file], when [e] is raised inside the [process_image_file]
    that a URL job delegates to. *)
Theorem job_exceptions_contained (E : env) (s : submission) (id : string)
    (threshold : Q) (ts : gmap string task) (t0 : task) :
  ts !! id = Some t0 → live t0 → (progress t0 ≤ 10)%Z →
  ∃ w' t,
    background_job E s id threshold (start ts) = (inr (), w')
    ∧ (∀ o, o ≠ id → tasks w' !! o = ts !! o)
    ∧ tasks w' !! id = Some t
    ∧ (completed_ok t
       ∨ ∃ e, failed_with "Processing error: " e t
              ∨ failed_with "Error processing URL: " e t)
    ∧ (∀ e wb, job_body E s id threshold (start ts) = (inl e, wb) →
         ∃ tb, tasks wb !! id = Some tb
               ∧ t = set_error (job_prefix s +:+ str e) tb
               ∧ failed_with (job_prefix s) e t
               ∧ progress t = progress tb)
    ∧ (∀ url input_path w1 e wb,
         s = Url url →
         download_image E url id (start ts) = (inr input_path, w1) →
         process_image_file_body E input_path id threshold w1 = (inl e, wb) →
         ∃ tb, tasks wb !! id = Some tb
               ∧ t = set_error ("Processing error: " +:+ str e) tb
               ∧ failed_with "Processing error: " e t
               ∧ progress t = progress tb).
Proof.
  intros Hid Hlive Hprog.
  destruct (background_job_ok E id threshold s (start ts) t0 Hid (conj Hlive Hprog))
    as (r & w' & recs & Hrun & _ & _ & Hlk & Hoth & Hpost).
  destruct r as [e|[]]; [done|].
  exists w', (default t0 (last recs)). split_and!; try done.
  - intros e wb Hbody.
    destruct (job_body_ok E id threshold s (start ts) t0 Hid (conj Hlive Hprog))
      as (r1 & w1 & recs1 & Hrun1 & _ & _ & Hlk1 & _ & Hpost1).
    rewrite Hbody in Hrun1. injection Hrun1 as <- <-.
    destruct Hpost1 as [Hterm Hres].
    rewrite background_job_unfold in Hrun. unfold try_except in Hrun.
    rewrite Hbody, (handler_run _ _ _ _ _ Hlk1) in Hrun. simplify_eq.
    cbn [tasks] in Hlk. rewrite lookup_insert_eq in Hlk. simplify_eq.
    eexists. split; [done|]. rewrite <- Hlk. done.
  - intros url input_path w1 e wb -> Hdl Hbody.
    destruct (download_image_ok E id url (start ts) t0 Hid (conj Hlive Hprog))
      as (r1 & w1' & recs1 & Hrun1 & _ & _ & Hlk1 & _ & Hpost1).
    rewrite Hdl in Hrun1. injection Hrun1 as <- <-.
    destruct (process_image_file_body_ok E id threshold input_path w1 _ Hlk1)
      as (r2 & w2 & recs2 & Hrun2 & _ & _ & Hlk2 & _ & Hpost2).
    { split; [by apply (at_stage_live "downloading" 10)|].
      destruct Hpost1 as (_ & -> & _). lia. }
    rewrite Hbody in Hrun2. injection Hrun2 as <- <-.
    destruct Hpost2 as [Hterm Hres].
    simpl in Hrun.
    unfold process_image_from_url, try_except, process_image_from_url_body,
      mbind, job_bind in Hrun.
    rewrite Hdl in Hrun. unfold process_image_file, try_except in Hrun.
    rewrite Hbody in Hrun. unfold process_image_file_handler in Hrun.
    rewrite (handler_run _ _ _ _ _ Hlk2) in Hrun. simplify_eq.
    cbn [tasks] in Hlk. rewrite lookup_insert_eq in Hlk. simplify_eq.
    eexists. split; [done|]. rewrite <- Hlk. done.
Qed.

Lemma job_exceptions_contained_witness :
  ∃ w' t,
    background_job no_model (Url "http://example.org/field.png") "t1" (1 # 2)
      (start one_queued) = (inr (), w')
    ∧ (∀ o, o ≠ "t1" → tasks w' !! o = one_queued !! o)
    ∧ tasks w' !! "t1" = Some t
    ∧ (completed_ok t
       ∨ ∃ e, failed_with "Processing error: " e t
              ∨ failed_with "Error processing URL: " e t)
    ∧ (∀ e wb,
         job_body no_model (Url "http://example.org/field.png") "t1" (1 # 2)
           (start one_queued) = (inl e, wb) →
         ∃ tb, tasks wb !! "t1" = Some tb
               ∧ t = set_error
                       (job_prefix (Url "http://example.org/field.png")
                        +:+ str e) tb
               ∧ failed_with (job_prefix (Url "http://example.org/field.png")) e t
               ∧ progress t = progress tb)
    ∧ (∀ url input_path w1 e wb,
         Url "http://example.org/field.png" = Url url →
         download_image no_model url "t1" (start one_queued)
         = (inr input_path, w1) →
         process_image_file_body no_model input_path "t1" (1 # 2) w1
         = (inl e, wb) →
         ∃ tb, tasks wb !! "t1" = Some tb
               ∧ t = set_error ("Processing error: " +:+ str e) tb
               ∧ failed_with "Processing error: " e t
               ∧ progress t = progress tb).
Proof.
  apply (job_exceptions_contained no_model (Url "http://example.org/field.png")
           "t1" (1 # 2) one_queued (new_url_task "t1" 0)).
  - reflexivity.
  - split; [|reflexivity]. intros [H|H]; discriminate H.
  - simpl. lia.
Defined.

(** ** Sample runs *)

(** A URL job on a server without a model: the outer handler reports it. *)
Example url_job_without_model :
  ∃ w',
    process_image_from_url no_model "http://example.org/field.png" "t1" (1 # 2)
      (start one_queued) = (inr (), w')
    ∧ records_of "t1" (trace w')
      = [set_error "Error processing URL: Model not loaded" (new_url_task "t1" 0)].
Proof. eexists. split; reflexivity. Qed.

(** Segmentation of a 3 × 3 image with tile size 2 by a model that answers
    class 1 everywhere. *)
Example segment_small :
  segment_image_with_patches (stub_model 2 1)
    [[[1]; [2]; [3]]; [[4]; [5]; [6]]; [[7]; [8]; [9]]]%Z 2 8
  = inr [[1; 1; 1]; [1; 1; 1]; [1; 1; 1]]%Z.
Proof. reflexivity. Qed.

(** A URL job whose model raises during prediction: the handler of the
    delegated [process_image_file] reports it and progress stays at 50. *)
Example url_job_predict_fails :
  ∃ w',
    process_image_from_url failing_model "http://example.org/field.png" "t1"
      (1 # 2) (start one_queued) = (inr (), w')
    ∧ map (λ t, (status t, progress t, message t)) (records_of "t1" (trace w'))
      = [("downloading", 10, "Downloading image...");
         ("processing", 30, "Loading image...");
         ("processing", 50, "Running segmentation...");
         ("error", 50, "Processing error: ResourceExhaustedError")]%Z.
Proof. eexists. split; reflexivity. Qed.

(** A job whose record was deleted before it ran is outside the lifecycle
    above: the subscript in the handler raises in its turn. *)
Example job_without_record :
  process_image_file (stub_model 2 1) "uploads/t2_field.png" "t2" (1 # 2)
    (start one_queued)
  = (inl (Exception "'t2'"), start one_queued).
Proof. reflexivity. Qed.

(** * More on the tiler *)

Lemma extract_patches_degenerate {A} (image : list (list A)) (patch_size : nat) :
  patch_size = 0 ∨ height image = 0 ∨ width image = 0 →
  extract_patches image patch_size = None.
Proof.
  unfold extract_patches, pad_small, np_pad_reflect.
  assert (∀ m, (m <? 0) = false) as Hlt0 by (intros m; apply Nat.ltb_ge; lia).
  intros [->|[Hh|Hw]].
  - by rewrite !Hlt0.
  - rewrite Hh. destruct patch_size as [|n]; [by rewrite !Hlt0|done].
  - rewrite Hw. destruct patch_size as [|n]; [by rewrite !Hlt0|].
    replace (0 <? S n) with true by done. rewrite orb_true_r.
    replace (Nat.max 0 (S n - 0)) with (S n) by lia.
    simpl. rewrite orb_true_r. done.
Qed.

Lemma extract_patches_Some_inv {A} (image : list (list A)) (patch_size : nat) res :
  extract_patches image patch_size = Some res →
  0 < patch_size ∧ 0 < height image ∧ 0 < width image.
Proof.
  intros Hsome.
  destruct (decide (patch_size = 0)) as [Hn|Hn];
    [by rewrite extract_patches_degenerate in Hsome; [|left]|].
  destruct (decide (height image = 0)) as [Hh|Hh];
    [by rewrite extract_patches_degenerate in Hsome; [|right; left]|].
  destruct (decide (width image = 0)) as [Hw|Hw];
    [by rewrite extract_patches_degenerate in Hsome; [|right; right]|].
  lia.
Qed.

(** X1.  [extract_patches] raises exactly when the tile size is zero (the
    step of [range]) or the image has an empty axis (which [np.pad] cannot
    mirror); on every other input it returns. *)
Theorem extract_patches_raises_iff {A} (image : list (list A)) (patch_size : nat) :
  extract_patches image patch_size = None
  ↔ patch_size = 0 ∨ height image = 0 ∨ width image = 0.
Proof.
  split; [|apply extract_patches_degenerate].
  intros Hnone. destruct (decide (patch_size = 0)) as [|Hn]; [by left|].
  destruct (decide (height image = 0)) as [|Hh]; [by right; left|].
  destruct (decide (width image = 0)) as [|Hw]; [by right; right|].
  destruct (extract_patches_returns image patch_size) as (? & _ & _ & _ & Hex);
    [lia..|]. by rewrite Hex in Hnone.
Qed.

Lemma px_crop {A} (a : list (list A)) (y x n r c : nat) :
  r < n → c < n → px (crop a y x n) r c = px a (y + r) (x + c).
Proof.
  intros Hr Hc. unfold px, crop. rewrite list_lookup_fmap.
  rewrite lookup_take_lt, lookup_drop by done.
  destruct (a !! (y + r)) as [row|]; simpl; [|done].
  by rewrite lookup_take_lt, lookup_drop.
Qed.

Lemma crop_shape {A} (a : list (list A)) (w y x n : nat) :
  rect w a → y + n ≤ height a → x + n ≤ w →
  height (crop a y x n) = n ∧ rect n (crop a y x n).
Proof.
  intros Hrect Hy Hx. unfold crop, height in *. split.
  - rewrite length_map, length_take, length_drop. lia.
  - unfold rect in *. apply Forall_fmap, Forall_take, Forall_drop.
    eapply Forall_impl; [exact Hrect|]. simpl. intros row Hrow.
    rewrite length_take, length_drop. lia.
Qed.

Lemma pad_small_rect {A} (image padded : list (list A)) (n : nat) :
  0 < height image → 0 < width image → rect (width image) image →
  pad_small image n = Some padded → rect (width padded) padded.
Proof.
  intros Hh Hw Hrect Hpad.
  destruct (pad_small_shape _ _ _ Hh Hw Hpad) as [_ Hw'].
  revert Hpad. unfold pad_small. case_match eqn:Hc.
  - intros Hpad. rewrite Hw'.
    pose proof (np_pad_reflect_rect _ _ _ _ Hh Hw Hrect Hpad) as Hr.
    replace (Nat.max (width image) n)
      with (width image + Nat.max 0 (n - width image)) by lia. done.
  - by intros [= <-].
Qed.

(** X2.  Every tile is a full window of the padded image.  For a non-empty
    rectangular image and a positive tile size, the origins that
    [extract_patches] returns are pairwise distinct and there is one patch per
    origin; each origin leaves room for a whole tile inside the padded image,
    and its patch is a [patch_size]-square array whose cell [(r, c)] is the
    padded image's pixel at [(y + r, x + c)]. *)
Theorem tiler_tiles_are_windows {A} (image : list (list A)) (patch_size : nat) :
  0 < patch_size → 0 < height image → 0 < width image →
  rect (width image) image →
  ∃ padded patches positions,
    pad_small image patch_size = Some padded
    ∧ extract_patches image patch_size
      = Some ((patches, positions), (height padded, width padded))
    ∧ NoDup positions
    ∧ length patches = length positions
    ∧ ∀ k pos patch,
        positions !! k = Some pos → patches !! k = Some patch →
        pos.1 + patch_size ≤ height padded
        ∧ pos.2 + patch_size ≤ width padded
        ∧ height patch = patch_size
        ∧ rect patch_size patch
        ∧ ∀ r c, r < patch_size → c < patch_size →
            px patch r c = px padded (pos.1 + r) (pos.2 + c).
Proof.
  intros Hn Hh Hw Hrect.
  destruct (extract_patches_returns image patch_size Hn Hh Hw)
    as (padded & Hpad & Hh' & Hw' & Hex).
  pose proof (pad_small_rect _ _ _ Hh Hw Hrect Hpad) as Hrect'.
  pose proof (sweep_tiles_ok padded patch_size) as Hok.
  pose proof (NoDup_sweep_tiles padded patch_size Hn) as Hnd.
  exists padded, (sweep_tiles padded patch_size).1,
    (sweep_tiles padded patch_size).2.
  split_and!; [done|by rewrite Hex; destruct (sweep_tiles _ _)|done| |].
  - by rewrite Hok, length_map.
  - intros k pos patch Hpos Hpatch.
    rewrite (tiles_ok_lookup _ _ _ _ _ Hok Hpos) in Hpatch.
    injection Hpatch as <-.
    destruct (sweep_tiles_in_bounds padded patch_size pos) as [Hy Hx];
      [lia..|by eapply list_elem_of_lookup_2|].
    destruct (crop_shape padded (width padded) pos.1 pos.2 patch_size)
      as [Hch Hcr]; [done..|].
    split_and!; [done..|]. intros r c Hr Hc. by apply px_crop.
Qed.

Lemma tiler_tiles_are_windows_witness :
  ∃ padded patches positions,
    pad_small [[1; 2; 3]; [4; 5; 6]] 2 = Some padded
    ∧ extract_patches [[1; 2; 3]; [4; 5; 6]] 2
      = Some ((patches, positions), (height padded, width padded))
    ∧ NoDup positions
    ∧ length patches = length positions
    ∧ ∀ k pos patch,
        positions !! k = Some pos → patches !! k = Some patch →
        pos.1 + 2 ≤ height padded
        ∧ pos.2 + 2 ≤ width padded
        ∧ height patch = 2
        ∧ rect 2 patch
        ∧ ∀ r c, r < 2 → c < 2 →
            px patch r c = px padded (pos.1 + r) (pos.2 + c).
Proof.
  apply (tiler_tiles_are_windows [[1; 2; 3]; [4; 5; 6]] 2);
    [lia | simpl; lia | simpl; lia | repeat constructor].
Defined.

Lemma length_append_if_new {A} (image : list (list A)) n acc pos :
  pos ∉ acc.2 → length (append_if_new image n acc pos).2 = S (length acc.2).
Proof.
  intros Hnew. unfold append_if_new. case_decide; [done|].
  simpl. rewrite length_app. simpl. lia.
Qed.

Lemma length_edge_loop {A X} (image : list (list A)) n (f : X → nat * nat)
    (l : list X) (acc : tiles A) :
  NoDup (map f l) → (∀ x, x ∈ l → f x ∉ acc.2) →
  length (fold_left (edge_step image n f) l acc).2 = length acc.2 + length l.
Proof.
  revert acc. induction l as [|x l IH]; intros acc Hnd Hnew; simpl; [lia|].
  apply NoDup_cons in Hnd as [Hx Hnd].
  rewrite IH; [|done|].
  - unfold edge_step. rewrite length_append_if_new; [lia|].
    apply Hnew. left.
  - intros x' Hx'. unfold edge_step. rewrite elem_of_append_if_new.
    intros [Hin|Heq].
    + by apply (Hnew x'); [right|].
    + apply Hx. rewrite <- Heq. apply list_elem_of_fmap. by exists x'.
Qed.

Lemma edge_not_in_range n m :
  0 < n → n ≤ m → m mod n ≠ 0 → m - n ∉ py_range (m - n + 1) n.
Proof.
  intros Hn Hm Hmod (k & Hk & _)%elem_of_py_range; [|done].
  apply Hmod. replace m with ((k + 1) * n) by lia. apply Nat.Div0.mod_mul.
Qed.

Lemma ceil_div n m :
  0 < n → (m + n - 1) / n = m / n + (if m mod n =? 0 then 0 else 1).
Proof.
  intros Hn. pose proof (Nat.div_mod_eq m n) as Hdiv.
  pose proof (Nat.mod_upper_bound m n ltac:(lia)) as Hmod.
  destruct (Nat.eqb_spec (m mod n) 0) as [H0|H0].
  - symmetry. apply (Nat.div_unique _ _ _ (n - 1)); lia.
  - symmetry. apply (Nat.div_unique _ _ _ (m mod n - 1)); lia.
Qed.

Lemma length_sweep_tiles {A} (image : list (list A)) n :
  0 < n → n ≤ height image → n ≤ width image →
  length (sweep_tiles image n).2
  = ((height image + n - 1) / n) * ((width image + n - 1) / n).
Proof.
  intros Hn Hh Hw. rewrite !ceil_div by done.
  unfold sweep_tiles. rewrite fold_primary. simpl.
  set (h := height image) in *. set (w := width image) in *.
  set (ys := py_range (h - n + 1) n). set (xs := py_range (w - n + 1) n).
  assert (length ys = h / n) as Hys.
  { unfold ys. by rewrite length_py_range, sweep_count. }
  assert (length xs = w / n) as Hxs.
  { unfold xs. by rewrite length_py_range, sweep_count. }
  assert (NoDup ys) as Hndy by (by apply NoDup_py_range).
  assert (NoDup xs) as Hndx by (by apply NoDup_py_range).
  assert (∀ y : nat, NoDup (map (λ x, (y, x)) xs)) as Hrow.
  { intros y. apply NoDup_fmap_2; [by intros ?? [= ->]|done]. }
  assert (∀ x : nat, NoDup (map (λ y, (y, x)) ys)) as Hcol.
  { intros x. apply NoDup_fmap_2; [by intros ?? [= ->]|done]. }
  destruct (Nat.eqb_spec (h mod n) 0) as [Hhm|Hhm];
    destruct (Nat.eqb_spec (w mod n) 0) as [Hwm|Hwm]; simpl.
  - rewrite length_grid. lia.
  - rewrite length_edge_loop; [simpl; rewrite length_grid; lia|done|].
    intros y Hy [_ Hin]%elem_of_grid. by apply (edge_not_in_range n w).
  - rewrite length_edge_loop; [simpl; rewrite length_grid; lia|done|].
    intros x Hx [Hin _]%elem_of_grid. by apply (edge_not_in_range n h).
  - rewrite length_append_if_new.
    + rewrite length_edge_loop; [|done|].
      * rewrite length_edge_loop; [simpl; rewrite length_grid; lia|done|].
        intros x Hx [Hin _]%elem_of_grid. by apply (edge_not_in_range n h).
      * intros y Hy. rewrite elem_of_edge_loop. simpl.
        intros [[_ Hin]%elem_of_grid|(x & Hx & Heq)].
        -- by apply (edge_not_in_range n w).
        -- injection Heq as Heq1 Heq2. rewrite Heq1 in Hy.
           by apply (edge_not_in_range n h).
    + rewrite !elem_of_edge_loop. simpl.
      intros [[[Hin _]%elem_of_grid|(x & Hx & Heq)]|(y & Hy & Heq)].
      * by apply (edge_not_in_range n h).
      * injection Heq as Heq. rewrite <- Heq in Hx.
        by apply (edge_not_in_range n w).
      * injection Heq as Heq. rewrite <- Heq in Hy.
        by apply (edge_not_in_range n h).
Qed.

(** X3.  The number of tiles.  For a non-empty image and a positive tile size
    [extract_patches] returns exactly [ceil(h / n) * ceil(w / n)] tiles, [h]
    and [w] being the padded height and width: the membership tests of the
    edge loops never find their origin already present. *)
Theorem tiler_tile_count {A} (image : list (list A)) (patch_size : nat) :
  0 < patch_size → 0 < height image → 0 < width image →
  ∃ patches positions h w,
    extract_patches image patch_size = Some ((patches, positions), (h, w))
    ∧ h = Nat.max (height image) patch_size
    ∧ w = Nat.max (width image) patch_size
    ∧ length positions
      = ((h + patch_size - 1) / patch_size) * ((w + patch_size - 1) / patch_size)
    ∧ length patches = length positions.
Proof.
  intros Hn Hh Hw.
  destruct (extract_patches_returns image patch_size Hn Hh Hw)
    as (padded & Hpad & Hh' & Hw' & Hex).
  pose proof (sweep_tiles_ok padded patch_size) as Hok.
  exists (sweep_tiles padded patch_size).1, (sweep_tiles padded patch_size).2,
    (height padded), (width padded).
  split_and!; [by rewrite Hex; destruct (sweep_tiles _ _)|done|done| |].
  - apply length_sweep_tiles; lia.
  - by rewrite Hok, length_map.
Qed.

Lemma tiler_tile_count_witness :
  ∃ patches positions h w,
    extract_patches [[1; 2; 3; 4; 5]; [6; 7; 8; 9; 10]; [11; 12; 13; 14; 15]] 2
    = Some ((patches, positions), (h, w))
    ∧ h = Nat.max 3 2
    ∧ w = Nat.max 5 2
    ∧ length positions = ((h + 2 - 1) / 2) * ((w + 2 - 1) / 2)
    ∧ length patches = length positions.
Proof.
  apply (tiler_tile_count
           [[1; 2; 3; 4; 5]; [6; 7; 8; 9; 10]; [11; 12; 13; 14; 15]] 2);
    simpl; lia.
Defined.

Lemma lookup_py_range stop step k :
  k < (stop + step - 1) / step → py_range stop step !! k = Some (k * step).
Proof.
  intros Hk. unfold py_range. rewrite list_lookup_fmap, lookup_seq_lt by done.
  done.
Qed.

Lemma lookup_grid ys xs a b y x :
  ys !! a = Some y → xs !! b = Some x →
  grid ys xs !! (a * length xs + b) = Some (y, x).
Proof.
  revert a. unfold grid. induction ys as [|y' ys IH]; intros a Hy Hx; [done|].
  change ((y' :: ys) ≫= λ y0, map (λ x0, (y0, x0)) xs)
    with (map (λ x0, (y', x0)) xs ++ (ys ≫= λ y0, map (λ x0, (y0, x0)) xs)).
  destruct a as [|a]; simpl in Hy.
  - injection Hy as ->. replace (0 * length xs + b) with b by lia.
    rewrite lookup_app_l.
    + by rewrite list_lookup_fmap, Hx.
    + rewrite length_map. by eapply lookup_lt_Some.
  - rewrite lookup_app_r; rewrite length_map; [|lia].
    replace (S a * length xs + b - length xs) with (a * length xs + b) by lia.
    by apply IH.
Qed.

Lemma prefix_sweep_tiles {A} (image : list (list A)) n :
  grid (py_range (height image - n + 1) n) (py_range (width image - n + 1) n)
  `prefix_of` (sweep_tiles image n).2.
Proof.
  unfold sweep_tiles. rewrite fold_primary. simpl.
  set (acc0 := (_, grid _ _)).
  change (grid _ _) with acc0.2.
  repeat case_match; simpl;
    repeat first
      [ done
      | etrans; [|apply prefix_append_if_new]
      | etrans; [|apply prefix_edge_loop] ].
Qed.

(** X4.  The order of the tiles.  The tiles of the primary sweep come first
    and in row-major order: with [rows = h / n] and [cols = w / n] full tiles
    along the padded height and width, the origin at index
    [a * cols + b] is [(a * n, b * n)] for every [a < rows] and [b < cols];
    the edge and corner tiles follow. *)
Theorem tiler_row_major {A} (image : list (list A)) (patch_size : nat) :
  0 < patch_size → 0 < height image → 0 < width image →
  ∃ patches positions h w,
    extract_patches image patch_size = Some ((patches, positions), (h, w))
    ∧ ∀ a b, a < h / patch_size → b < w / patch_size →
        positions !! (a * (w / patch_size) + b)
        = Some (a * patch_size, b * patch_size).
Proof.
  intros Hn Hh Hw.
  destruct (extract_patches_returns image patch_size Hn Hh Hw)
    as (padded & Hpad & Hh' & Hw' & Hex).
  exists (sweep_tiles padded patch_size).1, (sweep_tiles padded patch_size).2,
    (height padded), (width padded).
  split; [by rewrite Hex; destruct (sweep_tiles _ _)|].
  intros a b Ha Hb.
  eapply prefix_lookup_Some; [|apply prefix_sweep_tiles].
  assert (length (py_range (width padded - patch_size + 1) patch_size)
          = width padded / patch_size) as Hlen.
  { rewrite length_py_range, sweep_count; [done|done|lia]. }
  rewrite <- Hlen. apply lookup_grid; apply lookup_py_range;
    rewrite sweep_count; (done || lia).
Qed.

Lemma tiler_row_major_witness :
  ∃ patches positions h w,
    extract_patches [[1; 2; 3; 4; 5]; [6; 7; 8; 9; 10]; [11; 12; 13; 14; 15]] 2
    = Some ((patches, positions), (h, w))
    ∧ ∀ a b, a < h / 2 → b < w / 2 →
        positions !! (a * (w / 2) + b) = Some (a * 2, b * 2).
Proof.
  apply (tiler_row_major
           [[1; 2; 3; 4; 5]; [6; 7; 8; 9; 10]; [11; 12; 13; 14; 15]] 2);
    simpl; lia.
Defined.

(** * More on the reconstructor *)

Lemma slice_add_shape (a : list (list Z)) y x n f w :
  height (slice_add a y x n f) = height a
  ∧ (rect w a → rect w (slice_add a y x n f)).
Proof.
  unfold slice_add, height. split; [by rewrite length_imap|].
  unfold rect. rewrite !Forall_lookup. intros Hrect i row Hrow.
  rewrite list_lookup_imap in Hrow.
  destruct (a !! i) as [row'|] eqn:Hrow'; simpl in Hrow; [|done].
  injection Hrow as <-. rewrite length_imap. by eapply Hrect.
Qed.

Lemma fold_accumulate_shape h w n items out cnt out' cnt' :
  fold_left (accumulate h w n) items (Some (out, cnt)) = Some (out', cnt') →
  (height out' = height out ∧ (rect w out → rect w out'))
  ∧ (height cnt' = height cnt ∧ (rect w cnt → rect w cnt')).
Proof.
  revert out cnt. induction items as [|[pred [y x]] items IH]; intros out cnt.
  - simpl. by intros [= -> ->].
  - simpl. destruct (broadcastable pred _ _).
    + intros Hfold. apply IH in Hfold as [[Ho Hro] [Hc Hrc]].
      destruct (slice_add_shape out y x n (pred_at pred) w) as [Ho1 Hro1].
      destruct (slice_add_shape cnt y x n (λ _ _, 1%Z) w) as [Hc1 Hrc1].
      split; (split; [congruence|auto]).
    + by rewrite fold_accumulate_None.
Qed.

Lemma rect_replicate {B} (h w : nat) (v : B) : rect w (replicate h (replicate w v)).
Proof.
  unfold rect. apply Forall_replicate. by rewrite length_replicate.
Qed.

Lemma zip_with_shape (g : Z → Z → Z) (out cnt : list (list Z)) h w :
  height out = h → height cnt = h → rect w out → rect w cnt →
  height (zip_with (zip_with g) out cnt) = h
  ∧ rect w (zip_with (zip_with g) out cnt).
Proof.
  unfold height, rect. intros Ho Hc Hro Hrc. split.
  - rewrite length_zip_with. lia.
  - rewrite Forall_lookup in Hro. rewrite Forall_lookup in Hrc.
    apply Forall_lookup. intros i row Hrow.
    apply lookup_zip_with_Some in Hrow as (r1 & r2 & -> & H1 & H2).
    rewrite length_zip_with, (Hro _ _ H1), (Hrc _ _ H2). lia.
Qed.

Lemma reconstruct_from_patches_shape (predictions : list (list (list Z)))
    (positions : list (nat * nat)) (h w patch_size : nat)
    (mask : list (list Z)) :
  reconstruct_from_patches predictions positions (h, w) patch_size = Some mask →
  height mask = h ∧ rect w mask.
Proof.
  unfold reconstruct_from_patches.
  destruct (fold_left _ _ _) as [[out cnt]|] eqn:Hfold; [|done].
  simpl. intros [= <-].
  apply (fold_accumulate_shape h w) in Hfold as [[Ho Hro] [Hc Hrc]].
  unfold height in Ho, Hc. rewrite length_replicate in Ho, Hc.
  apply zip_with_shape; auto using rect_replicate.
Qed.

(** X5.  When the reconstructor raises.  [reconstruct_from_patches] raises
    exactly when some prediction, paired with its origin by [zip], does not
    broadcast into its slice of the accumulators (a prediction of the wrong
    shape, or a tile that sticks out of [original_shape]). *)
Theorem reconstruct_raises_iff (predictions : list (list (list Z)))
    (positions : list (nat * nat)) (h w patch_size : nat) :
  reconstruct_from_patches predictions positions (h, w) patch_size = None
  ↔ ∃ pred pos,
      (pred, pos) ∈ zip predictions positions
      ∧ broadcastable pred (slice_len h pos.1 patch_size)
          (slice_len w pos.2 patch_size) = false.
Proof.
  split.
  - intros Hnone.
    destruct (Forall_Exists_dec (fits h w patch_size)
                (λ item, ¬ fits h w patch_size item)
                (λ item, decide (broadcastable item.1
                                   (slice_len h item.2.1 patch_size)
                                   (slice_len w item.2.2 patch_size) = true))
                (zip predictions positions)) as [Hall|Hex].
    + destruct (reconstruct_px _ _ _ _ _ Hall) as (mask & Hrec & _).
      by rewrite Hrec in Hnone.
    + apply Exists_exists in Hex as ([pred pos] & Hin & Hnot).
      exists pred, pos. split; [done|]. unfold fits in Hnot. simpl in Hnot.
      by destruct (broadcastable _ _ _).
  - intros (pred & pos & Hin & Hbad). unfold reconstruct_from_patches.
    rewrite fold_accumulate_misfit; [done|].
    intros Hall. rewrite Forall_forall in Hall. specialize (Hall _ Hin).
    unfold fits in Hall. simpl in Hall. by rewrite Hbad in Hall.
Qed.

Lemma uncovered_sum_count (items : list (list (list Z) * (nat * nat))) n i j :
  (∀ item, item ∈ items → ¬ covers n item.2 i j) →
  sum_at items n i j = 0%Z ∧ count_at items n i j = 0%Z.
Proof.
  induction items as [|item items IH]; intros Hnone; [done|]. simpl.
  rewrite bool_decide_eq_false_2 by (apply Hnone; left).
  destruct IH as [-> ->]; [|done]. intros item' Hin. apply Hnone. by right.
Qed.

Lemma single_cover_sum_count (items : list (list (list Z) * (nat * nat)))
    n i j k item :
  items !! k = Some item → covers n item.2 i j →
  (∀ k' item', items !! k' = Some item' → covers n item'.2 i j → k' = k) →
  sum_at items n i j = pred_at item.1 (i - item.2.1) (j - item.2.2)
  ∧ count_at items n i j = 1%Z.
Proof.
  revert k. induction items as [|it items IH]; intros k Hk Hcov Huniq; [done|].
  destruct k as [|k]; simpl in Hk.
  - injection Hk as ->. simpl. rewrite bool_decide_eq_true_2 by done.
    destruct (uncovered_sum_count items n i j) as [-> ->]; [|split; lia].
    intros item' [k' Hk']%list_elem_of_lookup Hcov'.
    by specialize (Huniq (S k') item' Hk' Hcov').
  - simpl. rewrite bool_decide_eq_false_2.
    + destruct (IH k Hk Hcov) as [-> ->]; [|split; lia].
      intros k' item' Hk' Hcov'.
      specialize (Huniq (S k') item' Hk' Hcov'). lia.
    + intros Hcov0. by specialize (Huniq 0 it eq_refl Hcov0).
Qed.

(** X6.  Where tiles do not overlap, nothing is averaged.  Let every
    prediction broadcast into its slice and hold class values in [0, 255].
    A pixel that no tile covers gets 0 (the [max(count, 1)] floor); a pixel
    that exactly one tile covers gets the value that this tile's prediction
    holds at the pixel's offset in the tile. *)
Theorem reconstruct_no_overlap (predictions : list (list (list Z)))
    (positions : list (nat * nat)) (h w patch_size : nat) :
  Forall (fits h w patch_size) (zip predictions positions) →
  Forall uint8_valued predictions →
  ∃ mask,
    reconstruct_from_patches predictions positions (h, w) patch_size = Some mask
    ∧ ∀ i j, i < h → j < w →
        ((∀ item, item ∈ zip predictions positions →
            ¬ covers patch_size item.2 i j) →
         px mask i j = Some 0%Z)
        ∧ (∀ k pred pos,
             zip predictions positions !! k = Some (pred, pos) →
             covers patch_size pos i j →
             (∀ k' item', zip predictions positions !! k' = Some item' →
                covers patch_size item'.2 i j → k' = k) →
             px mask i j = Some (pred_at pred (i - pos.1) (j - pos.2))).
Proof.
  intros Hfits Hvals.
  destruct (reconstruct_px predictions positions h w patch_size Hfits)
    as (mask & Hrec & Hpx).
  exists mask. split; [done|]. intros i j Hi Hj. rewrite Hpx by done. split.
  - intros Hnone. destruct (uncovered_sum_count _ _ _ _ Hnone) as [-> ->]. done.
  - intros k pred pos Hk Hcov Huniq.
    destruct (single_cover_sum_count _ _ _ _ _ _ Hk Hcov Huniq) as [-> ->].
    simpl. f_equal.
    assert (uint8_valued pred) as Hpred.
    { rewrite Forall_forall in Hvals. apply Hvals.
      eapply elem_of_zip_l, list_elem_of_lookup_2, Hk. }
    pose proof (pred_at_bounds pred (i - pos.1) (j - pos.2) Hpred).
    unfold astype_uint8. rewrite Z.quot_1_r. apply Z.mod_small. lia.
Qed.

Lemma reconstruct_no_overlap_witness :
  ∃ mask,
    reconstruct_from_patches [[[3; 4]; [5; 6]]]%Z [(0, 1)] (2, 4) 2 = Some mask
    ∧ ∀ i j, i < 2 → j < 4 →
        ((∀ item, item ∈ zip [[[3; 4]; [5; 6]]]%Z [(0, 1)] →
            ¬ covers 2 item.2 i j) →
         px mask i j = Some 0%Z)
        ∧ (∀ k pred pos,
             zip [[[3; 4]; [5; 6]]]%Z [(0, 1)] !! k = Some (pred, pos) →
             covers 2 pos i j →
             (∀ k' item', zip [[[3; 4]; [5; 6]]]%Z [(0, 1)] !! k' = Some item' →
                covers 2 item'.2 i j → k' = k) →
             px mask i j = Some (pred_at pred (i - pos.1) (j - pos.2))).
Proof.
  apply (reconstruct_no_overlap [[[3; 4]; [5; 6]]]%Z [(0, 1)] 2 4 2).
  - repeat constructor.
  - repeat constructor; simpl; lia.
Defined.

Example reconstruct_one_tile :
  reconstruct_from_patches [[[3; 4]; [5; 6]]]%Z [(0, 1)] (2, 4) 2
  = Some [[0; 3; 4; 0]; [0; 5; 6; 0]]%Z.
Proof. reflexivity. Qed.

(** * Tiling, prediction and reconstruction together *)

Lemma sum_at_pointwise (items : list (list (list Z) * (nat * nat))) n i j v :
  (∀ item, item ∈ items → covers n item.2 i j →
     pred_at item.1 (i - item.2.1) (j - item.2.2) = v) →
  sum_at items n i j = (v * count_at items n i j)%Z.
Proof.
  induction items as [|item items IH]; intros Hv; simpl; [lia|].
  rewrite IH by (intros item' Hin; apply Hv; by right).
  case_bool_decide as Hcov; [|lia]. rewrite (Hv item) by (done || left). lia.
Qed.

Lemma pred_at_fmap {A} (g : A → Z) (patch : list (list A)) n r c p :
  height patch = n → rect n patch → r < n → c < n →
  px patch r c = Some p →
  pred_at (map (map g) patch) r c = g p.
Proof.
  intros Hh Hrect Hr Hc Hp. unfold pred_at.
  assert (height (map (map g) patch) = n) as ->.
  { unfold height in *. by rewrite length_map. }
  assert (width (map (map g) patch) = n) as ->.
  { destruct patch as [|row patch]; [simpl in Hh; lia|]. simpl.
    rewrite length_map. by inversion Hrect. }
  assert ((if n =? 1 then 0 else r) = r) as ->.
  { destruct (Nat.eqb_spec n 1); lia. }
  assert ((if n =? 1 then 0 else c) = c) as ->.
  { destruct (Nat.eqb_spec n 1); lia. }
  unfold px in *. rewrite list_lookup_fmap.
  destruct (patch !! r) as [row|]; simpl in *; [|done].
  by rewrite list_lookup_fmap, Hp.
Qed.

Lemma px_crop_to {B} (a : list (list B)) h w i j :
  i < h → j < w → px (crop_to a h w) i j = px a i j.
Proof.
  intros Hi Hj. unfold px, crop_to. rewrite list_lookup_fmap.
  rewrite lookup_take_lt by done.
  destruct (a !! i) as [row|]; simpl; [|done]. by rewrite lookup_take_lt.
Qed.

Lemma crop_to_shape {B} (a : list (list B)) h w H W :
  height a = H → rect W a → h ≤ H → w ≤ W →
  height (crop_to a h w) = h ∧ rect w (crop_to a h w).
Proof.
  unfold height, crop_to, rect. intros Ha Hrect Hh Hw. split.
  - rewrite length_map, length_take. lia.
  - apply Forall_fmap, Forall_take. eapply Forall_impl; [exact Hrect|].
    simpl. intros row Hrow. rewrite length_take. lia.
Qed.

(** The reconstruction of pixel-wise predictions on the tiles of
    [extract_patches]: every tile votes [g] of the pixel, so the average is
    [g] of the pixel. *)
Lemma reconstruct_pixelwise_padded {A} (g : A → Z) (padded : list (list A))
    (n : nat) :
  (∀ p, 0 ≤ g p ≤ 255)%Z →
  0 < n → n ≤ height padded → n ≤ width padded →
  rect (width padded) padded →
  ∃ mask,
    reconstruct_from_patches
      (map (map (map g)) (sweep_tiles padded n).1) (sweep_tiles padded n).2
      (height padded, width padded) n = Some mask
    ∧ ∀ i j, i < height padded → j < width padded →
        px mask i j = g <$> px padded i j.
Proof.
  intros Hg Hn Hh Hw Hrect.
  pose proof (sweep_tiles_ok padded n) as Hok.
  destruct (sweep_tiles padded n) as [patches positions] eqn:Hsw.
  unfold tiles_ok in Hok. simpl in Hok. simpl.
  set (predictions := map (map (map g)) patches).
  assert (∀ pred pos, (pred, pos) ∈ zip predictions positions →
            pos ∈ (sweep_tiles padded n).2
            ∧ pred = map (map g) (crop padded pos.1 pos.2 n)) as Hitem.
  { intros pred pos [k Hk]%list_elem_of_lookup.
    apply lookup_zip_with_Some in Hk as (pred' & pos' & [= <- <-] & Hp & Hq).
    split; [rewrite Hsw; by eapply list_elem_of_lookup_2|].
    unfold predictions in Hp. rewrite Hok, !list_lookup_fmap, Hq in Hp.
    simpl in Hp. by injection Hp as <-. }
  assert (∀ pos, pos ∈ (sweep_tiles padded n).2 →
            pos.1 + n ≤ height padded ∧ pos.2 + n ≤ width padded) as Hin.
  { intros pos. by apply sweep_tiles_in_bounds. }
  assert (Forall (fits (height padded) (width padded) n)
            (zip predictions positions)) as Hfits.
  { apply Forall_forall. intros [pred pos] Hzip.
    destruct (Hitem _ _ Hzip) as [Hpos ->]. destruct (Hin _ Hpos) as [Hy Hx].
    destruct (crop_shape padded (width padded) pos.1 pos.2 n) as [Hch Hcr];
      [done..|].
    destruct pos as [y x]. apply fits_tile; [| |done..].
    - unfold height in *. by rewrite length_map.
    - simpl in *. destruct (crop padded y x n) as [|row rows];
        [simpl in Hch; lia|].
      simpl. rewrite length_map. by inversion Hcr. }
  destruct (reconstruct_px predictions positions _ _ n Hfits)
    as (mask & Hrec & Hpx).
  exists mask. split; [done|]. intros i j Hi Hj. rewrite Hpx by done.
  destruct (px_is_Some padded (width padded) i j) as [p Hp]; [done..|].
  rewrite Hp. simpl. f_equal.
  rewrite (sum_at_pointwise _ _ _ _ (g p)).
  - destruct (sweep_tiles_covers padded n i j) as (pos & Hpos & Hcov);
      [done..|].
    rewrite Hsw in Hpos. simpl in Hpos.
    assert (length predictions = length positions) as Hlen.
    { unfold predictions. by rewrite Hok, !length_map. }
    destruct (covered_item predictions positions pos Hlen Hpos) as [pred Hz].
    apply constant_average; [done|].
    exact (count_at_covered _ n i j _ Hz Hcov).
  - intros [pred pos] Hzip Hcov. simpl in *.
    destruct (Hitem _ _ Hzip) as [Hpos ->]. destruct (Hin _ Hpos) as [Hy Hx].
    destruct Hcov as [Hci Hcj].
    destruct (crop_shape padded (width padded) pos.1 pos.2 n) as [Hch Hcr];
      [done..|].
    apply (pred_at_fmap g _ n); [done|done|lia|lia|].
    rewrite px_crop by lia.
    replace (pos.1 + (i - pos.1)) with i by lia.
    replace (pos.2 + (j - pos.2)) with j by lia. done.
Qed.

(** X7.  Tiling is transparent to a pixel-wise model.  Let the model classify
    each pixel on its own: its prediction on a tile is [g] applied to every
    preprocessed pixel, with [g] a class in [0, 255].  Then for every
    non-empty rectangular image and positive tile size
    [segment_image_with_patches] returns a mask of the image's shape that
    holds, at every pixel, [g] of the preprocessed pixel: padding, tiling,
    overlap averaging and the final crop leave no trace. *)
Theorem segment_pixelwise (E : env) (g : list Q → Z)
    (image_array : list (list (list Z))) (patch_size batch_size : nat) :
  (∀ p, 0 ≤ g p ≤ 255)%Z →
  (∀ patches b, predict E patches b = inr (map (map (map g)) patches)) →
  0 < patch_size → 0 < height image_array → 0 < width image_array →
  rect (width image_array) image_array →
  ∃ mask,
    segment_image_with_patches E image_array patch_size batch_size = inr mask
    ∧ height mask = height image_array
    ∧ rect (width image_array) mask
    ∧ ∀ i j, i < height image_array → j < width image_array →
        px mask i j = (λ p, g (preprocess_input E p)) <$> px image_array i j.
Proof.
  intros Hg Hpredict Hn Hh Hw Hrect.
  set (pre := map (map (preprocess_input E)) image_array).
  assert (height pre = height image_array) as Hph.
  { unfold pre, height. by rewrite length_map. }
  assert (width pre = width image_array) as Hpw.
  { unfold pre. destruct image_array; [done|]. simpl. by rewrite length_map. }
  assert (rect (width pre) pre) as Hprect.
  { rewrite Hpw. unfold pre, rect in *. apply Forall_fmap.
    eapply Forall_impl; [exact Hrect|]. simpl. intros row Hrow.
    by rewrite length_map. }
  destruct (extract_patches_returns pre patch_size) as
    (padded & Hpad & Hh' & Hw' & Hex); [lia..|].
  assert (0 < height pre) as Hph0 by lia.
  assert (0 < width pre) as Hpw0 by lia.
  pose proof (pad_small_rect _ _ _ Hph0 Hpw0 Hprect Hpad) as Hrect'.
  destruct (reconstruct_pixelwise_padded g padded patch_size)
    as (full & Hrec & Hpx); [done|done|lia|lia|done|].
  unfold segment_image_with_patches. fold pre. rewrite Hex.
  destruct (sweep_tiles padded patch_size) as [patches positions] eqn:Hsw.
  rewrite Hpredict. cbn [fst snd] in Hrec. rewrite Hrec.
  eexists. split; [done|].
  destruct (reconstruct_from_patches_shape _ _ _ _ _ _ Hrec) as [Hfh Hfr].
  destruct (crop_to_shape full (height image_array) (width image_array)
              (height padded) (width padded)) as [Hch Hcr]; [done|done|lia..|].
  simpl. split_and!; [done|done|].
  intros i j Hi Hj. rewrite px_crop_to by done.
  rewrite Hpx by lia.
  rewrite (pad_small_px pre patch_size padded i j) by (done || lia).
  rewrite !reflect_index_id by lia.
  unfold pre, px. rewrite list_lookup_fmap.
  destruct (image_array !! i) as [row|]; simpl; [|done].
  rewrite list_lookup_fmap. by destruct (row !! j).
Qed.

Lemma bright_class_bounds (p : list Q) : (0 ≤ bright_class p ≤ 255)%Z.
Proof.
  unfold bright_class. destruct p as [|q p]; [lia|].
  destruct (Qle_bool 128 q); lia.
Qed.

Lemma segment_pixelwise_witness :
  ∃ mask,
    segment_image_with_patches pixelwise_model
      [[[200; 0; 0]; [10; 0; 0]; [130; 0; 0]];
       [[0; 9; 9]; [255; 9; 9]; [127; 9; 9]]]%Z 2 8 = inr mask
    ∧ height mask = 2
    ∧ rect 3 mask
    ∧ ∀ i j, i < 2 → j < 3 →
        px mask i j
        = (λ p, bright_class (preprocess_input pixelwise_model p))
          <$> px [[[200; 0; 0]; [10; 0; 0]; [130; 0; 0]];
                  [[0; 9; 9]; [255; 9; 9]; [127; 9; 9]]]%Z i j.
Proof.
  apply (segment_pixelwise pixelwise_model bright_class
           [[[200; 0; 0]; [10; 0; 0]; [130; 0; 0]];
            [[0; 9; 9]; [255; 9; 9]; [127; 9; 9]]]%Z 2 8).
  - exact bright_class_bounds.
  - reflexivity.
  - lia.
  - simpl; lia.
  - simpl; lia.
  - repeat constructor.
Defined.

Example segment_pixelwise_sample :
  segment_image_with_patches pixelwise_model
    [[[200; 0; 0]; [10; 0; 0]; [130; 0; 0]];
     [[0; 9; 9]; [255; 9; 9]; [127; 9; 9]]]%Z 2 8
  = inr [[1; 0; 1]; [0; 1; 0]]%Z.
Proof. reflexivity. Qed.

(** X8.  The shape of a segmentation.  Whatever the model returns, when
    [segment_image_with_patches] returns a mask for a rectangular image, the
    mask has the image's height and width (the padding is cropped away), and
    the image is not empty and the tile size not zero. *)
Theorem segment_shape (E : env) (image_array : list (list (list Z)))
    (patch_size batch_size : nat) (mask : list (list Z)) :
  rect (width image_array) image_array →
  segment_image_with_patches E image_array patch_size batch_size = inr mask →
  height mask = height image_array
  ∧ rect (width image_array) mask
  ∧ 0 < patch_size ∧ 0 < height image_array ∧ 0 < width image_array.
Proof.
  intros Hrect. unfold segment_image_with_patches.
  set (pre := map (map (preprocess_input E)) image_array).
  assert (height pre = height image_array) as Hph.
  { unfold pre, height. by rewrite length_map. }
  assert (width pre = width image_array) as Hpw.
  { unfold pre. destruct image_array; [done|]. simpl. by rewrite length_map. }
  destruct (extract_patches pre patch_size) as [[[patches positions] [h w]]|]
    eqn:Hex; [|done].
  destruct (extract_patches_Some_inv _ _ _ Hex) as (Hn & Hh & Hw).
  destruct (extract_patches_returns pre patch_size Hn Hh Hw)
    as (padded & Hpad & Hh' & Hw' & Hex').
  rewrite Hex in Hex'. injection Hex' as _ -> ->.
  destruct (predict E patches batch_size) as [e|predicted]; [done|].
  destruct (reconstruct_from_patches predicted positions _ patch_size)
    as [full|] eqn:Hrec; [|done].
  intros [= <-].
  destruct (reconstruct_from_patches_shape _ _ _ _ _ _ Hrec) as [Hfh Hfr].
  destruct (crop_to_shape full (height image_array) (width image_array)
              (height padded) (width padded)) as [Hch Hcr]; [done|done|lia..|].
  simpl. split_and!; (done || lia).
Qed.

Lemma segment_shape_witness :
  height [[1; 0; 1]; [0; 1; 0]]%Z = 2
  ∧ rect 3 [[1; 0; 1]; [0; 1; 0]]%Z
  ∧ 0 < 2 ∧ 0 < 2 ∧ 0 < 3.
Proof.
  apply (segment_shape pixelwise_model
           [[[200; 0; 0]; [10; 0; 0]; [130; 0; 0]];
            [[0; 9; 9]; [255; 9; 9]; [127; 9; 9]]]%Z 2 8).
  - repeat constructor.
  - reflexivity.
Defined.

(** * More on the background jobs *)

(** Unfolds a job down to matches on the results of its calls. *)
Ltac unfold_job :=
  unfold background_job, process_image_from_url, process_image_from_url_body,
    process_image_from_url_handler, download_image, process_image_file,
    process_image_file_body, process_image_file_handler, try_except,
    mbind, job_bind, mret, job_ret, raise, call, update_task.

(** Runs the next statement of an unfolded job whose task record is known. *)
Ltac job_step :=
  first
    [ rewrite lookup_insert_eq
    | progress cbn [tasks trace fst snd] ].

(** X9.  A job without its record.  When the task is not in the table (it was
    deleted before the job ran), the job, on either path and whatever the
    environment, raises the [KeyError] of the subscript in its own handler and
    leaves the table and the trace as they were. *)
Theorem job_without_record_raises (E : env) (s : submission) (id : string)
    (threshold : Q) (w : world) :
  tasks w !! id = None →
  background_job E s id threshold w = (inl (Exception ("'" +:+ id +:+ "'")), w).
Proof.
  intros Hnone. destruct s as [file_path|url]; unfold_job;
    destruct (model_loaded E); by rewrite ?Hnone.
Qed.

Lemma job_without_record_raises_witness :
  background_job failing_model (Upload "uploads/t2_field.png") "t2" (1 # 2)
    (start one_queued)
  = (inl (Exception ("'" +:+ "t2" +:+ "'")), start one_queued).
Proof.
  apply (job_without_record_raises failing_model (Upload "uploads/t2_field.png")
           "t2" (1 # 2) (start one_queued)).
  reflexivity.
Defined.

(** X10.  A job on a server without a model.  When the model is not loaded, the
    job (on either path) makes exactly one update: it sets the status to
    [error] and the message to its handler's text followed by
    [Model not loaded]; progress and every other field of the record stay as
    they were, and the job returns normally. *)
Theorem job_model_not_loaded (E : env) (s : submission) (id : string)
    (threshold : Q) (w : world) (t0 : task) :
  model_loaded E = false → tasks w !! id = Some t0 →
  background_job E s id threshold w
  = (inr (),
     {| tasks := <[id := set_error (job_prefix s +:+ "Model not loaded") t0]>
                   (tasks w);
        trace := trace w
                 ++ [<[id := set_error (job_prefix s +:+ "Model not loaded") t0]>
                       (tasks w)] |}).
Proof.
  intros Hmodel Hid. destruct s as [file_path|url]; unfold_job;
    rewrite Hmodel; by rewrite Hid.
Qed.

Lemma job_model_not_loaded_witness :
  background_job no_model (Url "http://example.org/field.png") "t1" (1 # 2)
    (start one_queued)
  = (inr (),
     {| tasks := <["t1" := set_error
                     (job_prefix (Url "http://example.org/field.png")
                      +:+ "Model not loaded") (new_url_task "t1" 0)]>
                   (tasks (start one_queued));
        trace := trace (start one_queued)
                 ++ [<["t1" := set_error
                         (job_prefix (Url "http://example.org/field.png")
                          +:+ "Model not loaded") (new_url_task "t1" 0)]>
                       (tasks (start one_queued))] |}).
Proof.
  apply (job_model_not_loaded no_model (Url "http://example.org/field.png")
           "t1" (1 # 2) (start one_queued) (new_url_task "t1" 0));
    reflexivity.
Defined.

(** X11.  A failed download.  When the model is loaded and the download (or
    saving the downloaded bytes) raises [e], the URL job makes exactly two
    updates: [downloading] with progress 10, then [error] with the message
    [Error processing URL: ] followed by [str(e)] and progress still 10.  The
    image is never loaded, the task never completes, no other task changes
    and the job returns normally. *)
Theorem url_job_download_fails (E : env) (url id : string) (threshold : Q)
    (w : world) (t0 : task) (e : exn) :
  model_loaded E = true →
  requests_get E url = inl e
  ∨ (∃ content, requests_get E url = inr content
                ∧ write_file E (url_input_path id) content = inl e) →
  tasks w !! id = Some t0 →
  let t1 := set_stage "downloading" 10 "Downloading image..." t0 in
  let t2 := set_error ("Error processing URL: " +:+ str e) t1 in
  ∃ w',
    process_image_from_url E url id threshold w = (inr (), w')
    ∧ records_of id (trace w') = records_of id (trace w) ++ [t1; t2]
    ∧ tasks w' !! id = Some t2
    ∧ status t2 = "error" ∧ progress t2 = 10%Z ∧ result t2 = result t0
    ∧ ∀ o, o ≠ id → tasks w' !! o = tasks w !! o.
Proof.
  intros Hmodel Hfail Hid t1 t2.
  assert (process_image_from_url E url id threshold w
          = (inr (),
             {| tasks := <[id := t2]> (<[id := t1]> (tasks w));
                trace := (trace w ++ [<[id := t1]> (tasks w)])
                         ++ [<[id := t2]> (<[id := t1]> (tasks w))] |})) as ->.
  { unfold_job. rewrite Hmodel, Hid.
    destruct Hfail as [->|(content & -> & ->)]; repeat job_step; done. }
  eexists. split; [done|]. cbn [tasks trace]. split_and!; try done.
  - unfold records_of. rewrite !omap_app. simpl.
    rewrite !lookup_insert_eq. by rewrite <- app_assoc.
  - by rewrite lookup_insert_eq.
  - intros o Ho. by rewrite !lookup_insert_ne.
Qed.

Lemma url_job_download_fails_witness :
  let t1 := set_stage "downloading" 10 "Downloading image..."
              (new_url_task "t1" 0) in
  let t2 := set_error ("Error processing URL: "
                       +:+ str (Exception "404 Client Error")) t1 in
  ∃ w',
    process_image_from_url offline
      "http://example.org/missing.png" "t1" (1 # 2) (start one_queued)
    = (inr (), w')
    ∧ records_of "t1" (trace w')
      = records_of "t1" (trace (start one_queued)) ++ [t1; t2]
    ∧ tasks w' !! "t1" = Some t2
    ∧ status t2 = "error" ∧ progress t2 = 10%Z
    ∧ result t2 = result (new_url_task "t1" 0)
    ∧ ∀ o, o ≠ "t1" → tasks w' !! o = tasks (start one_queued) !! o.
Proof.
  apply (url_job_download_fails offline "http://example.org/missing.png" "t1"
           (1 # 2) (start one_queued) (new_url_task "t1" 0)
           (Exception "404 Client Error")).
  - reflexivity.
  - left. reflexivity.
  - reflexivity.
Defined.



Section JobKeeps.
Context (id : string).

Lemma job_keeps_pure {B} (r : exn + B) : job_keeps id (λ w, (r, w)).
Proof. intros w t Ht. by exists r, w, t. Qed.

Lemma job_keeps_update (f : task → task) :
  (∀ t, same_identity t (f t)) → job_keeps id (update_task id f).
Proof.
  intros Hf w t Ht. unfold update_task. rewrite Ht.
  eexists _, _, (f t). split_and!; [done| |done|]; cbn [tasks].
  - by rewrite lookup_insert_eq.
  - rewrite dom_insert_L. apply elem_of_dom_2 in Ht.
    by apply subseteq_union_1_L, singleton_subseteq_l.
Qed.

Lemma job_keeps_bind {B C} (m : job B) (f : B → job C) :
  job_keeps id m → (∀ x, job_keeps id (f x)) → job_keeps id (m ≫= f).
Proof.
  intros Hm Hf w t Ht. destruct (Hm w t Ht) as (r & w1 & t1 & Hrun & Ht1 & Hid1 & Hd1).
  unfold mbind, job_bind. rewrite Hrun. destruct r as [e|x].
  - by exists (inl e), w1, t1.
  - destruct (Hf x w1 t1 Ht1) as (r2 & w2 & t2 & Hrun2 & Ht2 & Hid2 & Hd2).
    exists r2, w2, t2. split_and!; [done|done| |congruence].
    destruct Hid1, Hid2. split; congruence.
Qed.

Lemma job_keeps_try (m : job unit) (h : exn → job unit) :
  job_keeps id m → (∀ e, job_keeps id (h e)) → job_keeps id (try_except m h).
Proof.
  intros Hm Hh w t Ht. destruct (Hm w t Ht) as (r & w1 & t1 & Hrun & Ht1 & Hid1 & Hd1).
  unfold try_except. rewrite Hrun. destruct r as [e|[]].
  - destruct (Hh e w1 t1 Ht1) as (r2 & w2 & t2 & Hrun2 & Ht2 & Hid2 & Hd2).
    exists r2, w2, t2. split_and!; [done|done| |congruence].
    destruct Hid1, Hid2. split; congruence.
  - by exists (inr ()), w1, t1.
Qed.

End JobKeeps.

(** Breaks a job into its statements, each of which keeps the record. *)
Ltac job_keeps :=
  repeat first
    [ apply job_keeps_try; [|intros ?]
    | apply job_keeps_bind; [|intros ?]
    | apply job_keeps_update; by intros ?
    | apply job_keeps_pure
    | match goal with |- job_keeps _ (if ?b then _ else _) => destruct b end ].

Lemma background_job_keeps (E : env) (s : submission) (id : string)
    (threshold : Q) :
  job_keeps id (background_job E s id threshold).
Proof.
  destruct s as [file_path|url];
    unfold background_job, process_image_from_url, process_image_from_url_body,
      process_image_from_url_handler, download_image, process_image_file,
      process_image_file_body, process_image_file_handler, raise, call, mret,
      job_ret;
    job_keeps.
Qed.

(** X13.  What a job never touches.  Started on a table that holds its task, a
    job (on either path, whatever its calls do) leaves the task in the table
    with its [task_id] and [created_at] unchanged, and the table holds exactly
    the same task ids afterwards: a job neither creates nor deletes records. *)
Theorem job_keeps_table (E : env) (s : submission) (id : string)
    (threshold : Q) (w : world) (t0 : task) :
  tasks w !! id = Some t0 →
  ∃ r w' t,
    background_job E s id threshold w = (r, w')
    ∧ tasks w' !! id = Some t
    ∧ task_id t = task_id t0
    ∧ created_at t = created_at t0
    ∧ dom (tasks w') = dom (tasks w).
Proof.
  intros Hid.
  destruct (background_job_keeps E s id threshold w t0 Hid)
    as (r & w' & t & Hrun & Ht & [Hi Hc] & Hdom).
  by exists r, w', t.
Qed.

Lemma job_keeps_table_witness :
  ∃ r w' t,
    background_job failing_model (Url "http://example.org/field.png") "t1"
      (1 # 2) (start one_queued) = (r, w')
    ∧ tasks w' !! "t1" = Some t
    ∧ task_id t = task_id (new_url_task "t1" 0)
    ∧ created_at t = created_at (new_url_task "t1" 0)
    ∧ dom (tasks w') = dom (tasks (start one_queued)).
Proof.
  apply (job_keeps_table failing_model (Url "http://example.org/field.png")
           "t1" (1 # 2) (start one_queued) (new_url_task "t1" 0)).
  reflexivity.
Defined.

(** * The task endpoints *)

(** Task [a] is at least as new as task [b]. *)
Local Abbreviation newer := (λ a b : task, (created_at b ≤ created_at a)%Z).

Lemma insert_newest_perm t l : insert_newest t l ≡ₚ t :: l.
Proof.
  induction l as [|u l IH]; simpl; [done|].
  destruct (created_at u <=? created_at t)%Z; [done|].
  rewrite IH. apply Permutation_swap.
Qed.

Lemma sort_newest_perm l : sort_newest l ≡ₚ l.
Proof.
  induction l as [|t l IH]; simpl; [done|].
  by rewrite insert_newest_perm, IH.
Qed.

Lemma insert_newest_sorted t l :
  StronglySorted newer l → StronglySorted newer (insert_newest t l).
Proof.
  induction 1 as [|u l Hsorted IH Hall]; simpl.
  - by repeat constructor.
  - destruct (Z.leb_spec (created_at u) (created_at t)) as [Hle|Hgt].
    + constructor; [by constructor|]. constructor; [done|].
      eapply Forall_impl; [exact Hall|]. simpl. lia.
    + constructor; [done|]. rewrite insert_newest_perm.
      constructor; [lia|done].
Qed.

Lemma sort_newest_sorted l : StronglySorted newer (sort_newest l).
Proof.
  induction l as [|t l IH]; simpl; [constructor|].
  by apply insert_newest_sorted.
Qed.

(** X14.  Listing tasks.  [list_tasks] returns tasks of the table that match
    the status filter, newest first: each returned task is at least as new as
    every task after it and as every matching task that was cut off.  Together
    with the tasks cut off the result holds each matching task once.  A
    non-negative [limit] bounds the length; a negative one, which the endpoint
    does not reject, drops that many of the oldest matching tasks instead. *)
Theorem list_tasks_newest_first (values : list task) (limit : Z)
    (st : option string) :
  let matching := filter (λ t, status_matches st t = true) values in
  let listed := list_tasks values limit st in
  StronglySorted newer listed
  ∧ (∀ t, t ∈ listed → t ∈ values ∧ status_matches st t = true)
  ∧ (∃ cut, listed ++ cut ≡ₚ matching
            ∧ ∀ a b, a ∈ listed → b ∈ cut → (created_at b ≤ created_at a)%Z)
  ∧ length listed
    = (if (0 <=? limit)%Z then Nat.min (Z.to_nat limit) (length matching)
       else length matching - Z.to_nat (- limit)).
Proof.
  intros matching listed.
  assert (∃ k, listed = take k (sort_newest matching)
               ∧ length listed
                 = (if (0 <=? limit)%Z
                    then Nat.min (Z.to_nat limit) (length matching)
                    else length matching - Z.to_nat (- limit)))
    as (k & Hk & Hlen).
  { unfold listed, list_tasks, py_slice_to. fold matching.
    assert (length (sort_newest matching) = length matching) as Hl
      by (by rewrite sort_newest_perm).
    destruct (0 <=? limit)%Z; eexists; (split; [done|]);
      rewrite length_take, Hl; lia. }
  pose proof (sort_newest_sorted matching) as Hsorted.
  rewrite <- (take_drop k (sort_newest matching)) in Hsorted.
  rewrite <- Hk in Hsorted.
  split_and!; [|..|done].
  - by eapply StronglySorted_app_1_l.
  - intros t Ht. rewrite Hk in Ht. apply subseteq_take in Ht.
    rewrite sort_newest_perm in Ht.
    by apply list_elem_of_filter in Ht as [? ?].
  - exists (drop k (sort_newest matching)). split.
    + by rewrite Hk, take_drop, sort_newest_perm.
    + intros a b Ha Hb.
      by apply (StronglySorted_app_1_elem_of _ _ _ a b Hsorted).
Qed.

Lemma unlink_matching_all (unlink : string → option exn) directory id names :
  (∀ name, name ∈ names → startswith name (id +:+ "_") = true →
     unlink (path_join directory name) = None) →
  unlink_matching unlink directory id names
  = (None, filter (λ name, startswith name (id +:+ "_") = false) names).
Proof.
  induction names as [|name names IH]; intros Hok; [done|].
  simpl. rewrite filter_cons.
  destruct (startswith name (id +:+ "_")) eqn:Hstart.
  - rewrite (Hok name) by (done || left).
    rewrite IH by (intros n Hn; apply Hok; by right).
    by rewrite decide_False.
  - rewrite IH by (intros n Hn; apply Hok; by right).
    by rewrite decide_True.
Qed.

Lemma unlink_matching_stopped (unlink : string → option exn) directory id names
    e kept :
  unlink_matching unlink directory id names = (Some e, kept) →
  kept ⊆ names
  ∧ ∃ name, name ∈ names ∧ startswith name (id +:+ "_") = true
            ∧ unlink (path_join directory name) = Some e.
Proof.
  revert kept. induction names as [|name names IH]; intros kept; [done|].
  simpl. destruct (startswith name (id +:+ "_")) eqn:Hstart.
  - destruct (unlink (path_join directory name)) as [e'|] eqn:Hun.
    + intros [= -> <-]. split; [done|]. exists name. split; [left|done].
    + intros Hrec. destruct (IH _ Hrec) as [Hsub (n & Hn & Hs & Hu)].
      split; [intros x Hx; right; by apply Hsub|].
      exists n. split; [by right|done].
  - destruct (unlink_matching unlink directory id names) as [r kept'] eqn:Hrec.
    intros [= -> <-]. destruct (IH _ eq_refl) as [Hsub (n & Hn & Hs & Hu)].
    split.
    + intros x [->|Hx]%elem_of_cons; [left|right; by apply Hsub].
    + exists n. split; [by right|done].
Qed.

Lemma unlink_matching_kept (unlink : string → option exn) directory id names
    r kept :
  unlink_matching unlink directory id names = (r, kept) → kept ⊆ names.
Proof.
  revert r kept. induction names as [|name names IH]; intros r kept.
  - by intros [= <- <-].
  - simpl. destruct (startswith name (id +:+ "_")).
    + destruct (unlink (path_join directory name)).
      * by intros [= <- <-].
      * intros Hrec x Hx. right. by apply (IH r kept).
    + destruct (unlink_matching unlink directory id names) as [r' kept'].
      intros [= <- <-]. specialize (IH _ _ eq_refl).
      intros x [->|Hx]%elem_of_cons; [left|right; by apply IH].
Qed.

(** X15.  Deleting a task.  When the task is in the table and every file
    named [{task_id}_...] in the two directories can be removed,
    [delete_task] succeeds: the record is gone, so polling the task and
    deleting it again both answer 404; every other task is untouched; and of
    each directory exactly the entries whose names do not start with
    [{task_id}_] remain. *)
Theorem delete_task_removes (unlink : string → option exn)
    (ts : gmap string task) (fs : files) (id : string) :
  is_Some (ts !! id) →
  (∀ name, name ∈ uploads fs → startswith name (id +:+ "_") = true →
     unlink (path_join UPLOAD_DIR name) = None) →
  (∀ name, name ∈ results fs → startswith name (id +:+ "_") = true →
     unlink (path_join RESULTS_DIR name) = None) →
  ∃ ts' fs',
    delete_task unlink ts fs id = (inr "Task deleted successfully", (ts', fs'))
    ∧ ts' = delete id ts
    ∧ get_task_status ts' id = inl (HTTPException 404 "Task not found")
    ∧ (∀ o, o ≠ id → get_task_status ts' o = get_task_status ts o)
    ∧ uploads fs' = filter (λ name, startswith name (id +:+ "_") = false)
                      (uploads fs)
    ∧ results fs' = filter (λ name, startswith name (id +:+ "_") = false)
                      (results fs)
    ∧ delete_task unlink ts' fs' id
      = (inl (HTTPException 404 "Task not found"), (ts', fs')).
Proof.
  intros [t Ht] Hup Hres. unfold delete_task at 1. rewrite Ht.
  rewrite (unlink_matching_all _ _ _ _ Hup), (unlink_matching_all _ _ _ _ Hres).
  eexists _, _. split_and!; try done.
  - unfold get_task_status. by rewrite lookup_delete_eq.
  - intros o Ho. unfold get_task_status. by rewrite lookup_delete_ne.
  - unfold delete_task. by rewrite lookup_delete_eq.
Qed.

Lemma delete_task_removes_witness :
  ∃ ts' fs',
    delete_task (λ _, None) one_queued
      {| uploads := ["t1_input"; "t2_input"];
         results := ["t1_result.png"; "t1_overlay.png"; "t10_result.png"] |}
      "t1"
    = (inr "Task deleted successfully", (ts', fs'))
    ∧ ts' = delete "t1" one_queued
    ∧ get_task_status ts' "t1" = inl (HTTPException 404 "Task not found")
    ∧ (∀ o, o ≠ "t1" → get_task_status ts' o = get_task_status one_queued o)
    ∧ uploads fs'
      = filter (λ name, startswith name ("t1" +:+ "_") = false)
          ["t1_input"; "t2_input"]
    ∧ results fs'
      = filter (λ name, startswith name ("t1" +:+ "_") = false)
          ["t1_result.png"; "t1_overlay.png"; "t10_result.png"]
    ∧ delete_task (λ _, None) ts' fs' "t1"
      = (inl (HTTPException 404 "Task not found"), (ts', fs')).
Proof.
  apply (delete_task_removes (λ _, None) one_queued
           {| uploads := ["t1_input"; "t2_input"];
              results := ["t1_result.png"; "t1_overlay.png"; "t10_result.png"] |}
           "t1").
  - eexists. reflexivity.
  - reflexivity.
  - reflexivity.
Defined.

Example delete_task_sample :
  (delete_task (λ _, None) one_queued
     {| uploads := ["t1_input"; "t2_input"];
        results := ["t1_result.png"; "t1_overlay.png"; "t10_result.png"] |}
     "t1").2.2
  = {| uploads := ["t2_input"]; results := ["t10_result.png"] |}.
Proof. reflexivity. Qed.

(** X16.  A delete that fails.  Whenever [delete_task] answers with an error,
    the table is exactly as before: the status is 404 if and only if the
    task is not in the table, and otherwise 500, caused by a file named
    [{task_id}_...] that could not be removed, whose exception text the
    detail carries; in that case the record stays although some of the
    task's files may already be gone.  No file is ever added. *)
Theorem delete_task_error_keeps_record (unlink : string → option exn)
    (ts ts' : gmap string task) (fs fs' : files) (id : string)
    (code : nat) (detail : string) :
  delete_task unlink ts fs id = (inl (HTTPException code detail), (ts', fs')) →
  ts' = ts
  ∧ uploads fs' ⊆ uploads fs ∧ results fs' ⊆ results fs
  ∧ (code = 404 ∨ code = 500)
  ∧ (code = 404 ↔ ts !! id = None)
  ∧ (code = 500 →
     ∃ directory name e,
       (directory = UPLOAD_DIR ∧ name ∈ uploads fs
        ∨ directory = RESULTS_DIR ∧ name ∈ results fs)
       ∧ startswith name (id +:+ "_") = true
       ∧ unlink (path_join directory name) = Some e
       ∧ detail = "Error deleting task: " +:+ str e).
Proof.
  unfold delete_task. destruct (ts !! id) as [t|] eqn:Ht.
  - destruct (unlink_matching unlink UPLOAD_DIR id (uploads fs))
      as [[e|] kept_u] eqn:Hu.
    + intros [= <- <- <- <-]. simpl.
      destruct (unlink_matching_stopped _ _ _ _ _ _ Hu) as [Hsub (n & Hn & Hs & He)].
      split_and!; [done|done|done|by right|split; intros; done|].
      intros _. exists UPLOAD_DIR, n, e. split_and!; auto.
    + destruct (unlink_matching unlink RESULTS_DIR id (results fs))
        as [[e|] kept_r] eqn:Hr; [|done].
      intros [= <- <- <- <-]. simpl.
      destruct (unlink_matching_stopped _ _ _ _ _ _ Hr) as [Hsub (n & Hn & Hs & He)].
      pose proof (unlink_matching_kept _ _ _ _ _ _ Hu) as Hsubu.
      split_and!; [done|done|done|by right|split; intros; done|].
      intros _. exists RESULTS_DIR, n, e. split_and!; auto.
  - intros [= <- <- <- <-].
    split_and!; [done|done|done|by left|done|intros; done].
Qed.

Lemma delete_task_error_keeps_record_witness :
  one_queued = one_queued
  ∧ uploads {| uploads := ["t2_input"]; results := ["t1_result.png"] |}
    ⊆ uploads {| uploads := ["t1_input"; "t2_input"];
                 results := ["t1_result.png"] |}
  ∧ results {| uploads := ["t2_input"]; results := ["t1_result.png"] |}
    ⊆ results {| uploads := ["t1_input"; "t2_input"];
                 results := ["t1_result.png"] |}
  ∧ (500 = 404 ∨ 500 = 500)
  ∧ (500 = 404 ↔ one_queued !! "t1" = None)
  ∧ (500 = 500 →
     ∃ directory name e,
       (directory = UPLOAD_DIR
        ∧ name ∈ uploads {| uploads := ["t1_input"; "t2_input"];
                            results := ["t1_result.png"] |}
        ∨ directory = RESULTS_DIR
          ∧ name ∈ results {| uploads := ["t1_input"; "t2_input"];
                              results := ["t1_result.png"] |})
       ∧ startswith name ("t1" +:+ "_") = true
       ∧ (λ path, if String.eqb path "results/t1_result.png"
                  then Some (Exception "Permission denied") else None)
           (path_join directory name) = Some e
       ∧ "Error deleting task: Permission denied"
         = "Error deleting task: " +:+ str e).
Proof.
  apply (delete_task_error_keeps_record
           (λ path, if String.eqb path "results/t1_result.png"
                    then Some (Exception "Permission denied") else None)
           one_queued one_queued
           {| uploads := ["t1_input"; "t2_input"]; results := ["t1_result.png"] |}
           {| uploads := ["t2_input"]; results := ["t1_result.png"] |}
           "t1" 500 "Error deleting task: Permission denied").
  reflexivity.
Defined.

Lemma new_url_task_live id now : live (new_url_task id now).
Proof. split; [|done]. simpl. intros [H|H]; discriminate H. Qed.

(** X17.  A URL submission from start to end.  [segment_image_from_url] puts
    a [queued] record with progress 0 and no result under the new id and
    leaves every other task as it was (a task already stored under that id is
    replaced).  When the scheduled job then runs, in whatever environment, it
    returns normally; polling the task afterwards answers with status
    [completed] or [error], with a result exactly when the status is
    [completed]; and polling any other task answers as before the
    submission. *)
Theorem url_submission_flow (E : env) (ts : gmap string task) (id : string)
    (now : Z) (url : string) (threshold : Q) :
  let ts1 := (segment_image_from_url ts id now url threshold).1 in
  let scheduled := (segment_image_from_url ts id now url threshold).2 in
  scheduled = (Url url, id, threshold)
  ∧ get_task_status ts1 id
    = inr {| r_task_id := id; r_status := "queued"; r_progress := Some 0%Z;
             r_message := "Task queued for processing..."; r_result := None |}
  ∧ (∀ o, o ≠ id → get_task_status ts1 o = get_task_status ts o)
  ∧ ∃ w' polled,
      background_job E scheduled.1.1 scheduled.1.2 scheduled.2 (start ts1)
      = (inr (), w')
      ∧ get_task_status (tasks w') id = inr polled
      ∧ r_task_id polled = id
      ∧ (r_status polled = "completed" ∨ r_status polled = "error")
      ∧ (r_status polled = "completed" ↔ is_Some (r_result polled))
      ∧ ∀ o, o ≠ id → get_task_status (tasks w') o = get_task_status ts o.
Proof.
  intros ts1 scheduled. unfold scheduled, ts1, segment_image_from_url.
  cbn [fst snd]. split_and!; [done| |..].
  - unfold get_task_status. by rewrite lookup_insert_eq.
  - intros o Ho. unfold get_task_status. by rewrite lookup_insert_ne.
  - destruct (background_job_ok E id threshold (Url url)
                (start (<[id := new_url_task id now]> ts)) (new_url_task id now))
      as (r & w' & recs & Hrun & _ & _ & Hlk & Hoth & Hpost).
    { apply lookup_insert_eq. }
    { split; [apply new_url_task_live|simpl; lia]. }
    destruct r as [e|[]]; [done|].
    set (t := default (new_url_task id now) (last recs)) in *.
    exists w'. eexists. unfold get_task_status at 1. rewrite Hlk.
    split_and!; [done|done|done|..]; cbn [r_status r_result].
    + destruct Hpost as [(-> & _)|(e & [(-> & _)|(-> & _)])]; auto.
    + destruct Hpost as [(Hs & _ & Hr)|(e & [(Hs & _ & Hr)|(Hs & _ & Hr)])];
        rewrite Hs, ?Hr; split; try done; by intros [? ?].
    + intros o Ho. unfold get_task_status. rewrite Hoth by done.
      cbn [tasks start]. by rewrite lookup_insert_ne.
Qed.

(** * Loading a geospatial raster *)

Lemma omap_all_Some {B C} (f : B → option C) (l : list B) :
  Forall (λ x, is_Some (f x)) l →
  length (omap f l) = length l ∧ ∀ k, omap f l !! k = l !! k ≫= f.
Proof.
  induction 1 as [|x l [y Hy] _ [IHlen IHlk]]; [done|].
  change (omap f (x :: l))
    with (match f x with Some y => y :: omap f l | None => omap f l end).
  rewrite Hy. split; [simpl; by rewrite IHlen|].
  intros [|k]; simpl; [done|apply IHlk].
Qed.

Lemma px_transpose_120 (a : list (list (list Z))) band0 i j :
  head a = Some band0 → i < height band0 → j < width band0 →
  px (transpose_120 a) i j = Some (omap (λ band, px band i j) a).
Proof.
  intros Hhead Hi Hj. unfold transpose_120, px.
  destruct a as [|band a]; [done|]. injection Hhead as ->.
  rewrite list_lookup_fmap, lookup_seq_lt by done. simpl.
  by rewrite list_lookup_fmap, lookup_seq_lt.
Qed.

(** X18.  Bands become channels.  For a path that ends in [.tif] or [.tiff]
    whose raster has one to four bands of the same [h × w] shape, the loader
    returns an [h × w] image in pixel-first layout: the pixel at [(i, j)]
    holds the value of band [b] at [(i, j)] as its channel [b], for the first
    three bands; a fourth band is dropped. *)
Theorem load_image_bands_to_channels (E : env) (file_path : string)
    (bands : list (list (list Z))) (h w : nat) :
  is_geotiff file_path = true →
  rasterio_read E file_path = inr bands →
  0 < length bands ≤ 4 →
  Forall (λ band, height band = h ∧ rect w band) bands →
  ∃ image_array,
    load_image E file_path = inr image_array
    ∧ height image_array = h
    ∧ rect w image_array
    ∧ ∀ i j, i < h → j < w →
        ∃ pixel,
          px image_array i j = Some pixel
          ∧ length pixel = Nat.min (length bands) 3
          ∧ ∀ b band, b < 3 → bands !! b = Some band →
              pixel !! b = px band i j.
Proof.
  intros Hpath Hread [Hpos Hle] Hbands. unfold load_image.
  rewrite Hpath, Hread.
  destruct (Nat.leb_spec (length bands) 4) as [_|?]; [|lia].
  destruct bands as [|band0 rest]; [simpl in Hpos; lia|].
  set (bands := band0 :: rest) in *.
  assert (head bands = Some band0) as Hhead by done.
  assert (height band0 = h ∧ rect w band0) as [Hh0 Hr0].
  { rewrite Forall_forall in Hbands. apply Hbands. left. }
  assert (0 < h → width band0 = w) as Hw0.
  { intros Hh. destruct band0 as [|row band0]; [simpl in Hh0; lia|].
    simpl. by inversion Hr0. }
  set (T := transpose_120 bands).
  assert (height T = h) as HTh.
  { unfold T, transpose_120, bands, height. fold (height band0).
    by rewrite length_map, length_seq. }
  assert (∀ row, row ∈ T → length row = w) as HTrows.
  { intros row. unfold T, transpose_120, bands.
    intros (i & -> & Hi)%list_elem_of_fmap. apply elem_of_seq in Hi.
    rewrite length_map, length_seq. apply Hw0. lia. }
  assert (∀ i j, i < h → j < w →
            px T i j = Some (omap (λ band, px band i j) bands)) as HTpx.
  { intros i j Hi Hj. apply (px_transpose_120 bands band0); [done|lia|].
    rewrite Hw0; lia. }
  assert (∀ i j, i < h → j < w →
            length (omap (λ band, px band i j) bands) = length bands
            ∧ ∀ k, omap (λ band, px band i j) bands !! k
                   = bands !! k ≫= λ band, px band i j) as Homap.
  { intros i j Hi Hj. apply omap_all_Some.
    eapply Forall_impl; [exact Hbands|]. simpl. intros band [Hbh Hbr].
    apply (px_is_Some band w); (done || lia). }
  eexists. split; [done|].
  set (c := match T with (pixel :: _) :: _ => length pixel | _ => 0 end).
  assert (0 < h → 0 < w → c = length bands) as Hc.
  { intros Hh Hw. specialize (HTpx 0 0 Hh Hw). unfold c, px in *.
    destruct T as [|[|pixel row] T']; simpl in HTpx; try done.
    injection HTpx as ->. by apply Homap. }
  destruct (Nat.ltb_spec 3 c) as [Hcut|Hkeep].
  - split_and!.
    + unfold height in *. by rewrite length_map.
    + unfold rect. apply Forall_fmap, Forall_forall. intros row Hrow. simpl.
      rewrite length_map. by apply HTrows.
    + intros i j Hi Hj. destruct (Homap i j Hi Hj) as [Hlen Hlk].
      exists (take 3 (omap (λ band, px band i j) bands)). split_and!.
      * unfold px in *. rewrite list_lookup_fmap.
        specialize (HTpx i j Hi Hj).
        destruct (T !! i) as [row|]; simpl in *; [|done].
        by rewrite list_lookup_fmap, HTpx.
      * rewrite length_take, Hlen. lia.
      * intros b band Hb3 Hband. rewrite lookup_take_lt by done.
        by rewrite Hlk, Hband.
  - split_and!; [done|by apply Forall_forall|].
    intros i j Hi Hj. destruct (Homap i j Hi Hj) as [Hlen Hlk].
    exists (omap (λ band, px band i j) bands). split_and!.
    + by apply HTpx.
    + rewrite Hlen. rewrite Hc in Hkeep by lia. lia.
    + intros b band Hb3 Hband. by rewrite Hlk, Hband.
Qed.

Lemma load_image_bands_to_channels_witness :
  ∃ image_array,
    load_image rgba_raster "uploads/t1_field.TIF" = inr image_array
    ∧ height image_array = 1
    ∧ rect 2 image_array
    ∧ ∀ i j, i < 1 → j < 2 →
        ∃ pixel,
          px image_array i j = Some pixel
          ∧ length pixel
            = Nat.min (length [[[10; 11]]; [[20; 21]]; [[30; 31]];
                               [[255; 255]]]%Z) 3
          ∧ ∀ b band, b < 3 →
              [[[10; 11]]; [[20; 21]]; [[30; 31]]; [[255; 255]]]%Z !! b
              = Some band →
              pixel !! b = px band i j.
Proof.
  apply (load_image_bands_to_channels rgba_raster "uploads/t1_field.TIF"
           [[[10; 11]]; [[20; 21]]; [[30; 31]]; [[255; 255]]]%Z 1 2).
  - reflexivity.
  - reflexivity.
  - simpl. lia.
  - repeat constructor.
Defined.

Example load_image_rgba :
  load_image rgba_raster "uploads/t1_field.TIF"
  = inr [[[10; 20; 30]; [11; 21; 31]]]%Z.
Proof. reflexivity. Qed.

Example path_suffix_samples :
  path_suffix "field.TIF" = ".TIF"
  ∧ path_suffix "archive.tar.png" = ".png"
  ∧ path_suffix ".hidden" = ""
  ∧ path_suffix "trailing." = ""
  ∧ path_suffix "dir.tif/plain" = ""
  ∧ path_suffix "a/b.jpeg/" = ".jpeg"
  ∧ path_div UPLOAD_DIR ("t1" +:+ "_" +:+ "a//./b.jpeg/") = "uploads/t1_a/b.jpeg"
  ∧ path_div UPLOAD_DIR "/etc/x.png" = "/etc/x.png".
Proof. repeat split. Qed.

(** * Uploads *)

(** [s] ends with [t]. *)
Local Abbreviation ends_with := (λ s t : string, ∃ p : string, s = p +:+ t).

Lemma string_app_assoc (a b c : string) : (a +:+ b) +:+ c = a +:+ (b +:+ c).
Proof.
  induction a as [|x a IH]; [done|].
  change (String x (a +:+ b +:+ c) = String x ((a +:+ b) +:+ c)) || idtac.
  change ((String x a +:+ b) +:+ c) with (String x ((a +:+ b) +:+ c)).
  change (String x a +:+ (b +:+ c)) with (String x (a +:+ (b +:+ c))).
  by rewrite IH.
Qed.

Lemma ends_with_app (a s t : string) : ends_with s t → ends_with (a +:+ s) t.
Proof. intros [p ->]. exists (a +:+ p). by rewrite string_app_assoc. Qed.

Lemma ends_with_trans (s t u : string) :
  ends_with s t → ends_with t u → ends_with s u.
Proof. intros [p ->] [q ->]. exists (p +:+ q). by rewrite string_app_assoc. Qed.

Lemma string_drop_ends (i : nat) (s : string) : ends_with s (string_drop i s).
Proof.
  revert s. induction i as [|i IH]; intros s; [by exists EmptyString|].
  destruct s as [|c s]; [by exists EmptyString|]. simpl.
  destruct (IH s) as [p Hp]. exists (String c p).
  change (String c p +:+ string_drop i s) with (String c (p +:+ string_drop i s)).
  by rewrite <- Hp.
Qed.

Lemma split_on_app (sep : ascii) (a b : string) (hb : string) (tb : list string) :
  split_on sep b = hb :: tb →
  ∃ L q, split_on sep (a +:+ b) = L ++ (q +:+ hb) :: tb.
Proof.
  intros Hb. induction a as [|c a (L & q & IH)].
  - exists [], EmptyString. change (EmptyString +:+ b) with b. by rewrite Hb.
  - change (String c a +:+ b) with (String c (a +:+ b)). simpl. rewrite IH.
    destruct (decide (c = sep)) as [_|_].
    + by exists (EmptyString :: L), q.
    + destruct L as [|l0 L]; simpl.
      * by exists [], (String c q).
      * by exists (String c l0 :: L), q.
Qed.

Lemma last_part_app (a b n : string) :
  last (path_parts b) = Some n →
  ∃ q, last (path_parts (a +:+ b)) = Some (q +:+ n).
Proof.
  unfold path_parts. intros Hlast.
  destruct (split_on "/" b) as [|hb tb] eqn:Hb; [done|].
  destruct (split_on_app "/" a b hb tb Hb) as (L & q & ->).
  set (keep := λ x : string, x ≠ EmptyString ∧ x ≠ ".") in *.
  rewrite filter_app, last_app. rewrite filter_cons in Hlast.
  rewrite (filter_cons keep (q +:+ hb)).
  destruct (last (filter keep tb)) as [m|] eqn:Htb.
  - assert (n = m) as ->.
    { destruct (decide (keep hb)); [rewrite last_cons in Hlast|];
        rewrite Htb in Hlast; congruence. }
    exists EmptyString.
    destruct (decide (keep (q +:+ hb))); [rewrite last_cons|]; by rewrite Htb.
  - apply last_None in Htb. rewrite Htb in *.
    destruct (decide (keep hb)) as [Hok|]; [|done].
    simpl in Hlast. injection Hlast as <-.
    exists q. rewrite decide_True; [done|].
    destruct Hok as [Hne Hdot]. destruct q as [|c q]; [done|]. split.
    + discriminate.
    + change (String c q +:+ hb) with (String c (q +:+ hb)).
      destruct q; [|discriminate]. destruct hb; [done|discriminate].
Qed.

Lemma join_parts_last (parts : list string) (l : string) :
  last parts = Some l → ends_with (join_parts parts) l.
Proof.
  induction parts as [|x parts IH]; [done|].
  destruct parts as [|y parts].
  - intros [= ->]. by exists EmptyString.
  - rewrite last_cons_cons. intros Hl.
    change (join_parts (x :: y :: parts))
      with (x +:+ "/" +:+ join_parts (y :: parts)).
    by apply ends_with_app, ends_with_app, IH.
Qed.

Lemma path_div_ends (directory x l : string) :
  last (path_parts x) = Some l → ends_with (path_div directory x) l.
Proof.
  intros Hl. unfold path_div, path_str.
  assert (∀ root parts, last parts = Some l →
            ends_with (root +:+ join_parts parts) l) as Hjoin.
  { intros root parts Hp. by apply ends_with_app, join_parts_last. }
  assert (last (path_parts directory ++ path_parts x) = Some l) as Hlast.
  { by rewrite last_app, Hl. }
  destruct (path_root x) as [|c r].
  - destruct (path_root directory);
      destruct (path_parts directory ++ path_parts x); try done;
      by apply Hjoin.
  - by apply Hjoin.
Qed.

Lemma path_suffix_ends (filename : string) :
  path_suffix filename ≠ EmptyString →
  ∃ name, last (path_parts filename) = Some name
          ∧ ends_with name (path_suffix filename).
Proof.
  unfold path_suffix, path_name.
  destruct (last (path_parts filename)) as [name|]; simpl; [|done].
  intros Hne. exists name. split; [done|].
  destruct (rfind_dot name) as [i|]; [|done].
  destruct ((0 <? i) && (i <? String.length name - 1)); [|done].
  apply string_drop_ends.
Qed.

Lemma endswith_app_self (a t : string) : endswith (a +:+ t) t = true.
Proof.
  induction a as [|c a IH].
  - change (EmptyString +:+ t) with t. destruct t; simpl;
      [done|by rewrite Ascii.eqb_refl, String.eqb_refl].
  - change (String c a +:+ t) with (String c (a +:+ t)). cbn [endswith].
    rewrite IH. apply orb_true_r.
Qed.

Lemma upload_path_ends (id filename : string) :
  path_suffix filename ≠ EmptyString →
  ends_with (lower (path_div UPLOAD_DIR (id +:+ "_" +:+ filename)))
    (lower (path_suffix filename)).
Proof.
  intros Hne. destruct (path_suffix_ends filename Hne) as (name & Hname & Hends).
  destruct (last_part_app "_" filename name Hname) as [q1 H1].
  destruct (last_part_app id ("_" +:+ filename) _ H1) as [q2 H2].
  pose proof (path_div_ends UPLOAD_DIR _ _ H2) as Hpath.
  assert (ends_with (path_div UPLOAD_DIR (id +:+ "_" +:+ filename))
            (path_suffix filename)) as [p ->].
  { eapply ends_with_trans; [exact Hpath|].
    by apply ends_with_app, ends_with_app. }
  exists (lower p). apply lower_app.
Qed.

(** X19.  Which loader an upload meets.  For a file name that the upload
    endpoint accepts (the lower-cased suffix of its final component is one of
    the five allowed ones), the path under which the upload is saved and
    handed to the job takes the geospatial branch of the loader exactly when
    that suffix is [.tif] or [.tiff]; a [.jpg], [.jpeg] or [.png] upload is
    decoded through PIL.  This holds for every task id and every directory
    structure inside the file name. *)
Theorem upload_loader_follows_suffix (id filename : string) :
  lower (path_suffix filename) ∈ allowed_extensions →
  is_geotiff (path_div UPLOAD_DIR (id +:+ "_" +:+ filename))
  = bool_decide (lower (path_suffix filename) ∈ [".tif"; ".tiff"]).
Proof.
  intros Hallowed.
  assert (path_suffix filename ≠ EmptyString) as Hne.
  { intros Heq. rewrite Heq in Hallowed. simpl in Hallowed.
    unfold allowed_extensions in Hallowed.
    repeat (apply elem_of_cons in Hallowed as [Hallowed|Hallowed];
            [discriminate Hallowed|]).
    by apply elem_of_nil in Hallowed. }
  destruct (upload_path_ends id filename Hne) as [p Hp].
  unfold is_geotiff. rewrite Hp.
  assert (∀ ext t, last_char ext = Some "g"%char → last_char t = Some "f"%char →
            endswith (p +:+ ext) t = false) as Hg.
  { intros ext t Hext Ht. destruct (endswith (p +:+ ext) t) eqn:Hend; [|done].
    apply endswith_last_char in Hend; [|by intros ->].
    rewrite last_char_app in Hend by (by intros ->). congruence. }
  unfold allowed_extensions in Hallowed.
  repeat (apply elem_of_cons in Hallowed as [->|Hallowed]);
    [| | | | |by apply elem_of_nil in Hallowed].
  - by rewrite !Hg.
  - by rewrite !Hg.
  - by rewrite !Hg.
  - by rewrite endswith_app_self.
  - rewrite (endswith_app_self p ".tiff"). by rewrite orb_true_r.
Qed.

Lemma upload_loader_follows_suffix_witness :
  is_geotiff (path_div UPLOAD_DIR ("1b4e28ba" +:+ "_" +:+ "plots/Field.TIF"))
  = bool_decide (lower (path_suffix "plots/Field.TIF") ∈ [".tif"; ".tiff"]).
Proof.
  apply (upload_loader_follows_suffix "1b4e28ba" "plots/Field.TIF").
  unfold allowed_extensions. repeat constructor.
Defined.

Lemma new_upload_task_live id now : live (new_upload_task id now).
Proof. split; [|done]. simpl. intros [H|H]; discriminate H. Qed.

Lemma threshold_check (threshold : Q) :
  Qle_bool 0 threshold && Qle_bool threshold 1 = true
  ↔ (0 <= threshold)%Q ∧ (threshold <= 1)%Q.
Proof. by rewrite andb_true_iff, !Qle_bool_iff. Qed.

(** X20.  What the upload endpoint rejects.  It answers 400 exactly when the
    lower-cased suffix of the file name is not an allowed one, the content is
    longer than 50 MB, or the threshold lies outside [0, 1]; an unsupported
    suffix is reported before the size, and the size before the threshold.
    Whatever 400 it answers, the task table is left as it was: no record is
    created for a rejected upload. *)
Theorem upload_rejected_iff (E : env) (ts : gmap string task) (id : string)
    (now responded : Z) (listing filename : string) (content : list Z)
    (threshold : Q) :
  let out := segment_uploaded_image E ts id now responded listing filename
               content threshold in
  let bad_type := lower (path_suffix filename) ∉ allowed_extensions in
  let too_large := (MAX_FILE_SIZE < Z.of_nat (length content))%Z in
  let bad_threshold := ¬ ((0 <= threshold)%Q ∧ (threshold <= 1)%Q) in
  ((∃ detail, out.1 = inl (HTTPException 400 detail))
   ↔ bad_type ∨ too_large ∨ bad_threshold)
  ∧ (bad_type →
     out.1 = inl (HTTPException 400
                    ("Unsupported file type. Allowed: " +:+ listing)))
  ∧ (¬ bad_type → too_large →
     out.1 = inl (HTTPException 400 "File too large. Maximum size is 50MB"))
  ∧ (¬ bad_type → ¬ too_large → bad_threshold →
     out.1 = inl (HTTPException 400 "Threshold must be between 0.0 and 1.0"))
  ∧ ∀ detail, out.1 = inl (HTTPException 400 detail) → out.2 = ts.
Proof.
  intros out bad_type too_large bad_threshold.
  unfold out, bad_type, too_large, bad_threshold, segment_uploaded_image.
  clear out bad_type too_large bad_threshold.
  pose proof (threshold_check threshold) as Hthr.
  destruct (decide (lower (path_suffix filename) ∈ allowed_extensions))
    as [Hext|Hext].
  2:{ rewrite bool_decide_eq_false_2 by done. cbn [negb fst snd].
      split_and!; try done. split; [by left|by eexists]. }
  rewrite bool_decide_eq_true_2 by done. cbn [negb].
  destruct (MAX_FILE_SIZE <? Z.of_nat (length content))%Z eqn:Hsize.
  { apply Z.ltb_lt in Hsize. cbn [fst snd].
    split_and!; try done. split; [by right; left|by eexists]. }
  apply Z.ltb_ge in Hsize.
  destruct (Qle_bool 0 threshold && Qle_bool threshold 1) eqn:Hrange.
  2:{ assert (¬ ((0 <= threshold)%Q ∧ (threshold <= 1)%Q)) as Hbad.
      { intros H. apply Hthr in H. congruence. }
      cbn [negb fst snd]. split_and!; try done; [|lia].
      split; [by right; right|by eexists]. }
  assert ((0 <= threshold)%Q ∧ (threshold <= 1)%Q) as Hgood by by apply Hthr.
  cbn [negb].
  destruct (write_file E _ content) as [e|[]]; cbn [fst snd];
    (split_and!; [|done|lia|done|by intros ? [=]]);
    (split; [by intros [? [=]]|intros [?|[?|?]]; [done|lia|done]]).
Qed.

(** X21.  An upload that cannot be saved.  When every validation passes but
    writing the file raises [e], the endpoint answers 500 with the detail
    [Upload failed: ] followed by [str(e)], and it schedules no job; the
    record it had created stays in the table, now with status [error], the
    message [Upload error: ] followed by [str(e)], progress 0 and no result,
    so polling the id answers [error]; other tasks are untouched. *)
Theorem upload_save_fails (E : env) (ts : gmap string task) (id : string)
    (now responded : Z) (listing filename : string) (content : list Z)
    (threshold : Q) (e : exn) :
  lower (path_suffix filename) ∈ allowed_extensions →
  (Z.of_nat (length content) ≤ MAX_FILE_SIZE)%Z →
  (0 <= threshold)%Q ∧ (threshold <= 1)%Q →
  write_file E (path_div UPLOAD_DIR (id +:+ "_" +:+ filename)) content = inl e →
  let out := segment_uploaded_image E ts id now responded listing filename
               content threshold in
  out.1 = inl (HTTPException 500 ("Upload failed: " +:+ str e))
  ∧ get_task_status out.2 id
    = inr {| r_task_id := id; r_status := "error"; r_progress := Some 0%Z;
             r_message := "Upload error: " +:+ str e; r_result := None |}
  ∧ (∀ o, o ≠ id → get_task_status out.2 o = get_task_status ts o).
Proof.
  intros Hext Hsize Hthr Hwrite out. unfold out, segment_uploaded_image.
  rewrite bool_decide_eq_true_2 by done.
  apply Z.ltb_ge in Hsize. rewrite Hsize.
  apply threshold_check in Hthr. rewrite Hthr. cbn [negb].
  rewrite Hwrite. cbn [fst snd]. split_and!; [done| |].
  - unfold get_task_status. by rewrite lookup_insert_eq.
  - intros o Ho. unfold get_task_status. by rewrite !lookup_insert_ne.
Qed.

Lemma upload_save_fails_witness :
  let out := segment_uploaded_image disk_full one_queued "t2" 5 6
               ".jpg, .jpeg, .png, .tif, .tiff" "field.png" [137; 80; 78; 71]%Z
               (1 # 2) in
  out.1 = inl (HTTPException 500
                 ("Upload failed: " +:+ "[Errno 28] No space left on device"))
  ∧ get_task_status out.2 "t2"
    = inr {| r_task_id := "t2"; r_status := "error"; r_progress := Some 0%Z;
             r_message := "Upload error: "
                          +:+ "[Errno 28] No space left on device";
             r_result := None |}
  ∧ (∀ o, o ≠ "t2" → get_task_status out.2 o = get_task_status one_queued o).
Proof.
  apply (upload_save_fails disk_full one_queued "t2" 5 6
           ".jpg, .jpeg, .png, .tif, .tiff" "field.png" [137; 80; 78; 71]%Z
           (1 # 2) (Exception "[Errno 28] No space left on device")).
  - unfold allowed_extensions. repeat constructor.
  - unfold MAX_FILE_SIZE. simpl. lia.
  - split; by vm_compute.
  - reflexivity.
Defined.

(** X22.  An accepted upload from start to end.  When the suffix is allowed,
    the content is at most 50 MB, the threshold lies in [0, 1] and the file
    can be written, the endpoint answers with status [processing] and
    schedules [process_image_file] on the saved path with the same id and
    threshold, while the record it stores says [uploading] with progress 0:
    polling before the job runs answers [uploading], not [processing].  When
    the job then runs, in whatever environment, it returns normally; polling
    afterwards answers [completed] with progress 100 and a result, or [error]
    with a message that starts with [Processing error: ] and no result; and
    every other task answers as before the upload. *)
Theorem upload_submission_flow (E : env) (ts : gmap string task) (id : string)
    (now responded : Z) (listing filename : string) (content : list Z)
    (threshold : Q) :
  lower (path_suffix filename) ∈ allowed_extensions →
  (Z.of_nat (length content) ≤ MAX_FILE_SIZE)%Z →
  (0 <= threshold)%Q ∧ (threshold <= 1)%Q →
  write_file E (path_div UPLOAD_DIR (id +:+ "_" +:+ filename)) content = inr () →
  let file_path := path_div UPLOAD_DIR (id +:+ "_" +:+ filename) in
  ∃ ts1,
    segment_uploaded_image E ts id now responded listing filename content
      threshold
    = (inr ({| u_task_id := id; u_status := "processing";
               u_message := "Image uploaded successfully. Processing started.";
               u_created_at := responded |},
            (Upload file_path, id, threshold)), ts1)
    ∧ get_task_status ts1 id
      = inr {| r_task_id := id; r_status := "uploading"; r_progress := Some 0%Z;
               r_message := "Uploading file..."; r_result := None |}
    ∧ (∀ o, o ≠ id → get_task_status ts1 o = get_task_status ts o)
    ∧ ∃ w' polled,
        background_job E (Upload file_path) id threshold (start ts1)
        = (inr (), w')
        ∧ get_task_status (tasks w') id = inr polled
        ∧ r_task_id polled = id
        ∧ (r_status polled = "completed" ∧ r_progress polled = Some 100%Z
           ∧ is_Some (r_result polled)
           ∨ ∃ e, r_status polled = "error"
                  ∧ r_message polled = "Processing error: " +:+ str e
                  ∧ r_result polled = None)
        ∧ ∀ o, o ≠ id → get_task_status (tasks w') o = get_task_status ts o.
Proof.
  intros Hext Hsize Hthr Hwrite file_path.
  exists (<[id := new_upload_task id now]> ts).
  unfold segment_uploaded_image.
  rewrite bool_decide_eq_true_2 by done.
  apply Z.ltb_ge in Hsize. rewrite Hsize.
  apply threshold_check in Hthr. rewrite Hthr. cbn [negb].
  rewrite Hwrite. split_and!; [done| | |].
  - unfold get_task_status. by rewrite lookup_insert_eq.
  - intros o Ho. unfold get_task_status. by rewrite lookup_insert_ne.
  - change (background_job E (Upload file_path) id threshold)
      with (process_image_file E file_path id threshold).
    destruct (process_image_file_ok E id threshold file_path
                (start (<[id := new_upload_task id now]> ts))
                (new_upload_task id now))
      as (r & w' & recs & Hrun & _ & _ & Hlk & Hoth & Hpost).
    { apply lookup_insert_eq. }
    { split; [apply new_upload_task_live|simpl; lia]. }
    destruct r as [e|[]]; [done|].
    set (t := default (new_upload_task id now) (last recs)) in *.
    exists w'. eexists. unfold get_task_status at 1. rewrite Hlk.
    split_and!; [done|done|done|..]; cbn [r_status r_result r_progress r_message].
    + destruct Hpost as [(-> & -> & ?)|(e & -> & -> & ->)];
        [by left|right; by exists e].
    + intros o Ho. unfold get_task_status. rewrite Hoth by done.
      cbn [tasks start]. by rewrite lookup_insert_ne.
Qed.

Lemma upload_submission_flow_witness :
  let file_path := path_div UPLOAD_DIR ("t2" +:+ "_" +:+ "field.png") in
  ∃ ts1,
    segment_uploaded_image failing_model one_queued "t2" 5 6
      ".jpg, .jpeg, .png, .tif, .tiff" "field.png" [137; 80; 78; 71]%Z (1 # 2)
    = (inr ({| u_task_id := "t2"; u_status := "processing";
               u_message := "Image uploaded successfully. Processing started.";
               u_created_at := 6 |},
            (Upload file_path, "t2", (1 # 2)%Q)), ts1)
    ∧ get_task_status ts1 "t2"
      = inr {| r_task_id := "t2"; r_status := "uploading";
               r_progress := Some 0%Z; r_message := "Uploading file...";
               r_result := None |}
    ∧ (∀ o, o ≠ "t2" → get_task_status ts1 o = get_task_status one_queued o)
    ∧ ∃ w' polled,
        background_job failing_model (Upload file_path) "t2" (1 # 2) (start ts1)
        = (inr (), w')
        ∧ get_task_status (tasks w') "t2" = inr polled
        ∧ r_task_id polled = "t2"
        ∧ (r_status polled = "completed" ∧ r_progress polled = Some 100%Z
           ∧ is_Some (r_result polled)
           ∨ ∃ e, r_status polled = "error"
                  ∧ r_message polled = "Processing error: " +:+ str e
                  ∧ r_result polled = None)
        ∧ ∀ o, o ≠ "t2" →
               get_task_status (tasks w') o = get_task_status one_queued o.
Proof.
  apply (upload_submission_flow failing_model one_queued "t2" 5 6
           ".jpg, .jpeg, .png, .tif, .tiff" "field.png" [137; 80; 78; 71]%Z
           (1 # 2)).
  - unfold allowed_extensions. repeat constructor.
  - unfold MAX_FILE_SIZE. simpl. lia.
  - split; by vm_compute.
  - reflexivity.
Defined.
